(** * The UI engine's event-and-update scheduler (pkg/app/engine.go)

    A shallow embedding of the engine of go-app: the event queue, the
    update scheduler (pending set, batch list, priorities), the
    deferred-event buffer, the message bus and Emit.

    - The engine's fields are a record; the event channel is the list of
      the events it holds, with its capacity; the pending set is a [gset],
      the registry a [gmap] of [gmap]s.
    - The component tree and the functions handed to the engine are
      outside engine.go.  The tree is a [tree] of nodes with what the
      engine asks of a node: its parent, whether it is mounted, whether it
      is a Composer.  The functions are the fields of an [Environment];
      each may change the whole [World] (engine, tree and its own state),
      wait on the full channel, or panic.
    - An operation ends as a [result]: it returns, waits, exceeds the bound
      on loop iterations, or panics.  Operations that call external code
      also give the log of those calls, in order.
    - Goroutines, the mutex of the registry, the once-guards and the
      tickers of [start] are not modelled; [start] is given the sequence of
      cases its select statement takes. *)

From Stdlib Require Import Strings.HexString.
From stdpp Require Import gmap strings list fin_maps sorting.

Set Default Proof Using "Type".
Set Warnings "-clear-no-such-hyp".

(* ===================================================================== *)
(** * 1. Data model *)
(* ===================================================================== *)

(** A UI node is identified by its address.  A Go interface value of type
    [UI] is either nil or such an address. *)
Abbreviation node := N (only parsing).
Abbreviation UI := (option N) (only parsing).

(** The part of the component tree the engine looks at: [n.parent()],
    [n.Mounted()] and the type assertion [n.(Composer)]. *)
Record tree := Tree {
  parents : gmap N N;
  mountedNodes : gset N;
  composerNodes : gset N
}.

Definition parent (t : tree) (n : node) : UI := parents t !! n.
Definition Mounted (t : tree) (n : node) : bool := bool_decide (n ∈ mountedNodes t).
Definition isComposer (t : tree) (n : node) : bool := bool_decide (n ∈ composerNodes t).

(** Opaque values that only pass through the engine. *)
Abbreviation error := N (only parsing).
Abbreviation value := N (only parsing).

(** A [MsgHandler] is a Go function value: a code pointer and the
    variables it closes over.  [%p] prints the code pointer only. *)
Record MsgHandler := { codePtr : N; closureEnv : N }.

(** The functions carried by events.  [FnUser] is a function supplied by a
    caller of Dispatch or Defer; the other two are the closures engine.go
    builds itself, in Post and in Mount. *)
Inductive func :=
| FnUser (id : N)
| FnPost (h : MsgHandler) (v : value)
| FnMount (n : node).

(** [type event struct].  Only Dispatch and Defer build events, and both
    call [src.Mounted()] first, so [source] is never nil. *)
Record event := Event {
  source : node;
  deferable : bool;
  function : option func
}.

(** [type updateDescriptor struct] *)
Record updateDescriptor := UpdateDescriptor {
  compo : node;
  priority : nat
}.

(** [type msgHandler struct] (its field [function] is [hfunction] here). *)
Record msgHandler := { src : UI; hfunction : MsgHandler }.

Definition eventBufferSize : nat := 4096.

(** The fields of [type engine struct] the scheduler works on, for an
    engine between [init] and [Close]. *)
Record engine := Engine {
  Body : UI;
  isMountedOnce : bool;
  events : list event;
  updates : gset N;
  updateQueue : list updateDescriptor;
  defers : list event;
  messages : gmap string (gmap string msgHandler)
}.

(** Everything a callback can read or change: the engine, the tree, and
    whatever private state [X] the callbacks keep. *)
Record World (X : Type) := MkWorld {
  eng : engine;
  ui : tree;
  ext : X
}.
Arguments MkWorld {X} _ _ _.
Arguments eng {X} _.
Arguments ui {X} _.
Arguments ext {X} _.

(** What a panic carries: a Go run-time error for the use of a nil
    interface or function value, the error given to [panic(err)], or the
    error Mount builds with [errors.New(msg).Tag(...).Wrap(err)]. *)
Inductive panic :=
| NilDereference
| PanicError (err : error)
| PanicTagged (msg : string) (tags : list (string * nat)) (cause : error).

(** How a call ends: it returns, it waits on the full event channel, the
    bound on loop iterations of the model is reached (a cyclic parent
    chain, or too little fuel for [Consume]), or it panics. *)
Inductive result (A : Type) :=
| Done (a : A)
| Blocked
| OutOfFuel
| Panicked (p : panic).
Arguments Done {A} _.
Arguments Blocked {A}.
Arguments OutOfFuel {A}.
Arguments Panicked {A} _.

(** The calls the engine makes into external code, in order. *)
Inductive obs :=
| Called (ev : event)
| CalledDeferred (ev : event)
| Rendered (c : node)
| EmitCalled (fn : N)
| Flushed.

Definition run (A : Type) : Type := list obs * result A.

Definition bind {A B} (r : result A) (k : A → result B) : result B :=
  match r with
  | Done a => k a
  | Blocked => Blocked
  | OutOfFuel => OutOfFuel
  | Panicked p => Panicked p
  end.

Definition lift {A} (r : result A) : run A := ([], r).

Definition rbind {A B} (r : run A) (k : A → run B) : run B :=
  match r with
  | (l, Done a) => let (l', r') := k a in (l ++ l', r')
  | (l, Blocked) => (l, Blocked)
  | (l, OutOfFuel) => (l, OutOfFuel)
  | (l, Panicked p) => (l, Panicked p)
  end.

Notation "'let*' x ':=' m 'in' k" := (bind m (λ x, k))
  (at level 10, x pattern, m at level 100, k at level 200).
Notation "'let+' x ':=' m 'in' k" := (rbind m (λ x, k))
  (at level 10, x pattern, m at level 100, k at level 200).

(** The external code: functions handed to the engine and the operations
    of the tree subsystem.  Each may change the whole world, block or
    panic. *)
Record Environment (X : Type) := {
  (** [fn(ctx)] for a caller's function, [ctx = makeContext(source)] *)
  callUser : N → node → World X → result (World X);
  (** [fn()] of Emit *)
  callThunk : N → World X → result (World X);
  (** [function(ctx, v)] for a message handler *)
  callHandler : MsgHandler → node → value → World X → result (World X);
  (** [compo.updateRoot()] *)
  updateRoot : node → World X → result (World X * option error);
  (** [e.Body.(elemWithChildren).replaceChildAt(0, n)] *)
  replaceChildAt : node → nat → node → World X → result (World X * option error);
  (** [update(e.Body.children()[0], n)] *)
  updateFirstChild : node → node → World X → result (World X * option error);
  isErrReplace : error → bool
}.
Arguments callUser {X} _ _ _ _.
Arguments callThunk {X} _ _ _.
Arguments callHandler {X} _ _ _ _ _.
Arguments updateRoot {X} _ _ _.
Arguments replaceChildAt {X} _ _ _ _ _.
Arguments updateFirstChild {X} _ _ _ _.
Arguments isErrReplace {X} _ _.

(** [sort.Slice] promises a permutation in which no element is less than
    one before it, and nothing about equal priorities. *)
Definition priority_le (a b : updateDescriptor) : Prop := priority a ≤ priority b.

Record Sorter := {
  sortSlice :> list updateDescriptor → list updateDescriptor;
  sortSlice_perm : ∀ d, sortSlice d ≡ₚ d;
  sortSlice_sorted : ∀ d, StronglySorted priority_le (sortSlice d)
}.

(* ===================================================================== *)
(** * 2. Field updates *)
(* ===================================================================== *)

Section Fields.
Context {X : Type}.

Definition onEngine (f : engine → engine) (w : World X) : World X :=
  MkWorld (f (eng w)) (ui w) (ext w).

Definition withEvents (evs : list event) : World X → World X :=
  onEngine (λ e, Engine (Body e) (isMountedOnce e) evs (updates e)
                        (updateQueue e) (defers e) (messages e)).
Definition withUpdates (u : gset N) : World X → World X :=
  onEngine (λ e, Engine (Body e) (isMountedOnce e) (events e) u
                        (updateQueue e) (defers e) (messages e)).
Definition withUpdateQueue (q : list updateDescriptor) : World X → World X :=
  onEngine (λ e, Engine (Body e) (isMountedOnce e) (events e) (updates e)
                        q (defers e) (messages e)).
Definition withDefers (d : list event) : World X → World X :=
  onEngine (λ e, Engine (Body e) (isMountedOnce e) (events e) (updates e)
                        (updateQueue e) d (messages e)).
Definition withMessages (m : gmap string (gmap string msgHandler)) : World X → World X :=
  onEngine (λ e, Engine (Body e) (isMountedOnce e) (events e) (updates e)
                        (updateQueue e) (defers e) m).
Definition withMountedOnce (b : bool) : World X → World X :=
  onEngine (λ e, Engine (Body e) b (events e) (updates e)
                        (updateQueue e) (defers e) (messages e)).
Definition withTree (t : tree) (w : World X) : World X :=
  MkWorld (eng w) t (ext w).
End Fields.

(* ===================================================================== *)
(** * 3. The engine's operations *)
(* ===================================================================== *)

(** ** 3.1 Operations that call no external code *)

Section Operations.
Context {X : Type}.
Implicit Types (w : World X) (n c : node) (ev : event).

(** [e.events <- ev] on the buffered channel of capacity
    [eventBufferSize]: the send goes through when there is room and
    waits otherwise. *)
Definition send ev w : result (World X) :=
  if decide (length (events (eng w)) < eventBufferSize)
  then Done (withEvents (events (eng w) ++ [ev]) w)
  else Blocked.

(** The body Dispatch (lines 56-67) and Defer (lines 69-81) share: a nil
    source becomes the Body, and the event is sent when the source is
    mounted.  A nil Body makes [src.Mounted()] panic. *)
Definition enqueue (deferred : bool) (s : UI) (fn : option func) w
  : result (World X) :=
  let s := match s with None => Body (eng w) | Some _ => s end in
  match s with
  | None => Panicked NilDereference
  | Some n =>
      if Mounted (ui w) n
      then send (Event n deferred fn) w
      else Done w
  end.

Definition Dispatch (s : UI) (fn : option func) w : result (World X) :=
  enqueue false s fn w.

Definition Defer (s : UI) (fn : option func) w : result (World X) :=
  enqueue true s fn w.

(** [fmt.Sprintf("%p-%p", src, h)] *)
Definition fmtPointer (p : N) : string := HexString.of_N p.

Definition fmtUI (s : UI) : string :=
  match s with
  | Some p => fmtPointer p
  | None => "%!p(<nil>)"
  end.

Definition msgKey (s : UI) (h : MsgHandler) : string :=
  fmtUI s +:+ "-" +:+ fmtPointer (codePtr h).

(** [e.messages[msg]] *)
Definition handlersOf (msg : string) w : option (gmap string msgHandler) :=
  messages (eng w) !! msg.

(** Handle (lines 106-122) *)
Definition Handle (msg : string) (s : UI) (h : MsgHandler) w : World X :=
  let handlers := default ∅ (handlersOf msg w) in
  withMessages
    (<[msg := <[msgKey s h := {| src := s; hfunction := h |}]> handlers]>
       (messages (eng w))) w.

(** The loop of Post (lines 133-143) over the entries of [handlers],
    visited in the order [order].  An entry whose subscriber is not mounted
    is deleted, and Dispatch is called for every entry; [src.Mounted()]
    panics on a nil subscriber. *)
Fixpoint postLoop (order : list (string * msgHandler)) (v : value)
    (handlers : gmap string msgHandler) w
  : result (gmap string msgHandler * World X) :=
  match order with
  | [] => Done (handlers, w)
  | (k, h) :: rest =>
      match src h with
      | None => Panicked NilDereference
      | Some s =>
          let handlers' :=
            if negb (Mounted (ui w) s) then delete k handlers else handlers in
          let* w' := Dispatch (Some s) (Some (FnPost (hfunction h) v)) w in
          postLoop rest v handlers' w'
      end
  end.

(** Go ranges over a map in an unspecified order, visiting each entry
    once: [order] is that order. *)
Definition rangeOrder (handlers : gmap string msgHandler)
    (order : list (string * msgHandler)) : Prop :=
  order ≡ₚ map_to_list handlers.

(** Post (lines 124-144).  The map under the topic is changed in place. *)
Definition Post (order : list (string * msgHandler)) (msg : string)
    (v : value) w : result (World X) :=
  match handlersOf msg w with
  | None => Done w
  | Some handlers =>
      let* hw := postLoop order v handlers w in
      Done (withMessages (<[msg := hw.1]> (messages (eng hw.2))) hw.2)
  end.

(** The subscriber of a registry entry is mounted. *)
Definition subscriberMounted (t : tree) (h : msgHandler) : bool :=
  match src h with
  | Some s => Mounted t s
  | None => false
  end.

(** The entries whose subscriber is mounted. *)
Definition mountedHandlers (t : tree) (handlers : gmap string msgHandler)
  : gmap string msgHandler :=
  filter (λ kh, subscriberMounted t kh.2 = true) handlers.

(** closeMessageHandlers (lines 445-456) visits every entry of every
    topic and deletes those whose subscriber is not mounted; a nil
    subscriber makes the visit panic. *)
Definition closeMessageHandlers w : result (World X) :=
  if bool_decide
       (Exists (λ topic : string * gmap string msgHandler,
                  Exists (λ kh : string * msgHandler, src kh.2 = None)
                         (map_to_list topic.2))
               (map_to_list (messages (eng w))))
  then Panicked NilDereference
  else Done (withMessages (mountedHandlers (ui w) <$> messages (eng w)) w).

(** The two loops of closeMessageHandlers as they are written (lines
    449-455).  The inner loop visits the entries of one topic in the order
    [order]; the outer loop visits the topics in the order [topics], and
    [inner] gives the order in which the entries of each topic are
    visited.  The maps are changed in place. *)
Fixpoint closeHandlers (order : list (string * msgHandler)) (t : tree)
    (handlers : gmap string msgHandler) : result (gmap string msgHandler) :=
  match order with
  | [] => Done handlers
  | (k, h) :: rest =>
      match src h with
      | None => Panicked NilDereference
      | Some s =>
          closeHandlers rest t
            (if negb (Mounted t s) then delete k handlers else handlers)
      end
  end.

Fixpoint closeTopics (topics : list (string * gmap string msgHandler))
    (inner : string → list (string * msgHandler)) (t : tree)
    (registry : gmap string (gmap string msgHandler))
  : result (gmap string (gmap string msgHandler)) :=
  match topics with
  | [] => Done registry
  | (msg, handlers) :: rest =>
      let* handlers' := closeHandlers (inner msg) t handlers in
      closeTopics rest inner t (<[msg := handlers']> registry)
  end.

Definition closeMessageHandlersLoops
    (topics : list (string * gmap string msgHandler))
    (inner : string → list (string * msgHandler)) w : result (World X) :=
  let* registry := closeTopics topics inner (ui w) (messages (eng w)) in
  Done (withMessages registry w).

(** The bound on the number of iterations of a walk up the parent chain:
    a chain that ends at a root visits at most one node more than there
    are nodes with a parent. *)
Definition treeFuel (t : tree) : nat := S (size (parents t)).

(** How the loop of scheduleComponentUpdate (lines 377-394) ends: it
    returns because the Composer it found is pending, it breaks at the
    root with the Composer it found, if any, and the depth it counted, or
    it does not end. *)
Inductive walk :=
| AlreadyScheduled
| AtRoot (found : UI) (depth : nat)
| Endless.

Fixpoint scheduleWalk (fuel : nat) (t : tree) (pending : gset N)
    n (found : UI) (depth : nat) : walk :=
  match fuel with
  | 0 => Endless
  | S fuel' =>
      let isNew :=
        match found with None => isComposer t n | Some _ => false end in
      if isNew && bool_decide (n ∈ pending) then AlreadyScheduled
      else
        let found' := if isNew then Some n else found in
        match parent t n with
        | None => AtRoot found' depth
        | Some p =>
            let depth' :=
              match found' with Some _ => S depth | None => depth end in
            scheduleWalk fuel' t pending p found' depth'
        end
  end.

(** scheduleComponentUpdate (lines 369-405).  Its callers pass the source
    of an event, which is not nil. *)
Definition scheduleComponentUpdate n w : result (World X) :=
  if negb (Mounted (ui w) n) then Done w
  else
    match scheduleWalk (treeFuel (ui w)) (ui w) (updates (eng w)) n None 0 with
    | AlreadyScheduled => Done w
    | Endless => OutOfFuel
    | AtRoot None _ => Done w
    | AtRoot (Some c) depth =>
        Done (withUpdateQueue
                (updateQueue (eng w) ++ [UpdateDescriptor c (depth + 1)])
                (withUpdates ({[c]} ∪ updates (eng w)) w))
    end.

(** componentUpdated (lines 432-434) *)
Definition componentUpdated c w : World X :=
  withUpdates (updates (eng w) ∖ {[c]}) w.

(** The tags Mount attaches to its panics. *)
Definition diagnostics w : list (string * nat) :=
  [("events-count", length (events (eng w)));
   ("events-capacity", eventBufferSize);
   ("updates-count", size (updates (eng w)));
   ("updates-queue-len", length (updateQueue (eng w)))].

Definition mountFailed w (err : error) : result (World X) :=
  Panicked (PanicTagged "mounting ui element failed" (diagnostics w) err).

(** Mount (lines 215-253) dispatches a closure, [FnMount n], to the Body. *)
Definition Mount n w : result (World X) :=
  Dispatch (Body (eng w)) (Some (FnMount n)) w.
End Operations.

(** ** 3.2 Operations that call external code *)

(** The cases of the select statement in the loop of start. *)
Inductive selected :=
| ContextDone
| EventReceived
| UpdateTick
| CleanTick.

Section Engine.
Context {X : Type} (env : Environment X) (sortUpdateDescriptors : Sorter).
Implicit Types (w : World X) (n c : node) (ev : event).

(** The closure Mount dispatches (lines 216-252).  Its three calls of
    replaceChildAt panic alike on an error. *)
Definition replaceBodyChild n w : result (World X) :=
  match Body (eng w) with
  | None => Panicked NilDereference
  | Some body =>
      let* r := replaceChildAt env body 0 n w in
      match r.2 with
      | Some err => mountFailed r.1 err
      | None => Done r.1
      end
  end.

Definition mountBody n w : result (World X) :=
  if negb (isMountedOnce (eng w)) then
    let* w' := replaceBodyChild n w in
    Done (withMountedOnce true w')
  else
    match Body (eng w) with
    | None => Panicked NilDereference
    | Some body =>
        let* r := updateFirstChild env body n w in
        match r.2 with
        | None => Done r.1
        | Some err =>
            if negb (isErrReplace env err) then mountFailed r.1 err
            else replaceBodyChild n r.1
        end
    end.

(** [function(makeContext(source))]: the context is made from the source,
    which stands for it here. *)
Definition callFunc (f : func) (ctx : node) w : result (World X) :=
  match f with
  | FnUser id => callUser env id ctx w
  | FnPost h v => callHandler env h ctx v w
  | FnMount n => mountBody n w
  end.

(** execEvent (lines 363-367) *)
Definition execEvent ev w : run (World X) :=
  if Mounted (ui w) (source ev) then
    match function ev with
    | Some f => ([Called ev], callFunc f (source ev) w)
    | None => ([], Done w)
    end
  else ([], Done w).

(** The loop of updateComponents (lines 413-427) over the sorted batch
    list as it was when the loop started: entries appended meanwhile are
    not visited. *)
Fixpoint updateLoop (q : list updateDescriptor) w : run (World X) :=
  match q with
  | [] => ([], Done w)
  | ud :: rest =>
      let c := compo ud in
      if negb (Mounted (ui w) c) then updateLoop rest w
      else if negb (bool_decide (c ∈ updates (eng w))) then updateLoop rest w
      else
        let+ w' :=
          ([Rendered c],
           let* r := updateRoot env c w in
           match r.2 with
           | Some err => Panicked (PanicError err)
           | None => Done (componentUpdated c r.1)
           end) in
        updateLoop rest w'
  end.

(** updateComponents (lines 407-430).  The batch list is sorted in place
    and emptied after the loop. *)
Definition updateComponents w : run (World X) :=
  if decide (size (updates (eng w)) = 0) then ([Flushed], Done w)
  else
    let q := sortUpdateDescriptors (updateQueue (eng w)) in
    let+ w' := updateLoop q (withUpdateQueue q w) in
    ([Flushed], Done (withUpdateQueue [] w')).

(** The loop of execDeferableEvents (lines 437-441) over the buffer as it
    was when the loop started.  The function is called without a nil
    check. *)
Fixpoint deferLoop (evs : list event) w : run (World X) :=
  match evs with
  | [] => ([], Done w)
  | ev :: rest =>
      if Mounted (ui w) (source ev) then
        match function ev with
        | Some f =>
            let+ w' := ([CalledDeferred ev], callFunc f (source ev) w) in
            deferLoop rest w'
        | None => ([], Panicked NilDereference)
        end
      else deferLoop rest w
  end.

(** execDeferableEvents (lines 436-443) *)
Definition execDeferableEvents w : run (World X) :=
  let+ w' := deferLoop (defers (eng w)) w in
  ([], Done (withDefers [] w')).

(** What Consume (lines 166-171), ConsumeNext (lines 184-189) and start
    (lines 340-345) do with a received event. *)
Definition handleEvent ev w : run (World X) :=
  if deferable ev then ([], Done (withDefers (defers (eng w) ++ [ev]) w))
  else
    let+ w' := execEvent ev w in
    lift (scheduleComponentUpdate (source ev) w').

(** What they do when they flush (lines 174-175, 190-191, 348-349). *)
Definition flushAll w : run (World X) :=
  let+ w' := updateComponents w in
  execDeferableEvents w'.

(** Consume (lines 162-179).  Functions run by the loop may enqueue
    further events, so the number of events received is bounded by
    [fuel]. *)
Fixpoint Consume (fuel : nat) w : run (World X) :=
  match events (eng w) with
  | [] => flushAll w
  | ev :: rest =>
      match fuel with
      | 0 => ([], OutOfFuel)
      | S fuel' =>
          let+ w' := handleEvent ev (withEvents rest w) in
          Consume fuel' w'
      end
  end.

(** ConsumeNext (lines 181-195) *)
Definition ConsumeNext w : run (World X) :=
  match events (eng w) with
  | [] => ([], Done w)
  | ev :: rest =>
      let+ w' := handleEvent ev (withEvents rest w) in
      flushAll w'
  end.

(** start (lines 318-361), for a given sequence of selected cases.  The tickers decide
    only which case is selected when; the case of an event cannot be
    selected while the queue is empty. *)
Fixpoint start (cases : list selected) w : run (World X) :=
  match cases with
  | [] => ([], Done w)
  | ContextDone :: _ => ([], Done w)
  | EventReceived :: rest =>
      match events (eng w) with
      | [] => start rest w
      | ev :: evs =>
          let+ w' := handleEvent ev (withEvents evs w) in
          start rest w'
      end
  | UpdateTick :: rest =>
      let+ w' := flushAll w in
      start rest w'
  | CleanTick :: rest =>
      let+ w' := lift (closeMessageHandlers w) in
      start rest w'
  end.

(** The loop of Emit (lines 92-103) up the parent chain. *)
Fixpoint emitWalk (fuel : nat) n (compoCount : nat) w : result (World X) :=
  match fuel with
  | 0 => OutOfFuel
  | S fuel' =>
      let isCompo := isComposer (ui w) n in
      let compoCount' := if isCompo then S compoCount else compoCount in
      let* w' :=
        if isCompo && bool_decide (1 < compoCount')
        then Dispatch (Some n) None w
        else Done w in
      match parent (ui w') n with
      | None => Done w'
      | Some p => emitWalk fuel' p compoCount' w'
      end
  end.

(** Emit (lines 83-104).  [fn] may be nil. *)
Definition Emit (s : UI) (fn : option N) w : run (World X) :=
  match s with
  | None => ([], Panicked NilDereference)
  | Some n =>
      if negb (Mounted (ui w) n) then ([], Done w)
      else
        let+ w' :=
          match fn with
          | Some f => ([EmitCalled f], callThunk env f w)
          | None => ([], Done w)
          end in
        lift (emitWalk (treeFuel (ui w')) n 0 w')
  end.
End Engine.

(* ===================================================================== *)
(** * 4. Notions the properties are stated with *)
(* ===================================================================== *)

(** [n] followed by its ancestors up to the root, when the parent chain of
    [n] ends. *)
Fixpoint climb (fuel : nat) (t : tree) (n : node) : option (list N) :=
  match fuel with
  | 0 => None
  | S fuel' =>
      match parent t n with
      | None => Some [n]
      | Some p => (n ::.) <$> climb fuel' t p
      end
  end.

Definition ancestry (t : tree) (n : node) : option (list N) :=
  climb (treeFuel t) t n.

(** The number of parent-chain hops from [c] to the root. *)
Definition hopsToRoot (t : tree) (c : node) : option nat :=
  (λ path, length path - 1) <$> ancestry t c.

(** The nearest enclosing Composer of [n] is [c], and [above] are the
    ancestors of [c]. *)
Definition enclosedBy (t : tree) (n c : node) (above : list N) : Prop :=
  ∃ below, ancestry t n = Some (below ++ c :: above)
           ∧ Forall (λ x, x ∉ composerNodes t) below
           ∧ c ∈ composerNodes t.

(** The Composers re-rendered, the functions called and the deferred
    functions called in a log. *)
Definition renders (log : list obs) : list N :=
  omap (λ o, match o with Rendered c => Some c | _ => None end) log.
Definition deferredCalls (log : list obs) : list event :=
  omap (λ o, match o with CalledDeferred ev => Some ev | _ => None end) log.

Definition occurrences (c : node) (l : list N) : nat :=
  length (filter (λ x, x = c) l).

(** The world after [c] has been scheduled with priority [p]: [c] is in
    the pending set and [(c, p)] is the last entry of the batch list. *)
Definition scheduled {X} (c : node) (p : nat) (w : World X) : World X :=
  withUpdateQueue (updateQueue (eng w) ++ [UpdateDescriptor c p])
                  (withUpdates ({[c]} ∪ updates (eng w)) w).

(** Several calls of scheduleComponentUpdate in a row. *)
Fixpoint scheduleAll {X} (ns : list N) (w : World X) : result (World X) :=
  match ns with
  | [] => Done w
  | n :: rest =>
      let* w' := scheduleComponentUpdate n w in
      scheduleAll rest w'
  end.

(** Several calls of Dispatch with a nil function in a row, as Emit makes
    them. *)
Fixpoint dispatchAll {X} (cs : list N) (w : World X) : result (World X) :=
  match cs with
  | [] => Done w
  | c :: rest =>
      let* w' := Dispatch (Some c) None w in
      dispatchAll rest w'
  end.

(** The event that calls the handler of a registry entry with [v]. *)
Definition postEvent (v : value) (h : msgHandler) : option event :=
  match src h with
  | Some s => Some (Event s false (Some (FnPost (hfunction h) v)))
  | None => None
  end.

(** One such event for every visited entry whose subscriber is mounted. *)
Definition postEvents (t : tree) (v : value)
    (order : list (string * msgHandler)) : list event :=
  omap (λ kh, if subscriberMounted t kh.2 then postEvent v kh.2 else None) order.

(** The entries Post deletes while it visits [order]. *)
Definition pruned (t : tree) (order : list (string * msgHandler))
    (handlers : gmap string msgHandler) : gmap string msgHandler :=
  foldl (λ m kh, if subscriberMounted t kh.2 then m else delete kh.1 m)
        handlers order.

(** The Composers on a path up the tree, nearest first. *)
Definition composersOn (t : tree) (path : list N) : list N :=
  filter (λ x, x ∈ composerNodes t) path.

(** Reading a log from left to right: whether its last entry is the end of
    a flush or a call made by the drain that follows one. *)
Fixpoint draining (b : bool) (log : list obs) : bool :=
  match log with
  | [] => b
  | Flushed :: rest => draining true rest
  | CalledDeferred _ :: rest => draining true rest
  | _ :: rest => draining false rest
  end.

(** Every call of a deferred function comes after the end of a flush, with
    nothing but calls of deferred functions in between. *)
Fixpoint drainsFollowFlush (b : bool) (log : list obs) : Prop :=
  match log with
  | [] => True
  | Flushed :: rest => drainsFollowFlush true rest
  | CalledDeferred _ :: rest => b = true ∧ drainsFollowFlush true rest
  | _ :: rest => drainsFollowFlush false rest
  end.

(** Every re-render returns without an error and leaves the mounted nodes
    and the pending set as they are. *)
Definition rendersQuietly {X} (env : Environment X) : Prop :=
  ∀ c w, ∃ w', updateRoot env c w = Done (w', None)
               ∧ ui w' = ui w
               ∧ updates (eng w') = updates (eng w).

(** The events whose function execEvent called, in a log. *)
Definition calledEvents (log : list obs) : list event :=
  omap (λ o, match o with Called ev => Some ev | _ => None end) log.

(** Every Composer of the pending set has an entry in the batch list. *)
Definition pendingQueued {X} (w : World X) : Prop :=
  ∀ c, c ∈ updates (eng w) → c ∈ compo <$> updateQueue (eng w).

(** An event that execEvent runs in a tree [t]: it is not deferrable, its
    source is mounted and it carries a function. *)
Definition runnable (t : tree) (ev : event) : Prop :=
  deferable ev = false ∧ source ev ∈ mountedNodes t ∧ is_Some (function ev).

(** The functions of events take nothing out of the event queue (they may
    send further events) and neither mount nor dismount a node. *)
Definition functionsAppendEvents {X}
    (call : func → N → World X → result (World X)) : Prop :=
  ∀ f s w w', call f s w = Done w' →
    events (eng w) `prefix_of` events (eng w')
    ∧ mountedNodes (ui w') = mountedNodes (ui w).

(** The functions of the events [evs] return, and neither mount nor
    dismount a node. *)
Definition functionsReturn {X}
    (call : func → N → World X → result (World X)) (evs : list event) : Prop :=
  ∀ ev f w, ev ∈ evs → function ev = Some f →
    ∃ w', call f (source ev) w = Done w'
          ∧ mountedNodes (ui w') = mountedNodes (ui w).

(** A string without the character [-]. *)
Fixpoint dashFree (s : string) : bool :=
  match s with
  | EmptyString => true
  | String a s' => negb (Ascii.eqb a (Ascii.ascii_of_nat 45)) && dashFree s'
  end.

(** From [w] to [w'] the event queue only gained events at its end, and is
    within the capacity of the channel if it was. *)
Definition queueGrows {X} (w w' : World X) : Prop :=
  events (eng w) `prefix_of` events (eng w')
  ∧ (length (events (eng w)) ≤ eventBufferSize →
     length (events (eng w')) ≤ eventBufferSize).

#[global] Instance runnable_dec t ev : Decision (runnable t ev).
Proof. unfold runnable. apply _. Defined.

(** A log in three phases: calls of event functions, then re-renders and
    the end of the flush, then calls of deferred functions.  Nothing is
    called by the drain unless the flush has returned. *)
Definition batched (log : list obs) : Prop :=
  ∃ es rs fl ds,
    log = (Called <$> es) ++ (Rendered <$> rs) ++ fl ++ (CalledDeferred <$> ds)
    ∧ (fl = [Flushed] ∨ (fl = [] ∧ ds = [])).

(** Every entry of a topic is stored under the key of its own subscriber
    and handler, as Handle stores it. *)
Definition keyed (handlers : gmap string msgHandler) : Prop :=
  ∀ k e, handlers !! k = Some e → k = msgKey (src e) (hfunction e).

Definition registryKeyed {X} (w : World X) : Prop :=
  ∀ msg handlers, handlersOf msg w = Some handlers → keyed handlers.

#[global] Instance selected_eq_dec : EqDecision selected.
Proof. solve_decision. Defined.

(** A panic value that carries the diagnostic context of the engine. *)
Definition carriesDiagnostics (p : panic) : Prop :=
  ∃ msg tags cause, p = PanicTagged msg tags cause
    ∧ ∀ k, k ∈ ["events-count"; "events-capacity"; "updates-count";
                "updates-queue-len"] → k ∈ tags.*1.

(* ===================================================================== *)
(** * 5. Instances *)
(* ===================================================================== *)

#[global] Instance priority_le_dec : RelDecision priority_le.
Proof. intros a b. unfold priority_le. apply _. Defined.

#[global] Instance priority_le_trans : Transitive priority_le.
Proof. intros a b c. unfold priority_le. lia. Qed.

#[global] Instance priority_le_total : Total priority_le.
Proof. intros a b. unfold priority_le. lia. Qed.

(** One sorting function that meets the contract of [sort.Slice]. *)
Definition mergeSorter : Sorter :=
  {| sortSlice := merge_sort priority_le;
     sortSlice_perm := merge_sort_Permutation priority_le;
     sortSlice_sorted := StronglySorted_merge_sort priority_le |}.

(** External code that returns at once and changes nothing. *)
Definition quietEnv : Environment unit :=
  {| callUser := λ _ _ w, Done w;
     callThunk := λ _ w, Done w;
     callHandler := λ _ _ _ w, Done w;
     updateRoot := λ _ w, Done (w, None);
     replaceChildAt := λ _ _ _ w, Done (w, None);
     updateFirstChild := λ _ _ w, Done (w, None);
     isErrReplace := λ _, false |}.

Definition emptyEngine (body : UI) : engine :=
  Engine body false [] ∅ [] [] ∅.

(** A root Composer [1] with a child Composer [2] and a grandchild
    Composer [3], all mounted. *)
Definition chainTree : tree :=
  Tree {[ 2%N := 1%N; 3%N := 2%N ]} {[ 1%N; 2%N; 3%N ]} {[ 1%N; 2%N; 3%N ]}.

Definition chainWorld : World unit :=
  MkWorld (emptyEngine (Some 1%N)) chainTree tt.


Definition dismount (n : node) (t : tree) : tree :=
  Tree (parents t) (mountedNodes t ∖ {[n]}) (composerNodes t).

Definition remount (n : node) (t : tree) : tree :=
  Tree (parents t) ({[n]} ∪ mountedNodes t) (composerNodes t).

(** [quietEnv] with another re-render. *)
Definition renderingEnv
    (f : node → World unit → result (World unit * option error))
  : Environment unit :=
  {| callUser := callUser quietEnv;
     callThunk := callThunk quietEnv;
     callHandler := callHandler quietEnv;
     updateRoot := f;
     replaceChildAt := replaceChildAt quietEnv;
     updateFirstChild := updateFirstChild quietEnv;
     isErrReplace := isErrReplace quietEnv |}.

(** The re-render of Composer [1] dismounts its child [2]. *)
Definition dismountingEnv : Environment unit :=
  renderingEnv (λ c w,
    if decide (c = 1%N) then Done (withTree (dismount 2%N (ui w)) w, None)
    else Done (w, None)).

(** The re-render of Composer [1] schedules its child [2]. *)
Definition nestedEnv : Environment unit :=
  renderingEnv (λ c w,
    if decide (c = 1%N)
    then let* w' := scheduleComponentUpdate 2%N w in Done (w', None)
    else Done (w, None)).

(** Every re-render fails with error [7]. *)
Definition failingEnv : Environment unit :=
  renderingEnv (λ c w, Done (w, Some 7%N)).

(** Replacing the child of the body fails with error [9]. *)
Definition brokenMountEnv : Environment unit :=
  {| callUser := callUser quietEnv;
     callThunk := callThunk quietEnv;
     callHandler := callHandler quietEnv;
     updateRoot := updateRoot quietEnv;
     replaceChildAt := λ _ _ _ w, Done (w, Some 9%N);
     updateFirstChild := updateFirstChild quietEnv;
     isErrReplace := isErrReplace quietEnv |}.

(** Two handlers on topic [x]: one of the mounted node [2], one of the
    node [9], which is not mounted. *)
Definition handlerA : MsgHandler := {| codePtr := 4096; closureEnv := 0 |}.
Definition handlerB : MsgHandler := {| codePtr := 8192; closureEnv := 0 |}.

Definition busWorld : World unit :=
  Handle "x" (Some 9%N) handlerB (Handle "x" (Some 2%N) handlerA chainWorld).

Definition busHandlers : gmap string msgHandler :=
  default ∅ (handlersOf "x" busWorld).

(** [handlerA] closing over other variables: the same code pointer. *)
Definition handlerA' : MsgHandler := {| codePtr := 4096; closureEnv := 1 |}.

(** Two handlers on topic [x]: one of the mounted node [2], one registered
    with a nil subscriber. *)
Definition nilBusWorld : World unit :=
  Handle "x" None handlerB (Handle "x" (Some 2%N) handlerA chainWorld).

Definition nilBusHandlers : gmap string msgHandler :=
  default ∅ (handlersOf "x" nilBusWorld).

(* ===================================================================== *)
(** * 6. Properties *)
(* ===================================================================== *)

(** ** 6.1 The parent chain *)

Lemma climb_head fuel t n path :
  climb fuel t n = Some path → ∃ rest, path = n :: rest.
Proof.
  destruct fuel as [|fuel]; simpl; [done|].
  destruct (parent t n) as [p|]; [|intros [= <-]; by exists []].
  destruct (climb fuel t p) as [rest|]; simpl; [|done].
  intros [= <-]. by exists rest.
Qed.

Lemma climb_step fuel t n x rest :
  climb fuel t n = Some (n :: x :: rest) →
  ∃ fuel', fuel = S fuel' ∧ parent t n = Some x
           ∧ climb fuel' t x = Some (x :: rest).
Proof.
  destruct fuel as [|fuel]; simpl; [done|].
  destruct (parent t n) as [p|] eqn:Hp; [|done].
  destruct (climb fuel t p) as [l|] eqn:Hl; simpl; [|done].
  intros [= ->]. destruct (climb_head _ _ _ _ Hl) as [r [= -> ->]].
  by exists fuel.
Qed.

Lemma climb_root fuel t n :
  climb fuel t n = Some [n] → parent t n = None.
Proof.
  destruct fuel as [|fuel]; simpl; [done|].
  destruct (parent t n) as [p|]; [|done].
  destruct (climb fuel t p) as [l|] eqn:Hl; simpl; [|done].
  intros [= ->]. by destruct (climb_head _ _ _ _ Hl).
Qed.

Lemma climb_mono fuel fuel' t n path :
  climb fuel t n = Some path → fuel ≤ fuel' → climb fuel' t n = Some path.
Proof.
  revert fuel' n path. induction fuel as [|fuel IH]; intros fuel' n path; [done|].
  destruct fuel' as [|fuel']; [lia|]. simpl.
  destruct (parent t n) as [p|]; [|done].
  destruct (climb fuel t p) as [l|] eqn:Hl; simpl; [|done].
  intros [= <-] ?. by rewrite (IH fuel' p l Hl); [|lia].
Qed.

Lemma climb_suffix fuel t n below c above :
  climb fuel t n = Some (below ++ c :: above) →
  climb fuel t c = Some (c :: above).
Proof.
  revert fuel n. induction below as [|x below IH]; intros fuel n H.
  - simpl in H. by destruct (climb_head _ _ _ _ H) as [r [= -> ->]].
  - simpl in H. destruct (climb_head _ _ _ _ H) as [r [= -> _]].
    destruct below as [|y below]; simpl in *.
    + destruct (climb_step _ _ _ _ _ H) as (fuel' & -> & _ & H').
      eapply climb_mono; [done|lia].
    + destruct (climb_step _ _ _ _ _ H) as (fuel' & -> & _ & H').
      eapply climb_mono; [by eapply IH|lia].
Qed.

Lemma enclosedBy_hops t n c above :
  enclosedBy t n c above → hopsToRoot t c = Some (length above).
Proof.
  intros (below & H & _ & _). unfold hopsToRoot, ancestry in *.
  rewrite (climb_suffix _ _ _ _ _ _ H). simpl. f_equal. lia.
Qed.

(** Once a Composer is found the loop only counts the hops to the root. *)
Lemma scheduleWalk_found fuel t pending n c0 d path :
  climb fuel t n = Some path →
  scheduleWalk fuel t pending n (Some c0) d
  = AtRoot (Some c0) (d + (length path - 1)).
Proof.
  revert n d path. induction fuel as [|fuel IH]; intros n d path; [done|].
  simpl. destruct (parent t n) as [p|].
  - destruct (climb fuel t p) as [l|] eqn:Hl; simpl; [|done].
    intros [= <-]. rewrite (IH _ _ _ Hl).
    destruct (climb_head _ _ _ _ Hl) as [r ->]. simpl. f_equal. lia.
  - intros [= <-]. simpl. f_equal. lia.
Qed.

(** Below the nearest Composer the loop counts nothing. *)
Lemma scheduleWalk_search fuel t pending n d below c above :
  climb fuel t n = Some (below ++ c :: above) →
  Forall (λ x, x ∉ composerNodes t) below →
  c ∈ composerNodes t →
  scheduleWalk fuel t pending n None d
  = if bool_decide (c ∈ pending) then AlreadyScheduled
    else AtRoot (Some c) (d + length above).
Proof.
  revert fuel n. induction below as [|x below IH]; intros fuel n H Hbelow Hc.
  - simpl in H. destruct (climb_head _ _ _ _ H) as [r [= <- <-]].
    destruct fuel as [|fuel]; [done|]. simpl in *.
    unfold isComposer. rewrite (bool_decide_eq_true_2 _ Hc). simpl.
    destruct (bool_decide (c ∈ pending)); [done|].
    destruct (parent t c) as [p|].
    + destruct (climb fuel t p) as [l|] eqn:Hl; simpl in H; [|done].
      injection H as <-. rewrite (scheduleWalk_found _ _ _ _ _ _ _ Hl).
      destruct (climb_head _ _ _ _ Hl) as [r ->]. simpl. f_equal. lia.
    + injection H as <-. simpl. f_equal. lia.
  - simpl in H. destruct (climb_head _ _ _ _ H) as [r [= <- _]].
    apply Forall_cons in Hbelow as [Hx Hbelow].
    assert (∃ y r', below ++ c :: above = y :: r') as (y & r' & E).
    { destruct below; simpl; eauto. }
    rewrite E in H. destruct (climb_step _ _ _ _ _ H) as (fuel' & -> & Hp & H').
    simpl. replace (isComposer t x) with false
      by (symmetry; by apply bool_decide_eq_false_2).
    simpl. rewrite Hp. rewrite <- E in H'. by apply IH.
Qed.

(** A chain that ends at a root needs no more fuel than [treeFuel]. *)
Lemma climb_unique fuel1 fuel2 t n path1 path2 :
  climb fuel1 t n = Some path1 → climb fuel2 t n = Some path2 → path1 = path2.
Proof.
  intros H1 H2.
  pose proof (climb_mono _ (fuel1 + fuel2) _ _ _ H1 ltac:(lia)) as H1'.
  pose proof (climb_mono _ (fuel1 + fuel2) _ _ _ H2 ltac:(lia)) as H2'.
  congruence.
Qed.

Lemma climb_exact fuel t n path :
  climb fuel t n = Some path → climb (length path) t n = Some path.
Proof.
  revert n path. induction fuel as [|fuel IH]; intros n path; [done|].
  simpl. destruct (parent t n) as [p|] eqn:Hp.
  - destruct (climb fuel t p) as [rest|] eqn:Hrest; [|done].
    intros [= <-]. simpl. by rewrite Hp, (IH _ _ Hrest).
  - intros [= <-]. simpl. by rewrite Hp.
Qed.

Lemma climb_fresh fuel t n p rest :
  parent t n = Some p → climb fuel t p = Some rest → n ∉ rest.
Proof.
  intros Hp Hrest Hin.
  apply list_elem_of_split in Hin as (below & above & ->).
  pose proof (climb_suffix _ _ _ _ _ _ Hrest) as Hn.
  assert (climb (S fuel) t n = Some (n :: below ++ n :: above)) as Hn'.
  { simpl. by rewrite Hp, Hrest. }
  pose proof (climb_unique _ _ _ _ _ _ Hn Hn') as E.
  apply (f_equal length) in E. simpl in E. rewrite length_app in E.
  simpl in E. lia.
Qed.

Lemma climb_delete fuel t n p rest :
  climb fuel t p = Some rest → n ∉ rest →
  climb fuel (Tree (delete n (parents t)) (mountedNodes t) (composerNodes t)) p
  = Some rest.
Proof.
  revert p rest. induction fuel as [|fuel IH]; intros p rest; [done|].
  simpl. intros H Hn.
  destruct (climb_head (S fuel) t p rest H) as [r ->].
  apply not_elem_of_cons in Hn as [Hnp Hn].
  unfold parent in *. simpl. rewrite lookup_delete_ne by done.
  destruct (parents t !! p) as [q|]; [|done].
  destruct (climb fuel t q) as [l|] eqn:Hl; [|done].
  simpl in H. injection H as <-. by rewrite (IH _ _ Hl Hn).
Qed.

Lemma climb_length fuel t n path :
  climb fuel t n = Some path → length path ≤ treeFuel t.
Proof.
  revert t n path. induction fuel as [|fuel IH]; intros t n path; [done|].
  simpl. destruct (parent t n) as [p|] eqn:Hp.
  - destruct (climb fuel t p) as [rest|] eqn:Hrest; [|done].
    intros [= <-]. pose proof (climb_fresh _ _ _ _ _ Hp Hrest) as Hfresh.
    pose proof (IH _ _ _ (climb_delete _ _ n _ _ Hrest Hfresh)) as Hlen.
    unfold treeFuel in *. simpl in *.
    rewrite map_size_delete_Some in Hlen by (by exists p).
    assert (size (parents t) ≠ 0); [|lia].
    apply map_size_ne_0_lookup. by exists n, p.
  - intros [= <-]. unfold treeFuel. simpl. lia.
Qed.

Lemma treeFuel_enough fuel t n path :
  climb fuel t n = Some path → ancestry t n = Some path.
Proof.
  intros H. unfold ancestry.
  eapply climb_mono; [by eapply climb_exact|by eapply climb_length].
Qed.

(** A path without a Composer. *)
Lemma scheduleWalk_none fuel t pending n d path :
  climb fuel t n = Some path →
  Forall (λ x, x ∉ composerNodes t) path →
  scheduleWalk fuel t pending n None d = AtRoot None d.
Proof.
  revert n d path. induction fuel as [|fuel IH]; intros n d path; [done|].
  intros H Hpath. destruct (climb_head _ _ _ _ H) as [rest ->].
  apply Forall_cons in Hpath as [Hn Hrest]. simpl in *.
  replace (isComposer t n) with false
    by (symmetry; by apply bool_decide_eq_false_2).
  simpl. destruct (parent t n) as [p|]; [|done].
  destruct (climb fuel t p) as [l|] eqn:Hl; [|done].
  simpl in H. injection H as <-. by eapply IH.
Qed.

Lemma composers_split t (path : list N) :
  Forall (λ x, x ∉ composerNodes t) path
  ∨ ∃ below c above, path = below ++ c :: above
                     ∧ Forall (λ x, x ∉ composerNodes t) below
                     ∧ c ∈ composerNodes t.
Proof.
  induction path as [|x path IH]; [by left|].
  destruct (decide (x ∈ composerNodes t)) as [Hx|Hx].
  - right. by exists [], x, path.
  - destruct IH as [IH|(below & c & above & -> & Hbelow & Hc)].
    + left. by constructor.
    + right. exists (x :: below), c, above. split_and!; [done| |done].
      by constructor.
Qed.

Section Scheduling.
Context {X : Type}.
Implicit Types (w : World X) (n c : node).

Lemma schedule_unmounted w n :
  Mounted (ui w) n = false → scheduleComponentUpdate n w = Done w.
Proof. unfold scheduleComponentUpdate. by intros ->. Qed.

Lemma schedule_enclosing w n c above :
  Mounted (ui w) n = true →
  enclosedBy (ui w) n c above →
  scheduleComponentUpdate n w
  = if bool_decide (c ∈ updates (eng w)) then Done w
    else Done (scheduled c (length above + 1) w).
Proof.
  intros Hm (below & H & Hbelow & Hc). unfold scheduleComponentUpdate.
  rewrite Hm. cbn [negb]. unfold ancestry in H.
  rewrite (scheduleWalk_search _ _ _ _ 0 _ _ _ H Hbelow Hc).
  by destruct (bool_decide (c ∈ updates (eng w))).
Qed.

Lemma scheduleAll_cons_new w n c above ns :
  Mounted (ui w) n = true →
  enclosedBy (ui w) n c above →
  c ∉ updates (eng w) →
  scheduleAll (n :: ns) w = scheduleAll ns (scheduled c (length above + 1) w).
Proof.
  intros Hm He Hc. simpl. rewrite (schedule_enclosing _ _ _ _ Hm He).
  by rewrite (bool_decide_eq_false_2 _ Hc).
Qed.

Lemma schedule_no_composer w n path :
  ancestry (ui w) n = Some path →
  Forall (λ x, x ∉ composerNodes (ui w)) path →
  scheduleComponentUpdate n w = Done w.
Proof.
  intros H Hpath. unfold scheduleComponentUpdate, ancestry in *.
  destruct (Mounted (ui w) n); [|done]. cbn [negb].
  by rewrite (scheduleWalk_none _ _ _ _ 0 _ H Hpath).
Qed.

(** scheduleComponentUpdate returns whenever the parent chain of its node
    ends. *)
Lemma schedule_returns fuel w n path :
  climb fuel (ui w) n = Some path →
  ∃ w', scheduleComponentUpdate n w = Done w'.
Proof.
  intros H%treeFuel_enough.
  destruct (Mounted (ui w) n) eqn:Hm.
  2: { exists w. by apply schedule_unmounted. }
  destruct (composers_split (ui w) path)
    as [Hpath|(below & c & above & -> & Hbelow & Hc)].
  - exists w. by eapply schedule_no_composer.
  - rewrite (schedule_enclosing w n c above Hm); [|by exists below].
    destruct (bool_decide (c ∈ updates (eng w))); eauto.
Qed.

(** After the first call the Composer is pending, and every further call
    that reaches it returns at once. *)
Lemma scheduleAll_enclosing w ns c above :
  ns ≠ [] →
  Forall (λ n, Mounted (ui w) n = true ∧ enclosedBy (ui w) n c above) ns →
  c ∉ updates (eng w) →
  scheduleAll ns w = Done (scheduled c (length above + 1) w).
Proof.
  intros Hne Hns Hc. destruct ns as [|n ns]; [done|]. clear Hne.
  apply Forall_cons in Hns as [[Hm He] Hns]. simpl.
  rewrite (schedule_enclosing _ _ _ _ Hm He).
  rewrite (bool_decide_eq_false_2 _ Hc). simpl.
  induction Hns as [|n' ns [Hm' He'] _ IH]; [done|]. simpl.
  rewrite (schedule_enclosing (scheduled _ _ w) n' c above); [|done..].
  rewrite bool_decide_eq_true_2; [done|]. simpl. set_solver.
Qed.
End Scheduling.

(** ** 6.2 Logs and counting *)

Lemma renders_app l1 l2 : renders (l1 ++ l2) = renders l1 ++ renders l2.
Proof. apply omap_app. Qed.

Lemma renders_Rendered (ds : list updateDescriptor) :
  renders ((Rendered ∘ compo) <$> ds) = compo <$> ds.
Proof. induction ds as [|d ds IH]; [done|]. csimpl. by f_equal. Qed.

Lemma deferredCalls_app l1 l2 :
  deferredCalls (l1 ++ l2) = deferredCalls l1 ++ deferredCalls l2.
Proof. apply omap_app. Qed.

Lemma occurrences_app c l1 l2 :
  occurrences c (l1 ++ l2) = occurrences c l1 + occurrences c l2.
Proof. unfold occurrences. by rewrite filter_app, length_app. Qed.

Lemma occurrences_cons c x l :
  occurrences c (x :: l) = (if decide (x = c) then 1 else 0) + occurrences c l.
Proof. unfold occurrences. rewrite filter_cons. by destruct (decide (x = c)). Qed.

Lemma occurrences_absent c l : c ∉ l → occurrences c l = 0.
Proof.
  induction l as [|x l IH]; [done|]. rewrite not_elem_of_cons. intros [? ?].
  rewrite occurrences_cons, decide_False by done. by rewrite IH.
Qed.

Lemma occurrences_sublist c l1 l2 :
  l1 `sublist_of` l2 → occurrences c l1 ≤ occurrences c l2.
Proof.
  induction 1 as [|x l1 l2 _ IH|x l1 l2 _ IH]; [done|..];
    rewrite !occurrences_cons; lia.
Qed.

Lemma StronglySorted_sublist {A} (R : relation A) (l1 l2 : list A) :
  l1 `sublist_of` l2 → StronglySorted R l2 → StronglySorted R l1.
Proof.
  induction 1 as [|x l1 l2 Hsub IH|x l1 l2 Hsub IH]; intros Hs; [done|..].
  - apply StronglySorted_inv in Hs as [Hs Hx]. constructor; [by apply IH|].
    rewrite Forall_forall in Hx |- *. eauto using elem_of_sublist.
  - apply StronglySorted_inv in Hs as [Hs _]. by apply IH.
Qed.

(** ** 6.3 The flush *)

Section Flushing.
Context {X : Type} (env : Environment X) (sortUpdateDescriptors : Sorter).
Implicit Types (w : World X) (n c : node) (q : list updateDescriptor).

(** The loop re-renders entries of the batch list in the order of the
    list, each at most once. *)
Lemma updateLoop_log q w :
  ∃ done, done `sublist_of` q
          ∧ (updateLoop env q w).1 = (Rendered ∘ compo) <$> done.
Proof.
  revert w. induction q as [|ud q IH]; intros w; simpl.
  { by exists []. }
  destruct (Mounted (ui w) (compo ud)); simpl.
  2: { destruct (IH w) as (done & ? & ?). exists done. split; [|done].
       by apply sublist_cons. }
  destruct (bool_decide (compo ud ∈ updates (eng w))); simpl.
  2: { destruct (IH w) as (done & ? & ?). exists done. split; [|done].
       by apply sublist_cons. }
  destruct (updateRoot env (compo ud) w) as [[w' [err|]]| | |p]; simpl;
    try (exists [ud]; split; [apply sublist_skip, sublist_nil_l|done]).
  destruct (IH (componentUpdated (compo ud) w')) as (done & ? & E).
  destruct (updateLoop env q _) as [l r]. simpl in E. subst l.
  exists (ud :: done). split; [by apply sublist_skip|done].
Qed.

Lemma updateLoop_app q1 q2 w :
  updateLoop env (q1 ++ q2) w
  = let+ w' := updateLoop env q1 w in updateLoop env q2 w'.
Proof.
  revert w. induction q1 as [|ud q1 IH]; intros w; simpl.
  { by destruct (updateLoop env q2 w). }
  destruct (Mounted (ui w) (compo ud)); simpl; [|apply IH].
  destruct (bool_decide (compo ud ∈ updates (eng w))); simpl; [|apply IH].
  destruct (updateRoot env (compo ud) w) as [[w' [err|]]| | |p]; simpl;
    try done.
  rewrite IH. destruct (updateLoop env q1 _) as [l [a| | |p]]; simpl; try done.
  by destruct (updateLoop env q2 a).
Qed.

(** Every re-render of a flush is for an entry of the sorted batch list,
    in the order of that list. *)
Lemma updateComponents_log w :
  ∃ done,
    done `sublist_of` sortUpdateDescriptors (updateQueue (eng w))
    ∧ renders (updateComponents env sortUpdateDescriptors w).1 = compo <$> done.
Proof.
  unfold updateComponents. destruct (decide _) as [_|_]; simpl.
  { exists []. split; [apply sublist_nil_l|done]. }
  destruct (updateLoop_log (sortUpdateDescriptors (updateQueue (eng w)))
              (withUpdateQueue (sortUpdateDescriptors (updateQueue (eng w))) w))
    as (done & Hsub & E).
  exists done. split; [done|].
  destruct (updateLoop env _ _) as [l [a| | |p]]; simpl in *; subst l;
    rewrite ?renders_app, renders_Rendered; simpl; by rewrite ?app_nil_r.
Qed.

Lemma occurrences_sorted c q :
  occurrences c (compo <$> sortUpdateDescriptors q) = occurrences c (compo <$> q).
Proof.
  unfold occurrences. apply Permutation_length.
  by rewrite (sortSlice_perm sortUpdateDescriptors q).
Qed.

(** A Composer is re-rendered at most as often as the batch list names
    it. *)
Lemma updateComponents_at_most c w :
  occurrences c (renders (updateComponents env sortUpdateDescriptors w).1)
  ≤ occurrences c (compo <$> updateQueue (eng w)).
Proof.
  destruct (updateComponents_log w) as (done & Hsub & ->).
  rewrite <- (occurrences_sorted c (updateQueue (eng w))).
  by apply occurrences_sublist, fmap_sublist.
Qed.

(** The entry of a Composer that is mounted and pending when the loop
    reaches it is re-rendered. *)
Lemma updateLoop_reached pre ud post w l1 w1 :
  updateLoop env pre w = (l1, Done w1) →
  Mounted (ui w1) (compo ud) = true →
  compo ud ∈ updates (eng w1) →
  ∃ l2, (updateLoop env (pre ++ ud :: post) w).1
        = l1 ++ Rendered (compo ud) :: l2.
Proof.
  intros Hpre Hm Hp. rewrite updateLoop_app, Hpre. simpl.
  rewrite Hm, (bool_decide_eq_true_2 _ Hp). simpl.
  destruct (updateRoot env (compo ud) w1) as [[w' [err|]]| | |p]; simpl;
    try (by exists []).
  destruct (updateLoop env post _) as [l r]. simpl. by exists l.
Qed.
End Flushing.

(** ** 6.4 The event queue *)

Section Queue.
Context {X : Type}.
Implicit Types (w : World X) (n c : node) (ev : event).

Lemma send_room ev w :
  length (events (eng w)) < eventBufferSize →
  send ev w = Done (withEvents (events (eng w) ++ [ev]) w).
Proof. intros H. unfold send. by rewrite decide_True. Qed.

Lemma send_full ev w :
  eventBufferSize ≤ length (events (eng w)) → send ev w = Blocked.
Proof. intros H. unfold send. rewrite decide_False; [done|lia]. Qed.

Lemma enqueue_unmounted deferred n fn w :
  Mounted (ui w) n = false → enqueue deferred (Some n) fn w = Done w.
Proof. unfold enqueue. by intros ->. Qed.

Lemma enqueue_mounted deferred n fn w :
  Mounted (ui w) n = true →
  length (events (eng w)) < eventBufferSize →
  enqueue deferred (Some n) fn w
  = Done (withEvents (events (eng w) ++ [Event n deferred fn]) w).
Proof. unfold enqueue. intros -> ?. by apply send_room. Qed.

Lemma enqueue_nil deferred fn w :
  enqueue deferred None fn w = enqueue deferred (Body (eng w)) fn w.
Proof. unfold enqueue. by destruct (Body (eng w)). Qed.

(** Sending changes the event queue only. *)
Lemma enqueue_ui deferred s fn w w' :
  enqueue deferred s fn w = Done w' → ui w' = ui w.
Proof.
  unfold enqueue, send. repeat case_match; intros; by simplify_eq.
Qed.

Lemma enqueue_events deferred s fn w w' :
  enqueue deferred s fn w = Done w' →
  events (eng w') = events (eng w)
  ∨ ∃ n, Mounted (ui w) n = true
         ∧ events (eng w') = events (eng w) ++ [Event n deferred fn].
Proof.
  unfold enqueue, send. repeat case_match; intros; simplify_eq; eauto.
Qed.

(** The events Emit's dispatches add to the queue. *)
Lemma dispatchAll_room cs w :
  length (events (eng w)) + length cs ≤ eventBufferSize →
  dispatchAll cs w
  = Done (withEvents
            (events (eng w)
             ++ ((λ c, Event c false None)
                   <$> filter (λ c, c ∈ mountedNodes (ui w)) cs)) w).
Proof.
  revert w. induction cs as [|c cs IH]; intros w Hroom; simpl.
  { rewrite app_nil_r. by destruct w as [[] ? ?]. }
  simpl in Hroom. unfold Dispatch. rewrite filter_cons.
  destruct (decide (c ∈ mountedNodes (ui w))) as [Hc|Hc].
  - rewrite enqueue_mounted;
      [|by apply bool_decide_eq_true_2|unfold eventBufferSize in *; lia].
    simpl. rewrite IH; simpl; [|rewrite length_app; simpl; lia].
    by rewrite <- app_assoc.
  - rewrite enqueue_unmounted; [|by apply bool_decide_eq_false_2].
    simpl. apply IH. lia.
Qed.
End Queue.

(** ** 6.5 The message bus *)

Lemma pruned_absent t order (handlers : gmap string msgHandler) k :
  handlers !! k = None → pruned t order handlers !! k = None.
Proof.
  revert handlers. induction order as [|[k' h'] order IH]; intros handlers Hk;
    [done|]. unfold pruned in *. simpl.
  destruct (subscriberMounted t h'); apply IH; [done|].
  by rewrite lookup_delete_None; right.
Qed.

Lemma pruned_unmounted t order (handlers : gmap string msgHandler) k h :
  (k, h) ∈ order → subscriberMounted t h = false →
  pruned t order handlers !! k = None.
Proof.
  revert handlers. induction order as [|[k' h'] order IH]; intros handlers Hin Hh.
  { by apply elem_of_nil in Hin. }
  apply elem_of_cons in Hin as [[= <- <-]|Hin]; unfold pruned in *; simpl.
  - rewrite Hh. apply (pruned_absent t order). apply lookup_delete_eq.
  - by apply IH.
Qed.

Lemma pruned_mounted t order (handlers : gmap string msgHandler) k :
  (∀ h, (k, h) ∈ order → subscriberMounted t h = true) →
  pruned t order handlers !! k = handlers !! k.
Proof.
  revert handlers. induction order as [|[k' h'] order IH]; intros handlers Hall;
    [done|]. unfold pruned in *. simpl.
  rewrite IH; [|intros h Hin; apply Hall; by right].
  destruct (subscriberMounted t h') eqn:Hh'; [done|].
  apply lookup_delete_ne. intros ->.
  rewrite (Hall h') in Hh'; [done|by left].
Qed.

(** Whatever the order of the visit, Post leaves the entries whose
    subscriber is mounted. *)
Lemma pruned_rangeOrder t order (handlers : gmap string msgHandler) :
  rangeOrder handlers order →
  pruned t order handlers = mountedHandlers t handlers.
Proof.
  intros Horder. apply map_eq. intros k. unfold mountedHandlers.
  destruct (handlers !! k) as [h|] eqn:Hk.
  - assert ((k, h) ∈ order) as Hin.
    { unfold rangeOrder in Horder. rewrite Horder. by apply elem_of_map_to_list. }
    destruct (subscriberMounted t h) eqn:Hh.
    + rewrite pruned_mounted, Hk.
      * symmetry. by apply map_lookup_filter_Some_2.
      * intros h' Hin'. unfold rangeOrder in Horder. rewrite Horder in Hin'.
        apply elem_of_map_to_list in Hin'. by simplify_eq.
    + rewrite (pruned_unmounted _ _ _ _ _ Hin Hh). symmetry.
      apply map_lookup_filter_None_2. right. intros h' ?. simplify_eq. simpl.
      by rewrite Hh.
  - rewrite pruned_absent by done. symmetry.
    apply map_lookup_filter_None_2. by left.
Qed.

Section Bus.
Context {X : Type}.
Implicit Types (w : World X) (n c : node) (ev : event).

Lemma withEvents_twice (l1 l2 : list event) w :
  withEvents l2 (withEvents l1 w) = withEvents l2 w.
Proof. done. Qed.

(** The loop of Post, when no subscriber is nil and the queue has room
    for one event per entry. *)
Lemma postLoop_done order v handlers w :
  Forall (λ kh, is_Some (src kh.2)) order →
  length (events (eng w)) + length order ≤ eventBufferSize →
  postLoop order v handlers w
  = Done (pruned (ui w) order handlers,
          withEvents (events (eng w) ++ postEvents (ui w) v order) w).
Proof.
  revert handlers w.
  induction order as [|[k h] order IH]; intros handlers w Hsrc Hroom.
  { simpl. rewrite app_nil_r. by destruct w as [[] ? ?]. }
  apply Forall_cons in Hsrc as [[s Hs] Hsrc]. simpl in *.
  unfold pruned, postEvents, subscriberMounted, postEvent. simpl.
  rewrite Hs. unfold Dispatch. destruct (Mounted (ui w) s) eqn:Hm; simpl.
  - rewrite enqueue_mounted by (done || lia). simpl.
    rewrite IH; [|done|simpl; rewrite length_app; simpl; lia].
    simpl. rewrite withEvents_twice. by rewrite <- app_assoc.
  - rewrite enqueue_unmounted by done. simpl. apply IH; [done|lia].
Qed.

(** A nil subscriber makes the loop panic when it is reached. *)
Lemma postLoop_nil_subscriber k h order v handlers w :
  src h = None →
  postLoop ((k, h) :: order) v handlers w = Panicked NilDereference.
Proof. simpl. by intros ->. Qed.

Lemma Post_no_topic order msg v w :
  handlersOf msg w = None → Post order msg v w = Done w.
Proof. unfold Post. by intros ->. Qed.

Lemma Post_done order msg v handlers w :
  handlersOf msg w = Some handlers →
  rangeOrder handlers order →
  Forall (λ kh, is_Some (src kh.2)) order →
  length (events (eng w)) + length order ≤ eventBufferSize →
  Post order msg v w
  = Done (withMessages
            (<[msg := mountedHandlers (ui w) handlers]> (messages (eng w)))
            (withEvents (events (eng w) ++ postEvents (ui w) v order) w)).
Proof.
  intros Hh Horder Hsrc Hroom. unfold Post. rewrite Hh.
  rewrite postLoop_done by done. simpl.
  by rewrite pruned_rangeOrder.
Qed.

(** Every event Post sends is for a mounted subscriber, and carries the
    call of its handler with the posted value. *)
Lemma postEvents_spec t v order ev :
  ev ∈ postEvents t v order ↔
  ∃ k h s, (k, h) ∈ order ∧ src h = Some s ∧ Mounted t s = true
           ∧ ev = Event s false (Some (FnPost (hfunction h) v)).
Proof.
  unfold postEvents. rewrite list_elem_of_omap. split.
  - intros ([k h] & Hin & Hev). simpl in Hev.
    unfold subscriberMounted, postEvent in Hev.
    destruct (src h) as [s|] eqn:Hs; [|done].
    destruct (Mounted t s) eqn:Hm; [|done]. simplify_eq.
    by exists k, h, s.
  - intros (k & h & s & Hin & Hs & Hm & ->). exists (k, h). split; [done|].
    simpl. unfold subscriberMounted, postEvent. by rewrite Hs, Hm.
Qed.
End Bus.

(** ** 6.6 Emit *)

Section Emitting.
Context {X : Type} (env : Environment X).
Implicit Types (w : World X) (n c : node).

(** The loop of Emit dispatches every Composer on the path but the
    first. *)
Lemma emitWalk_climb fuel n k w path :
  climb fuel (ui w) n = Some path →
  emitWalk fuel n k w
  = dispatchAll (if decide (k = 0) then tail (composersOn (ui w) path)
                 else composersOn (ui w) path) w.
Proof.
  revert n k w path. induction fuel as [|fuel IH]; intros n k w path; [done|].
  simpl. unfold isComposer, composersOn.
  destruct (decide (n ∈ composerNodes (ui w))) as [Hc|Hc].
  - rewrite (bool_decide_eq_true_2 _ Hc). simpl.
    destruct k as [|k]; simpl.
    + destruct (parent (ui w) n) as [p|] eqn:Hp.
      * destruct (climb fuel (ui w) p) as [rest|] eqn:Hrest; [|done].
        intros [= <-]. rewrite filter_cons, decide_True by done. simpl.
        by rewrite (IH p 1 w rest Hrest).
      * intros [= <-]. rewrite filter_cons, decide_True by done. done.
    + destruct (parent (ui w) n) as [p|] eqn:Hp.
      * destruct (climb fuel (ui w) p) as [rest|] eqn:Hrest; [|done].
        intros [= <-]. rewrite filter_cons, decide_True by done. simpl.
        destruct (Dispatch (Some n) None w) as [w'| | |pv] eqn:Hd; simpl;
          try done.
        rewrite (enqueue_ui _ _ _ _ _ Hd), Hp.
        rewrite <- (enqueue_ui _ _ _ _ _ Hd) in Hrest.
        rewrite (IH p (S (S k)) w' rest Hrest). simpl.
        by rewrite (enqueue_ui _ _ _ _ _ Hd).
      * intros [= <-]. rewrite filter_cons, decide_True by done. simpl.
        destruct (Dispatch (Some n) None w) as [w'| | |pv] eqn:Hd; simpl;
          try done.
        by rewrite (enqueue_ui _ _ _ _ _ Hd), Hp.
  - rewrite (bool_decide_eq_false_2 _ Hc). simpl.
    destruct (parent (ui w) n) as [p|] eqn:Hp.
    + destruct (climb fuel (ui w) p) as [rest|] eqn:Hrest; [|done].
      intros [= <-]. rewrite filter_cons.
      rewrite (decide_False (P:=n ∈ composerNodes (ui w))) by done.
      by rewrite (IH p k w rest Hrest).
    + intros [= <-]. rewrite filter_cons.
      rewrite (decide_False (P:=n ∈ composerNodes (ui w))) by done.
      by destruct (decide (k = 0)).
Qed.

Lemma Emit_unmounted n fn w :
  Mounted (ui w) n = false → Emit env (Some n) fn w = ([], Done w).
Proof. unfold Emit. by intros ->. Qed.

Lemma Emit_mounted n f w w1 path :
  Mounted (ui w) n = true →
  callThunk env f w = Done w1 →
  ancestry (ui w1) n = Some path →
  Emit env (Some n) (Some f) w
  = ([EmitCalled f], dispatchAll (tail (composersOn (ui w1) path)) w1).
Proof.
  intros Hm Hf Hpath. unfold Emit, ancestry in *. rewrite Hm, Hf.
  cbn [negb rbind lift]. by rewrite (emitWalk_climb _ _ _ _ _ Hpath).
Qed.

Lemma Emit_mounted_nil n w path :
  Mounted (ui w) n = true →
  ancestry (ui w) n = Some path →
  Emit env (Some n) None w
  = ([], dispatchAll (tail (composersOn (ui w) path)) w).
Proof.
  intros Hm Hpath. unfold Emit, ancestry in *. rewrite Hm.
  cbn [negb rbind lift]. by rewrite (emitWalk_climb _ _ _ _ _ Hpath).
Qed.
End Emitting.

(** ** 6.7 Registrations *)

Section Registry.
Context {X : Type}.
Implicit Types (w : World X).

Lemma Handle_handlers msg s h w :
  handlersOf msg (Handle msg s h w)
  = Some (<[msgKey s h := {| src := s; hfunction := h |}]>
            (default ∅ (handlersOf msg w))).
Proof. unfold handlersOf, Handle. simpl. apply lookup_insert_eq. Qed.

Lemma Handle_other msg msg' s h w :
  msg ≠ msg' → handlersOf msg' (Handle msg s h w) = handlersOf msg' w.
Proof. intros. unfold handlersOf, Handle. simpl. by apply lookup_insert_ne. Qed.

(** A registration under a key that is taken replaces the entry. *)
Lemma Handle_replaces msg s1 h1 s2 h2 w :
  msgKey s1 h1 = msgKey s2 h2 →
  Handle msg s2 h2 (Handle msg s1 h1 w) = Handle msg s2 h2 w.
Proof.
  intros Hkey. unfold Handle at 1. rewrite Handle_handlers. simpl.
  rewrite Hkey, insert_insert_eq. unfold Handle, withMessages, onEngine.
  simpl. by rewrite insert_insert_eq.
Qed.

Lemma entries_with_key (handlers : gmap string msgHandler) k h :
  handlers !! k = Some h →
  filter (λ kh, kh.1 = k) (map_to_list handlers) = [(k, h)].
Proof.
  intros Hk.
  assert (NoDup (filter (λ kh : string * msgHandler, kh.1 = k)
                        (map_to_list handlers))) as Hnd.
  { apply NoDup_filter, NoDup_map_to_list. }
  assert (∀ kh, kh ∈ filter (λ kh : string * msgHandler, kh.1 = k)
                        (map_to_list handlers) ↔ kh = (k, h)) as Hall.
  { intros [k' h']. rewrite list_elem_of_filter, elem_of_map_to_list. simpl.
    split; [intros [-> ?]; by simplify_eq|by intros [= -> ->]]. }
  destruct (filter _ _) as [|kh1 [|kh2 l]].
  - specialize (Hall (k, h)). destruct Hall as [_ Hall].
    by apply elem_of_nil in Hall.
  - f_equal. apply Hall. by left.
  - apply NoDup_cons in Hnd as [Hnotin _]. destruct Hnotin.
    rewrite (proj1 (Hall kh1)) by (by left).
    rewrite <- (proj1 (Hall kh2)); [by left|by right; left].
Qed.
End Registry.

(** ** 6.8 Deferred events *)

Lemma drainsFollowFlush_app b l1 l2 :
  drainsFollowFlush b l1 →
  drainsFollowFlush (draining b l1) l2 →
  drainsFollowFlush b (l1 ++ l2).
Proof.
  revert b. induction l1 as [|o l1 IH]; intros b; [done|].
  destruct o; simpl; try apply IH. intros [-> H1] H2. split; [done|].
  by apply IH.
Qed.

Lemma drainsFollowFlush_quiet b l :
  deferredCalls l = [] → drainsFollowFlush b l.
Proof.
  revert b. induction l as [|o l IH]; intros b; [done|].
  destruct o; simpl; try apply IH. done.
Qed.

Lemma drainsFollowFlush_drain (evs : list event) :
  drainsFollowFlush true (CalledDeferred <$> evs).
Proof. induction evs as [|ev evs IH]; [done|]. by split. Qed.

Lemma draining_flushed b l : draining b (l ++ [Flushed]) = true.
Proof.
  revert b. induction l as [|o l IH]; intros b; [done|].
  destruct o; simpl; apply IH.
Qed.

Lemma drainsFollowFlush_rbind {A B} b (r : run A) (k : A → run B) :
  drainsFollowFlush b r.1 →
  (∀ a, r.2 = Done a → drainsFollowFlush (draining b r.1) (k a).1) →
  drainsFollowFlush b (rbind r k).1.
Proof.
  intros Hr Hk. destruct r as [l [a| | |p]]; simpl in *; try done.
  specialize (Hk a eq_refl). destruct (k a) as [l' r']. simpl in *.
  by apply drainsFollowFlush_app.
Qed.

Section Deferring.
Context {X : Type} (env : Environment X) (sortUpdateDescriptors : Sorter).
Implicit Types (w : World X) (n c : node) (ev : event).

Lemma deferLoop_skip ev rest w :
  Mounted (ui w) (source ev) = false →
  deferLoop env (ev :: rest) w = deferLoop env rest w.
Proof. simpl. by intros ->. Qed.

Lemma deferLoop_run ev f rest w :
  Mounted (ui w) (source ev) = true →
  function ev = Some f →
  deferLoop env (ev :: rest) w
  = let+ w' := ([CalledDeferred ev], callFunc env f (source ev) w) in
    deferLoop env rest w'.
Proof. simpl. by intros -> ->. Qed.

(** execDeferableEvents calls the function without the nil check of
    execEvent. *)
Lemma deferLoop_nil_function ev rest w :
  Mounted (ui w) (source ev) = true →
  function ev = None →
  deferLoop env (ev :: rest) w = ([], Panicked NilDereference).
Proof. simpl. by intros -> ->. Qed.

Lemma deferLoop_app evs1 evs2 w :
  deferLoop env (evs1 ++ evs2) w
  = let+ w' := deferLoop env evs1 w in deferLoop env evs2 w'.
Proof.
  revert w. induction evs1 as [|ev evs1 IH]; intros w; simpl.
  { by destruct (deferLoop env evs2 w). }
  destruct (Mounted (ui w) (source ev)); [|apply IH].
  destruct (function ev) as [f|]; [|done].
  destruct (callFunc env f (source ev) w) as [w'| | |p]; simpl; try done.
  rewrite IH. destruct (deferLoop env evs1 w') as [l [a| | |p]]; simpl;
    try done.
  by destruct (deferLoop env evs2 a).
Qed.

(** The drain calls deferred functions in the order of the buffer, each
    at most once. *)
Lemma deferLoop_log evs w :
  ∃ ran, ran `sublist_of` evs
         ∧ (deferLoop env evs w).1 = CalledDeferred <$> ran.
Proof.
  revert w. induction evs as [|ev evs IH]; intros w; simpl.
  { by exists []. }
  destruct (Mounted (ui w) (source ev)).
  2: { destruct (IH w) as (ran & ? & ?). exists ran.
       split; [by apply sublist_cons|done]. }
  destruct (function ev) as [f|].
  2: { exists []. split; [apply sublist_nil_l|done]. }
  destruct (callFunc env f (source ev) w) as [w'| | |p]; simpl;
    try (exists [ev]; split; [apply sublist_skip, sublist_nil_l|done]).
  destruct (IH w') as (ran & ? & E).
  destruct (deferLoop env evs w') as [l r]. simpl in E. subst l.
  exists (ev :: ran). split; [by apply sublist_skip|done].
Qed.

(** When no function of the environment changes which nodes are mounted,
    the drain calls exactly the events whose source is mounted and that
    carry a function. *)
Lemma deferLoop_stable evs w :
  (∀ f n w1 w2, callFunc env f n w1 = Done w2 → ui w2 = ui w1) →
  Forall (λ ev, is_Some (function ev)) evs →
  ∀ l w', deferLoop env evs w = (l, Done w') →
    l = CalledDeferred <$> filter (λ ev, source ev ∈ mountedNodes (ui w)) evs
    ∧ ui w' = ui w.
Proof.
  intros Hstable. revert w. induction evs as [|ev evs IH]; intros w Hf l w'.
  { simpl. by intros [= <- <-]. }
  apply Forall_cons in Hf as [[f Hf] Hfs]. simpl. rewrite filter_cons.
  unfold Mounted. destruct (decide (source ev ∈ mountedNodes (ui w))) as [Hm|Hm].
  - rewrite (bool_decide_eq_true_2 _ Hm), Hf.
    destruct (callFunc env f (source ev) w) as [w1| | |p] eqn:Hc; simpl;
      try done.
    destruct (deferLoop env evs w1) as [l1 r1] eqn:Hl. intros [= <- ->].
    destruct (IH w1 Hfs l1 w' Hl) as [-> Hui].
    rewrite (Hstable _ _ _ _ Hc) in *. done.
  - rewrite (bool_decide_eq_false_2 _ Hm). by apply IH.
Qed.

Lemma execDeferableEvents_clears w l w' :
  execDeferableEvents env w = (l, Done w') → defers (eng w') = [].
Proof.
  unfold execDeferableEvents.
  destruct (deferLoop env (defers (eng w)) w) as [l1 [a| | |p]]; simpl;
    try done.
  by intros [= _ <-].
Qed.

Lemma execDeferableEvents_log w :
  ∃ ran, ran `sublist_of` defers (eng w)
         ∧ (execDeferableEvents env w).1 = CalledDeferred <$> ran.
Proof.
  unfold execDeferableEvents.
  destruct (deferLoop_log (defers (eng w)) w) as (ran & Hsub & E).
  exists ran. split; [done|].
  destruct (deferLoop env _ _) as [l [a| | |p]]; simpl in *; subst l;
    by rewrite ?app_nil_r.
Qed.

(** A deferrable event that is received is parked, and nothing is
    called. *)
Lemma handleEvent_parks ev w :
  deferable ev = true →
  handleEvent env ev w = ([], Done (withDefers (defers (eng w) ++ [ev]) w)).
Proof. unfold handleEvent. by intros ->. Qed.

Lemma execEvent_log ev w :
  (execEvent env ev w).1 = [] ∨ (execEvent env ev w).1 = [Called ev].
Proof.
  unfold execEvent. destruct (Mounted _ _); [|by left].
  destruct (function ev); [by right|by left].
Qed.

Lemma handleEvent_log ev w : deferredCalls (handleEvent env ev w).1 = [].
Proof.
  unfold handleEvent. destruct (deferable ev); [done|].
  destruct (execEvent_log ev w) as [E|E];
    destruct (execEvent env ev w) as [l [a| | |p]]; simpl in *; subst l;
    try done; by destruct (scheduleComponentUpdate (source ev) a).
Qed.

Lemma updateComponents_flushed w l w' :
  updateComponents env sortUpdateDescriptors w = (l, Done w') →
  deferredCalls l = [] ∧ Flushed ∈ l.
Proof.
  unfold updateComponents. destruct (decide _) as [_|_].
  { intros [= <- _]. split; [done|by left]. }
  destruct (updateLoop_log env (sortUpdateDescriptors (updateQueue (eng w)))
              (withUpdateQueue (sortUpdateDescriptors (updateQueue (eng w))) w))
    as (done & _ & E).
  destruct (updateLoop env _ _) as [l1 [a| | |p]]; simpl in *; try done.
  intros [= <- _]. subst l1. split.
  - rewrite deferredCalls_app. simpl. rewrite app_nil_r.
    clear. by induction done.
  - apply elem_of_app. right. by left.
Qed.

Lemma updateComponents_quiet w :
  deferredCalls (updateComponents env sortUpdateDescriptors w).1 = [].
Proof.
  unfold updateComponents. destruct (decide _) as [_|_]; [done|].
  destruct (updateLoop_log env (sortUpdateDescriptors (updateQueue (eng w)))
              (withUpdateQueue (sortUpdateDescriptors (updateQueue (eng w))) w))
    as (done & _ & E).
  destruct (updateLoop env _ _) as [l1 [a| | |p]]; simpl in *; subst l1;
    rewrite ?deferredCalls_app; simpl; rewrite ?app_nil_r;
    clear; by induction done.
Qed.

(** When updateComponents returns, its log ends with the end of the
    flush. *)
Lemma updateComponents_ends w l w' b :
  updateComponents env sortUpdateDescriptors w = (l, Done w') →
  draining b l = true.
Proof.
  unfold updateComponents. destruct (decide _) as [_|_].
  { by intros [= <- _]. }
  destruct (updateLoop env _ _) as [l1 [a| | |p]]; simpl; try done.
  intros [= <- _]. apply draining_flushed.
Qed.

(** A flush drains the deferred buffer only after updateComponents has
    returned. *)
Lemma flushAll_order b w :
  drainsFollowFlush b (flushAll env sortUpdateDescriptors w).1.
Proof.
  unfold flushAll. apply drainsFollowFlush_rbind.
  { apply drainsFollowFlush_quiet, updateComponents_quiet. }
  intros a Ha.
  destruct (updateComponents env sortUpdateDescriptors w) as [l r] eqn:E.
  simpl in *. subst r. rewrite (updateComponents_ends _ _ _ b E).
  destruct (execDeferableEvents_log a) as (ran & _ & ->).
  apply drainsFollowFlush_drain.
Qed.

Lemma handleEvent_order b ev w :
  drainsFollowFlush b (handleEvent env ev w).1.
Proof. apply drainsFollowFlush_quiet, handleEvent_log. Qed.

(** In Consume, ConsumeNext and start a deferred function is only called
    by the drain that follows a flush. *)
Lemma Consume_order b fuel w :
  drainsFollowFlush b (Consume env sortUpdateDescriptors fuel w).1.
Proof.
  revert b w. induction fuel as [|fuel IH]; intros b w; simpl.
  - destruct (events (eng w)); [apply flushAll_order|done].
  - destruct (events (eng w)) as [|ev rest]; [apply flushAll_order|].
    apply drainsFollowFlush_rbind; [apply handleEvent_order|].
    intros a _. apply IH.
Qed.

Lemma ConsumeNext_order b w :
  drainsFollowFlush b (ConsumeNext env sortUpdateDescriptors w).1.
Proof.
  unfold ConsumeNext. destruct (events (eng w)) as [|ev rest]; [done|].
  apply drainsFollowFlush_rbind; [apply handleEvent_order|].
  intros a _. apply flushAll_order.
Qed.

Lemma start_order b cases w :
  drainsFollowFlush b (start env sortUpdateDescriptors cases w).1.
Proof.
  revert b w. induction cases as [|case cases IH]; intros b w; [done|].
  destruct case; cbn -[drainsFollowFlush rbind flushAll lift].
  - done.
  - destruct (events (eng w)) as [|ev rest]; [apply IH|].
    apply drainsFollowFlush_rbind; [apply handleEvent_order|].
    intros a _. apply IH.
  - apply drainsFollowFlush_rbind; [apply flushAll_order|].
    intros a _. apply IH.
  - apply drainsFollowFlush_rbind; [done|]. intros a _. apply IH.
Qed.
End Deferring.

(** ** 6.9 Mount and panics *)

Lemma diagnostics_carried {X} (w : World X) msg err :
  carriesDiagnostics (PanicTagged msg (diagnostics w) err).
Proof.
  exists msg, (diagnostics w), err. split; [done|]. intros k Hk. simpl.
  set_solver.
Qed.

Lemma PanicError_bare err : ¬ carriesDiagnostics (PanicError err).
Proof. by intros (msg & tags & cause & ? & _). Qed.

Section Mounting.
Context {X : Type} (env : Environment X) (sortUpdateDescriptors : Sorter).
Implicit Types (w : World X) (n c : node) (ev : event).

Lemma replaceBodyChild_fails n body w w' err :
  Body (eng w) = Some body →
  replaceChildAt env body 0 n w = Done (w', Some err) →
  replaceBodyChild env n w = mountFailed w' err.
Proof. unfold replaceBodyChild. by intros -> ->. Qed.

Lemma mountBody_first_fails n body w w' err :
  isMountedOnce (eng w) = false →
  Body (eng w) = Some body →
  replaceChildAt env body 0 n w = Done (w', Some err) →
  mountBody env n w = mountFailed w' err.
Proof.
  intros Hm Hb Hr. unfold mountBody. rewrite Hm. simpl.
  by rewrite (replaceBodyChild_fails _ _ _ _ _ Hb Hr).
Qed.

Lemma mountBody_update_fails n body w w' err :
  isMountedOnce (eng w) = true →
  Body (eng w) = Some body →
  updateFirstChild env body n w = Done (w', Some err) →
  isErrReplace env err = false →
  mountBody env n w = mountFailed w' err.
Proof.
  intros Hm Hb Hu He. unfold mountBody. rewrite Hm, Hb, Hu. simpl.
  by rewrite He.
Qed.

Lemma mountBody_replace_fails n body w w' err body' w'' err' :
  isMountedOnce (eng w) = true →
  Body (eng w) = Some body →
  updateFirstChild env body n w = Done (w', Some err) →
  isErrReplace env err = true →
  Body (eng w') = Some body' →
  replaceChildAt env body' 0 n w' = Done (w'', Some err') →
  mountBody env n w = mountFailed w'' err'.
Proof.
  intros Hm Hb Hu He Hb' Hr. unfold mountBody. rewrite Hm, Hb, Hu. simpl.
  rewrite He. simpl. by rewrite (replaceBodyChild_fails _ _ _ _ _ Hb' Hr).
Qed.

(** The flush outside its early return. *)
Lemma updateComponents_pending w :
  updates (eng w) ≠ ∅ →
  updateComponents env sortUpdateDescriptors w
  = let+ w' := updateLoop env (sortUpdateDescriptors (updateQueue (eng w)))
                 (withUpdateQueue
                    (sortUpdateDescriptors (updateQueue (eng w))) w) in
    ([Flushed], Done (withUpdateQueue [] w')).
Proof.
  intros Hne. unfold updateComponents. rewrite decide_False; [done|].
  intros H. apply Hne. by apply leibniz_equiv, size_empty_inv.
Qed.

(** A flush that goes through its loop and returns leaves the batch list
    empty, whatever was appended to it meanwhile and whatever is still
    pending. *)
Lemma updateComponents_clears w l w' :
  updates (eng w) ≠ ∅ →
  updateComponents env sortUpdateDescriptors w = (l, Done w') →
  updateQueue (eng w') = [].
Proof.
  intros Hne. rewrite updateComponents_pending by done.
  destruct (updateLoop env _ _) as [l1 [a| | |p]]; simpl; try done.
  by intros [= _ <-].
Qed.

(** The loop passes over the entry of a Composer that is not mounted and
    leaves it in the pending set. *)
Lemma updateLoop_skips ud q w :
  Mounted (ui w) (compo ud) = false →
  updateLoop env (ud :: q) w = updateLoop env q w.
Proof. simpl. by intros ->. Qed.

(** An error of a re-render ends the flush with a panic that carries
    that error and nothing else. *)
Lemma updateComponents_error pre ud post w l1 w1 w' err :
  updates (eng w) ≠ ∅ →
  sortUpdateDescriptors (updateQueue (eng w)) = pre ++ ud :: post →
  updateLoop env pre
    (withUpdateQueue (sortUpdateDescriptors (updateQueue (eng w))) w)
  = (l1, Done w1) →
  Mounted (ui w1) (compo ud) = true →
  compo ud ∈ updates (eng w1) →
  updateRoot env (compo ud) w1 = Done (w', Some err) →
  updateComponents env sortUpdateDescriptors w
  = (l1 ++ [Rendered (compo ud)], Panicked (PanicError err)).
Proof.
  intros Hne Hq Hpre Hm Hp Hr. rewrite updateComponents_pending by done.
  rewrite Hq at 1. rewrite updateLoop_app, Hpre. simpl.
  by rewrite Hm, (bool_decide_eq_true_2 _ Hp), Hr.
Qed.

(** A Composer that is mounted and pending when the loop reaches its
    entry is re-rendered in that flush. *)
Lemma updateComponents_reached pre ud post w l1 w1 :
  updates (eng w) ≠ ∅ →
  sortUpdateDescriptors (updateQueue (eng w)) = pre ++ ud :: post →
  updateLoop env pre
    (withUpdateQueue (sortUpdateDescriptors (updateQueue (eng w))) w)
  = (l1, Done w1) →
  Mounted (ui w1) (compo ud) = true →
  compo ud ∈ updates (eng w1) →
  1 ≤ occurrences (compo ud)
        (renders (updateComponents env sortUpdateDescriptors w).1).
Proof.
  intros Hne Hq Hpre Hm Hp. rewrite updateComponents_pending by done.
  destruct (updateLoop_reached env pre ud post _ l1 w1 Hpre Hm Hp) as [l2 E].
  rewrite Hq at 1.
  destruct (updateLoop env (pre ++ ud :: post) _) as [l r]. simpl in E.
  subst l.
  assert (1 ≤ occurrences (compo ud)
                (renders (l1 ++ Rendered (compo ud) :: l2))) as Hone.
  { rewrite renders_app, occurrences_app. simpl.
    rewrite occurrences_cons, decide_True by done. lia. }
  destruct r as [a| | |p]; simpl; [|done..].
  rewrite renders_app, occurrences_app. lia.
Qed.
End Mounting.

Section BusEvents.
Context {X : Type}.
Implicit Types (w : World X).

(** Post only adds events, and only for subscribers that are mounted. *)
Lemma postLoop_events order v handlers w handlers' w' :
  postLoop order v handlers w = Done (handlers', w') →
  ui w' = ui w
  ∧ ∃ new, events (eng w') = events (eng w) ++ new
           ∧ Forall (λ ev, Mounted (ui w) (source ev) = true) new.
Proof.
  revert handlers w. induction order as [|[k h] order IH]; intros handlers w.
  { simpl. intros [= <- <-]. split; [done|]. exists []. by rewrite app_nil_r. }
  simpl. destruct (src h) as [s|]; [|done].
  destruct (Dispatch (Some s) (Some (FnPost (hfunction h) v)) w)
    as [w1| | |p] eqn:Hd; simpl; try done.
  intros Hloop. destruct (IH _ _ Hloop) as (Hui & new & Hev & Hnew).
  pose proof (enqueue_ui _ _ _ _ _ Hd) as Hui1. split; [congruence|].
  destruct (enqueue_events _ _ _ _ _ Hd) as [E|(n & Hn & E)].
  - exists new. rewrite Hev, E. split; [done|]. by rewrite <- Hui1.
  - exists (Event n false (Some (FnPost (hfunction h) v)) :: new).
    rewrite Hev, E, <- app_assoc. split; [done|].
    constructor; [done|]. by rewrite <- Hui1.
Qed.

Lemma Post_events order msg v w w' :
  Post order msg v w = Done w' →
  ∃ new, events (eng w') = events (eng w) ++ new
         ∧ Forall (λ ev, Mounted (ui w) (source ev) = true) new.
Proof.
  unfold Post. destruct (handlersOf msg w) as [handlers|].
  - destruct (postLoop order v handlers w) as [[hs w1]| | |p] eqn:E; simpl;
      try done.
    intros [= <-]. simpl. by destruct (postLoop_events _ _ _ _ _ _ E).
  - intros [= <-]. exists []. by rewrite app_nil_r.
Qed.
End BusEvents.

(** ** 6.10 A flush of quiet re-renders *)

Section Quiet.
Context {X : Type} (env : Environment X) (sortUpdateDescriptors : Sorter).
Implicit Types (w : World X) (q : list updateDescriptor).

Lemma updateLoop_quiet q w :
  rendersQuietly env →
  NoDup (compo <$> q) →
  Forall (λ ud, Mounted (ui w) (compo ud) = true
                ∧ compo ud ∈ updates (eng w)) q →
  ∃ w', updateLoop env q w = ((Rendered ∘ compo) <$> q, Done w')
        ∧ ui w' = ui w
        ∧ updates (eng w') = updates (eng w) ∖ list_to_set (compo <$> q).
Proof.
  intros Hquiet. revert w. induction q as [|ud q IH]; intros w Hnd Hall.
  { exists w. simpl. split_and!; [done..|]. set_solver. }
  apply Forall_cons in Hall as [[Hm Hp] Hall].
  rewrite fmap_cons in Hnd. apply NoDup_cons in Hnd as [Hnotin Hnd].
  destruct (Hquiet (compo ud) w) as (w1 & Hr & Hui & Hupd).
  destruct (IH (componentUpdated (compo ud) w1) Hnd) as (w' & Hloop & Hui' & Hupd').
  { rewrite Forall_forall in Hall |- *. intros ud' Hin.
    destruct (Hall ud' Hin) as [Hm' Hp']. simpl. rewrite Hui, Hupd.
    split; [done|]. apply elem_of_difference. split; [done|].
    rewrite elem_of_singleton. intros E. apply Hnotin. rewrite <- E.
    by apply list_elem_of_fmap_2. }
  exists w'. simpl. rewrite Hm, (bool_decide_eq_true_2 _ Hp), Hr. simpl.
  rewrite Hloop. split; [done|]. split; [by rewrite Hui'|].
  rewrite Hupd'. simpl. rewrite Hupd. set_solver.
Qed.
End Quiet.

(** A decidable fact about concrete data, settled by evaluation. *)
Ltac by_evaluation :=
  match goal with
  | |- ?P => apply (bool_decide_unpack P); vm_compute; exact I
  end.

(* ===================================================================== *)
(** * 7. The properties of the specification *)
(* ===================================================================== *)

(** C1, amended.  Dedup: when a Composer [c] is neither pending nor named
    in the batch list, [N ≥ 1] calls of scheduleComponentUpdate on mounted
    nodes whose nearest enclosing Composer is [c] leave [c] in the pending
    set and add exactly one batch entry for it.  A flush of a batch list
    with one entry for [c] calls the re-render of [c] at most once, and
    exactly once when the pending set is not empty at the start of the
    flush and [c] is still mounted and pending when the loop reaches its
    entry. *)
Theorem dedup_one_entry_one_render {X} (env : Environment X)
    (sorter : Sorter) (w : World X) (ns : list N) (c : N) (above : list N) :
  ns ≠ [] →
  Forall (λ n, Mounted (ui w) n = true ∧ enclosedBy (ui w) n c above) ns →
  c ∉ updates (eng w) →
  c ∉ compo <$> updateQueue (eng w) →
  ∃ w1,
    scheduleAll ns w = Done w1
    ∧ c ∈ updates (eng w1)
    ∧ occurrences c (compo <$> updateQueue (eng w1)) = 1
    ∧ ∀ w2 : World X,
        occurrences c (compo <$> updateQueue (eng w2)) = 1 →
        occurrences c (renders (updateComponents env sorter w2).1) ≤ 1
        ∧ ∀ pre ud post l1 w3,
            updates (eng w2) ≠ ∅ →
            sorter (updateQueue (eng w2)) = pre ++ ud :: post →
            compo ud = c →
            updateLoop env pre
              (withUpdateQueue (sorter (updateQueue (eng w2))) w2)
            = (l1, Done w3) →
            Mounted (ui w3) c = true →
            c ∈ updates (eng w3) →
            occurrences c (renders (updateComponents env sorter w2).1) = 1.
Proof.
  intros Hne Hns Hc Hq. exists (scheduled c (length above + 1) w).
  split; [by apply scheduleAll_enclosing|]. split; [simpl; set_solver|].
  split.
  { simpl. rewrite fmap_app, occurrences_app, occurrences_absent by done.
    simpl. by rewrite occurrences_cons, decide_True. }
  intros w2 Hone.
  assert (occurrences c (renders (updateComponents env sorter w2).1) ≤ 1)
    as Hmost.
  { rewrite <- Hone. apply updateComponents_at_most. }
  split; [done|]. intros pre ud post l1 w3 Hpending Hsorted <- Hpre Hm Hp.
  pose proof (updateComponents_reached env sorter pre ud post w2 l1 w3
                Hpending Hsorted Hpre Hm Hp).
  lia.
Qed.

Lemma dedup_one_entry_one_render_witness :
  ∃ w1,
    scheduleAll [3; 3]%N chainWorld = Done w1
    ∧ 3%N ∈ updates (eng w1)
    ∧ occurrences 3%N (compo <$> updateQueue (eng w1)) = 1
    ∧ occurrences 3%N (renders (updateComponents quietEnv mergeSorter w1).1) = 1.
Proof.
  destruct (dedup_one_entry_one_render quietEnv mergeSorter chainWorld
              [3; 3]%N 3%N [2; 1]%N) as (w1 & H1 & H2 & H3 & H4).
  - discriminate.
  - assert (Mounted (ui chainWorld) 3%N = true
            ∧ enclosedBy (ui chainWorld) 3%N 3%N [2; 1]%N) as Hthree.
    { split; [vm_compute; reflexivity|]. exists [].
      split; [vm_compute; reflexivity|]. split; [constructor|].
      by_evaluation. }
    apply Forall_cons. split; [exact Hthree|].
    apply Forall_cons. split; [exact Hthree|]. constructor.
  - simpl. apply not_elem_of_empty.
  - simpl. apply not_elem_of_nil.
  - exists w1. split; [exact H1|]. split; [exact H2|]. split; [exact H3|].
    destruct (H4 w1 H3) as [_ H5].
    vm_compute in H1. injection H1 as <-.
    eapply (H5 [] (UpdateDescriptor 3%N 3) [] []).
    + intros H. apply (f_equal (λ s : gset N, bool_decide (3%N ∈ s))) in H.
      vm_compute in H. discriminate.
    + vm_compute. reflexivity.
    + reflexivity.
    + vm_compute. reflexivity.
    + vm_compute. reflexivity.
    + by_evaluation.
Defined.

(** C1 as the specification states it fails: Composer [2] is scheduled
    twice, its parent [1] once; the re-render of [1] dismounts [2], and the
    flush then skips [2]: it is re-rendered zero times, not once. *)
Lemma dedup_exactly_once_fails :
  ∃ w1,
    scheduleAll [2; 2; 1]%N chainWorld = Done w1
    ∧ Mounted (ui chainWorld) 2%N = true
    ∧ enclosedBy (ui chainWorld) 2%N 2%N [1%N]
    ∧ 2%N ∈ updates (eng w1)
    ∧ renders (updateComponents dismountingEnv mergeSorter w1).1 = [1%N]
    ∧ occurrences 2%N (renders (updateComponents dismountingEnv mergeSorter w1).1)
      ≠ 1.
Proof.
  eexists. split; [vm_compute; reflexivity|]. split; [vm_compute; reflexivity|].
  split.
  { exists []. split; [vm_compute; reflexivity|]. split; [constructor|].
    by_evaluation. }
  split; [by_evaluation|].
  split; [vm_compute; reflexivity|]. vm_compute. discriminate.
Qed.

(** C2.  scheduleComponentUpdate gives a newly scheduled Composer the
    number of parent-chain hops from it to the root, plus one, as its
    priority; a flush re-renders batch entries in ascending priority; and
    for a root Composer [a], its child [b] and [b]'s child [c], scheduled
    in the order [c], [a], [b], the flush re-renders [a], then [b], then
    [c]. *)
Theorem priority_is_depth_and_flush_ascends {X} (env : Environment X)
    (sorter : Sorter) :
  (∀ (w : World X) (n c : N) (above : list N),
     Mounted (ui w) n = true →
     enclosedBy (ui w) n c above →
     c ∉ updates (eng w) →
     hopsToRoot (ui w) c = Some (length above)
     ∧ scheduleComponentUpdate n w = Done (scheduled c (length above + 1) w))
  ∧ (∀ w : World X, ∃ done,
       done `sublist_of` sorter (updateQueue (eng w))
       ∧ StronglySorted priority_le done
       ∧ renders (updateComponents env sorter w).1 = compo <$> done)
  ∧ (∀ (w : World X) (a b c : N),
       ancestry (ui w) c = Some [c; b; a] →
       {[a; b; c]} ⊆ composerNodes (ui w) →
       {[a; b; c]} ⊆ mountedNodes (ui w) →
       updates (eng w) = ∅ →
       updateQueue (eng w) = [] →
       ∃ w1,
         scheduleAll [c; a; b] w = Done w1
         ∧ updateQueue (eng w1)
           = [UpdateDescriptor c 3; UpdateDescriptor a 1; UpdateDescriptor b 2]
         ∧ sorter (updateQueue (eng w1))
           = [UpdateDescriptor a 1; UpdateDescriptor b 2; UpdateDescriptor c 3]
         ∧ renders (updateComponents env sorter w1).1 `sublist_of` [a; b; c]
         ∧ (rendersQuietly env →
            (updateComponents env sorter w1).1
            = [Rendered a; Rendered b; Rendered c; Flushed])).
Proof.
  split; [|split].
  - intros w n c above Hm He Hc. split; [by eapply enclosedBy_hops|].
    rewrite (schedule_enclosing _ _ _ _ Hm He).
    by rewrite (bool_decide_eq_false_2 _ Hc).
  - intros w. destruct (updateComponents_log env sorter w) as (done & Hsub & E).
    exists done. split; [done|]. split; [|done].
    eapply StronglySorted_sublist; [done|]. apply sortSlice_sorted.
  - intros w a b c Hpath Hcompo Hmounted Hupd Hq.
    unfold ancestry in Hpath.
    pose proof (climb_suffix _ _ _ [c] b [a] Hpath) as Hb.
    pose proof (climb_suffix _ _ _ [c; b] a [] Hpath) as Ha.
    destruct (climb_step _ _ _ _ _ Hpath) as (fuel1 & _ & Hpc & _).
    destruct (climb_step _ _ _ _ _ Hb) as (fuel2 & _ & Hpb & _).
    pose proof (climb_root _ _ _ Ha) as Hpa.
    assert (a ≠ b) as Hab by (intros ->; congruence).
    assert (a ≠ c) as Hac by (intros ->; congruence).
    assert (b ≠ c) as Hbc by (intros ->; congruence).
    assert (∀ x, x ∈ [a; b; c] → Mounted (ui w) x = true) as Hmx.
    { intros x Hx. apply bool_decide_eq_true_2. set_solver. }
    assert (enclosedBy (ui w) c c [b; a]) as Hec.
    { exists []. split_and!; [done|constructor|set_solver]. }
    assert (enclosedBy (ui w) a a []) as Hea.
    { exists []. split_and!; [done|constructor|set_solver]. }
    assert (enclosedBy (ui w) b b [a]) as Heb.
    { exists []. split_and!; [done|constructor|set_solver]. }
    set (wb := scheduled b 2 (scheduled a 1 (scheduled c 3 w))).
    assert (scheduleAll [c; a; b] w = Done wb) as Hall.
    { rewrite (scheduleAll_cons_new w c c [b; a]);
        [|apply Hmx; set_solver|done|rewrite Hupd; set_solver].
      rewrite (scheduleAll_cons_new _ a a []);
        [|apply Hmx; set_solver|done|simpl; rewrite Hupd; set_solver].
      rewrite (scheduleAll_cons_new _ b b [a]);
        [|apply Hmx; set_solver|done|simpl; rewrite Hupd; set_solver].
      done. }
    assert (updateQueue (eng wb)
            = [UpdateDescriptor c 3; UpdateDescriptor a 1; UpdateDescriptor b 2])
      as Hqb by (simpl; by rewrite Hq).
    assert (sorter (updateQueue (eng wb))
            = [UpdateDescriptor a 1; UpdateDescriptor b 2; UpdateDescriptor c 3])
      as Hsorted.
    { apply (StronglySorted_unique_strong priority_le).
      - intros x1 x2 Hx1 Hx2. rewrite (sortSlice_perm sorter), Hqb in Hx1.
        unfold priority_le.
        repeat (apply elem_of_cons in Hx1 as [->|Hx1]);
          [| | |by apply elem_of_nil in Hx1];
          repeat (apply elem_of_cons in Hx2 as [->|Hx2]);
          try (by apply elem_of_nil in Hx2); simpl; (done || lia).
      - apply sortSlice_sorted.
      - repeat constructor; unfold priority_le; simpl; lia.
      - rewrite (sortSlice_perm sorter), Hqb.
        rewrite (Permutation_swap (UpdateDescriptor a 1)).
        apply Permutation_skip, Permutation_swap. }
    exists wb. split; [done|]. split; [done|]. split; [done|]. split.
    + destruct (updateComponents_log env sorter wb) as (done & Hsub & ->).
      rewrite Hsorted in Hsub.
      by apply (fmap_sublist compo) in Hsub.
    + intros Hquiet.
      assert (updates (eng wb) ≠ ∅) as Hne by (simpl; set_solver).
      rewrite (updateComponents_pending env sorter wb Hne), Hsorted.
      destruct (updateLoop_quiet env
                  [UpdateDescriptor a 1; UpdateDescriptor b 2; UpdateDescriptor c 3]
                  (withUpdateQueue
                     [UpdateDescriptor a 1; UpdateDescriptor b 2;
                      UpdateDescriptor c 3] wb) Hquiet)
        as (w' & -> & _).
      * simpl. repeat constructor; set_solver.
      * rewrite Forall_forall. intros ud Hud. simpl.
        split; [apply Hmx|]; set_solver.
      * done.
Qed.

Lemma priority_is_depth_and_flush_ascends_witness :
  ∃ w1,
    scheduleAll [3; 1; 2]%N chainWorld = Done w1
    ∧ updateQueue (eng w1)
      = [UpdateDescriptor 3 3; UpdateDescriptor 1 1; UpdateDescriptor 2 2]
    ∧ (updateComponents quietEnv mergeSorter w1).1
      = [Rendered 1; Rendered 2; Rendered 3; Flushed].
Proof.
  destruct (priority_is_depth_and_flush_ascends quietEnv mergeSorter)
    as (_ & _ & H).
  destruct (H chainWorld 1%N 2%N 3%N) as (w1 & H1 & H2 & _ & _ & H3).
  - vm_compute. reflexivity.
  - by_evaluation.
  - by_evaluation.
  - reflexivity.
  - reflexivity.
  - exists w1. split; [exact H1|]. split; [exact H2|]. apply H3.
    intros c w. exists w. repeat split.
Defined.

(** C3.  The specification wants every Composer of the pending set to
    have an entry in the batch list between flushes, so that the next
    flush re-renders it.  updateComponents breaks this in two ways.
    First: the re-render of Composer [1] schedules Composer [2]; the flush
    drops the new batch entry when it clears the list, and [2] stays in
    the pending set.  Second: Composer [2] is dismounted while it is
    pending; the flush skips its entry without removing it from the
    pending set.  In both cases the next flush re-renders nothing, and
    scheduling [2] again returns at once because it is still pending. *)
Theorem flush_strands_pending_composer :
  (∃ w1 w2,
     scheduleAll [1%N] chainWorld = Done w1
     ∧ updateComponents nestedEnv mergeSorter w1
       = ([Rendered 1; Flushed], Done w2)
     ∧ 2%N ∈ updates (eng w2)
     ∧ Mounted (ui w2) 2%N = true
     ∧ updateQueue (eng w2) = []
     ∧ updateComponents nestedEnv mergeSorter w2 = ([Flushed], Done w2)
     ∧ scheduleComponentUpdate 2%N w2 = Done w2)
  ∧ (∃ w1 w2 w3,
       scheduleAll [2; 1]%N chainWorld = Done w1
       ∧ updateComponents dismountingEnv mergeSorter w1
         = ([Rendered 1; Flushed], Done w2)
       ∧ 2%N ∈ updates (eng w2)
       ∧ updateQueue (eng w2) = []
       ∧ w3 = withTree (remount 2%N (ui w2)) w2
       ∧ Mounted (ui w3) 2%N = true
       ∧ updateComponents quietEnv mergeSorter w3 = ([Flushed], Done w3)
       ∧ scheduleComponentUpdate 2%N w3 = Done w3).
Proof.
  split.
  - eexists. eexists. split; [vm_compute; reflexivity|].
    split; [vm_compute; reflexivity|]. split; [by_evaluation|].
    repeat split; vm_compute; reflexivity.
  - eexists. eexists. eexists. split; [vm_compute; reflexivity|].
    split; [vm_compute; reflexivity|]. split; [by_evaluation|].
    split; [reflexivity|]. split; [reflexivity|].
    repeat split; vm_compute; reflexivity.
Qed.

(** C4.  A deferred event is only run by the drain that follows a flush
    (see [Consume_order], [start_order], [deferLoop_log],
    [execDeferableEvents_clears]),
    but execDeferableEvents calls [ev.function] without the nil check that
    execEvent makes.  After [Defer(nil, nil)] and [Defer(nil, f)] the drain
    panics on the first event: [f] is never called and the buffer is not
    cleared.  The same two calls of Dispatch are handled without a
    panic. *)
Theorem deferred_nil_function_panics :
  ∃ w1 w2,
    Defer None None chainWorld = Done w1
    ∧ Defer None (Some (FnUser 7)) w1 = Done w2
    ∧ events (eng w2) = [Event 1 true None; Event 1 true (Some (FnUser 7))]
    ∧ Consume quietEnv mergeSorter 2 w2 = ([Flushed], Panicked NilDereference)
    ∧ ∃ v1 v2 v3,
        Dispatch None None chainWorld = Done v1
        ∧ Dispatch None (Some (FnUser 7)) v1 = Done v2
        ∧ Consume quietEnv mergeSorter 2 v2
          = ([Called (Event 1 false (Some (FnUser 7))); Rendered 1; Flushed],
             Done v3).
Proof.
  eexists. eexists. split; [vm_compute; reflexivity|].
  split; [vm_compute; reflexivity|]. split; [reflexivity|].
  split; [vm_compute; reflexivity|].
  eexists. eexists. eexists. split; [vm_compute; reflexivity|].
  split; vm_compute; reflexivity.
Qed.

(** C5.  Unmount skip: for a node [n] that is not mounted, Dispatch and
    Defer return at once and enqueue nothing; an event whose source is [n]
    when it is about to run is skipped without an error, by execEvent, by
    the loops that receive it, and by the drain of the deferred buffer;
    Post deletes an entry whose subscriber is [n] and sends no event for
    it, so that no event Post adds to the queue has [n] as its source. *)
Theorem unmounted_never_invoked {X} (env : Environment X) (w : World X)
    (n : N) :
  Mounted (ui w) n = false →
  (∀ fn, Dispatch (Some n) fn w = Done w ∧ Defer (Some n) fn w = Done w)
  ∧ (∀ ev, source ev = n → execEvent env ev w = ([], Done w))
  ∧ (∀ ev, source ev = n → deferable ev = false →
       handleEvent env ev w = ([], Done w))
  ∧ (∀ ev rest, source ev = n →
       deferLoop env (ev :: rest) w = deferLoop env rest w)
  ∧ (∀ k h order v handlers, src h = Some n →
       postLoop ((k, h) :: order) v handlers w
       = postLoop order v (delete k handlers) w)
  ∧ (∀ order msg v w', Post order msg v w = Done w' →
       ∀ ev, ev ∈ events (eng w') → source ev = n → ev ∈ events (eng w)).
Proof.
  intros Hn. split_and!.
  - intros fn. split; by apply enqueue_unmounted.
  - intros ev <-. unfold execEvent. by rewrite Hn.
  - intros ev <- Hd. unfold handleEvent, execEvent. rewrite Hd, Hn. simpl.
    by rewrite schedule_unmounted.
  - intros ev rest <-. by apply deferLoop_skip.
  - intros k h order v handlers Hs. simpl. rewrite Hs. unfold Dispatch.
    rewrite enqueue_unmounted by done. by rewrite Hn.
  - intros order msg v w' HP ev Hev Hsrc.
    destruct (Post_events _ _ _ _ _ HP) as (new & E & Hnew).
    rewrite E in Hev. apply elem_of_app in Hev as [Hev|Hev]; [done|].
    rewrite Forall_forall in Hnew. specialize (Hnew ev Hev). congruence.
Qed.

Lemma unmounted_never_invoked_witness :
  Mounted (ui busWorld) 9%N = false
  ∧ Dispatch (Some 9%N) (Some (FnUser 7)) busWorld = Done busWorld
  ∧ Defer (Some 9%N) (Some (FnUser 7)) busWorld = Done busWorld
  ∧ execEvent quietEnv (Event 9 false (Some (FnUser 7))) busWorld
    = ([], Done busWorld)
  ∧ deferLoop quietEnv [Event 9 true (Some (FnUser 7))] busWorld
    = ([], Done busWorld).
Proof.
  assert (Mounted (ui busWorld) 9%N = false) as Hn by (vm_compute; reflexivity).
  destruct (unmounted_never_invoked quietEnv busWorld 9%N Hn)
    as (H1 & H2 & _ & H4 & _).
  split; [exact Hn|]. split; [apply H1|]. split; [apply H1|].
  split; [by apply H2|]. by rewrite H4.
Defined.

(** C10.  With a nil source Dispatch and Defer take the Body as the
    source: when the Body is mounted the call sends an event whose source
    is the Body.  With room in the queue the event is added to it; with a
    full queue the call waits.  In neither case does it panic or return
    without sending. *)
Theorem nil_source_is_body {X} (w : World X) (body : N) (fn : option func) :
  Body (eng w) = Some body →
  Mounted (ui w) body = true →
  Dispatch None fn w = Dispatch (Some body) fn w
  ∧ Defer None fn w = Defer (Some body) fn w
  ∧ (length (events (eng w)) < eventBufferSize →
     Dispatch None fn w
     = Done (withEvents (events (eng w) ++ [Event body false fn]) w)
     ∧ Defer None fn w
       = Done (withEvents (events (eng w) ++ [Event body true fn]) w))
  ∧ (eventBufferSize ≤ length (events (eng w)) →
     Dispatch None fn w = Blocked ∧ Defer None fn w = Blocked).
Proof.
  intros Hb Hm. unfold Dispatch, Defer. rewrite !enqueue_nil, Hb.
  split; [done|]. split; [done|]. split.
  - intros Hroom. by rewrite !enqueue_mounted.
  - intros Hfull. unfold enqueue. rewrite Hm. by rewrite !send_full.
Qed.

Lemma nil_source_is_body_witness :
  Dispatch None (Some (FnUser 7)) chainWorld
  = Done (withEvents [Event 1 false (Some (FnUser 7))] chainWorld)
  ∧ Defer None (Some (FnUser 7)) chainWorld
    = Done (withEvents [Event 1 true (Some (FnUser 7))] chainWorld).
Proof.
  destruct (nil_source_is_body chainWorld 1%N (Some (FnUser 7)))
    as (_ & _ & H & _).
  - reflexivity.
  - vm_compute. reflexivity.
  - apply H. vm_compute. lia.
Defined.

(** Post on a topic none of whose subscribers is nil.  Post returns at
    once when the topic has no handlers.  Otherwise, whatever the order in
    which the entries are visited: every entry whose subscriber is not
    mounted is deleted from the registry and no event is sent for it; for
    every entry whose subscriber is mounted one event with that subscriber
    as its source is added to the event queue, and running that event
    calls [handler(ctx, value)].  Post itself calls no handler. *)
Theorem post_prunes_and_schedules {X} (env : Environment X) (w : World X)
    (order : list (string * msgHandler)) (msg : string) (v : N) :
  (handlersOf msg w = None → Post order msg v w = Done w)
  ∧ (handlersOf msg w = Some ∅ → rangeOrder ∅ order →
     Post order msg v w = Done w)
  ∧ (∀ handlers,
       handlersOf msg w = Some handlers →
       rangeOrder handlers order →
       Forall (λ kh, is_Some (src kh.2)) order →
       length (events (eng w)) + length order ≤ eventBufferSize →
       ∃ w',
         Post order msg v w = Done w'
         ∧ handlersOf msg w' = Some (mountedHandlers (ui w) handlers)
         ∧ (∀ k h, handlers !! k = Some h →
              mountedHandlers (ui w) handlers !! k
              = if subscriberMounted (ui w) h then Some h else None)
         ∧ events (eng w') = events (eng w) ++ postEvents (ui w) v order
         ∧ postEvents (ui w) v order
           ≡ₚ postEvents (ui w) v (map_to_list handlers)
         ∧ (∀ ev, ev ∈ postEvents (ui w) v order ↔
              ∃ k h s, handlers !! k = Some h ∧ src h = Some s
                       ∧ Mounted (ui w) s = true
                       ∧ ev = Event s false (Some (FnPost (hfunction h) v)))
         ∧ ui w' = ui w)
  ∧ (∀ (w0 : World X) s h,
       Mounted (ui w0) s = true →
       execEvent env (Event s false (Some (FnPost h v))) w0
       = ([Called (Event s false (Some (FnPost h v)))],
          callHandler env h s v w0)).
Proof.
  split_and!.
  - apply Post_no_topic.
  - intros Hh Horder. unfold rangeOrder in Horder.
    rewrite map_to_list_empty in Horder. apply Permutation_nil_r in Horder.
    subst order. unfold Post. rewrite Hh. simpl. f_equal.
    unfold handlersOf in Hh. unfold withMessages, onEngine.
    rewrite (insert_id _ _ _ Hh). by destruct w as [[] ? ?].
  - intros handlers Hh Horder Hsrc Hroom.
    eexists. split; [by apply Post_done|]. split_and!.
    + unfold handlersOf. simpl. apply lookup_insert_eq.
    + intros k h Hk. unfold mountedHandlers.
      destruct (subscriberMounted (ui w) h) eqn:Hm.
      * by apply map_lookup_filter_Some_2.
      * apply map_lookup_filter_None_2. right. intros h' ?. simplify_eq.
        simpl. by rewrite Hm.
    + done.
    + unfold postEvents. by rewrite Horder.
    + intros ev. rewrite postEvents_spec. unfold rangeOrder in Horder.
      setoid_rewrite Horder. by setoid_rewrite elem_of_map_to_list.
    + done.
  - intros w0 s h Hm. unfold execEvent. simpl. by rewrite Hm.
Qed.

Lemma post_prunes_and_schedules_witness :
  ∃ w',
    Post (map_to_list busHandlers) "x" 5%N busWorld = Done w'
    ∧ handlersOf "x" w'
      = Some {[ msgKey (Some 2%N) handlerA
                := {| src := Some 2%N; hfunction := handlerA |} ]}
    ∧ events (eng w') = [Event 2 false (Some (FnPost handlerA 5))].
Proof.
  destruct (post_prunes_and_schedules quietEnv busWorld
              (map_to_list busHandlers) "x" 5%N) as (_ & _ & H & _).
  destruct (H busHandlers) as (w' & H1 & H2 & _ & H4 & _).
  - vm_compute. reflexivity.
  - unfold rangeOrder. reflexivity.
  - by_evaluation.
  - vm_compute. lia.
  - exists w'. split; [exact H1|]. split.
    + rewrite H2. vm_compute. reflexivity.
    + rewrite H4. vm_compute. reflexivity.
Defined.

(** A nil subscriber in the topic: Post does not return.  Its loop calls
    [src.Mounted()] on the nil subscriber before it reaches the Dispatch
    that would take a nil source as the Body. *)
Lemma postLoop_nil_never_done {X} order v handlers (w : World X) :
  Exists (λ kh : string * msgHandler, src kh.2 = None) order →
  ∀ hw, postLoop order v handlers w ≠ Done hw.
Proof.
  revert handlers w. induction order as [|[k h] order IH];
    intros handlers w Hex hw.
  { by apply Exists_nil in Hex. }
  simpl. destruct (src h) as [s|] eqn:Hs; [|done].
  apply Exists_cons in Hex as [Hex|Hex]; [simpl in Hex; congruence|].
  destruct (Dispatch (Some s) (Some (FnPost (hfunction h) v)) w)
    as [w1| | |p]; simpl; try done.
  by apply IH.
Qed.

Lemma postLoop_nil_panics {X} order v handlers (w : World X) :
  Exists (λ kh : string * msgHandler, src kh.2 = None) order →
  length (events (eng w)) + length order ≤ eventBufferSize →
  postLoop order v handlers w = Panicked NilDereference.
Proof.
  revert handlers w. induction order as [|[k h] order IH];
    intros handlers w Hex Hroom.
  { by apply Exists_nil in Hex. }
  simpl in *. destruct (src h) as [s|] eqn:Hs; [|done].
  apply Exists_cons in Hex as [Hex|Hex]; [simpl in Hex; congruence|].
  unfold Dispatch. destruct (Mounted (ui w) s) eqn:Hm.
  - rewrite enqueue_mounted by (done || lia). simpl.
    apply IH; [done|]. simpl. rewrite length_app. simpl. lia.
  - rewrite enqueue_unmounted by done. simpl. apply IH; [done|lia].
Qed.

(** Whatever the order of the visit, a topic with a nil subscriber makes
    Post panic when the queue has room for its events, and never lets it
    return. *)
Lemma Post_nil_subscriber {X} order msg v handlers (w : World X) k h :
  handlersOf msg w = Some handlers →
  rangeOrder handlers order →
  handlers !! k = Some h →
  src h = None →
  (∀ w', Post order msg v w ≠ Done w')
  ∧ (length (events (eng w)) + length order ≤ eventBufferSize →
     Post order msg v w = Panicked NilDereference).
Proof.
  intros Hh Horder Hk Hs.
  assert (Exists (λ kh : string * msgHandler, src kh.2 = None) order) as Hex.
  { apply Exists_exists. exists (k, h). split; [|done].
    unfold rangeOrder in Horder. rewrite Horder.
    by apply elem_of_map_to_list. }
  unfold Post. rewrite Hh. split.
  - intros w'.
    destruct (postLoop order v handlers w) as [hw| | |p] eqn:E; simpl;
      try done.
    by destruct (postLoop_nil_never_done order v handlers w Hex hw).
  - intros Hroom. by rewrite postLoop_nil_panics.
Qed.

(** C6.  For a topic whose subscribers are not nil Post does what the
    claim says, see [post_prunes_and_schedules].  But Handle stores a nil
    subscriber as it is, and the loop of Post calls [src.Mounted()] on it:
    after [Handle(x, nil, hB)] and [Handle(x, 2, hA)], with [2] mounted,
    [Post(x, 5)] panics in either order of the visit, see
    [Post_nil_subscriber]: Post does not return, the handler of the mounted
    subscriber has not run, and the entry of the nil subscriber is not
    removed.  Dispatch, which Post calls two lines further on, takes a nil
    source as the Body, and without the nil registration the same Post
    schedules the handler of [2]. *)
Theorem post_nil_subscriber_panics :
  handlersOf "x" nilBusWorld = Some nilBusHandlers
  ∧ nilBusHandlers !! msgKey (Some 2%N) handlerA
    = Some {| src := Some 2%N; hfunction := handlerA |}
  ∧ nilBusHandlers !! msgKey None handlerB
    = Some {| src := None; hfunction := handlerB |}
  ∧ Mounted (ui nilBusWorld) 2%N = true
  ∧ Post (map_to_list nilBusHandlers) "x" 5%N nilBusWorld
    = Panicked NilDereference
  ∧ Post (reverse (map_to_list nilBusHandlers)) "x" 5%N nilBusWorld
    = Panicked NilDereference
  ∧ Dispatch None (Some (FnPost handlerB 5%N)) nilBusWorld
    = Done (withEvents [Event 1 false (Some (FnPost handlerB 5%N))]
              nilBusWorld)
  ∧ ∃ first w',
      handlersOf "x" (Handle "x" (Some 2%N) handlerA chainWorld) = Some first
      ∧ Post (map_to_list first) "x" 5%N
          (Handle "x" (Some 2%N) handlerA chainWorld)
        = Done w'
      ∧ events (eng w') = [Event 2 false (Some (FnPost handlerA 5))].
Proof.
  assert (handlersOf "x" nilBusWorld = Some nilBusHandlers) as Hh.
  { unfold nilBusHandlers, nilBusWorld. by rewrite Handle_handlers. }
  assert (nilBusHandlers !! msgKey None handlerB
          = Some {| src := None; hfunction := handlerB |}) as Hnil.
  { unfold nilBusHandlers, nilBusWorld. rewrite Handle_handlers. simpl.
    apply lookup_insert_eq. }
  split; [exact Hh|]. split.
  { unfold nilBusHandlers, nilBusWorld. rewrite !Handle_handlers. simpl.
    rewrite lookup_insert_ne by (intros H; vm_compute in H; discriminate H).
    apply lookup_insert_eq. }
  split; [exact Hnil|]. split; [reflexivity|].
  split.
  { refine (proj2 (Post_nil_subscriber _ _ _ _ _ _ _ Hh _ Hnil eq_refl) _).
    - unfold rangeOrder. reflexivity.
    - vm_compute. lia. }
  split.
  { refine (proj2 (Post_nil_subscriber _ _ _ _ _ _ _ Hh _ Hnil eq_refl) _).
    - unfold rangeOrder. apply reverse_Permutation.
    - vm_compute. lia. }
  split; [vm_compute; reflexivity|].
  eexists. eexists. split; [apply Handle_handlers|].
  split; [vm_compute; reflexivity|]. vm_compute. reflexivity.
Qed.

(** C7.  Emit returns at once when its source is not mounted.  Otherwise
    it calls [fn] itself, before anything else and not through the queue,
    and then walks up from the source: the first Composer on the way is
    left alone, and Dispatch with a nil function is called on every
    Composer above it, nearest first.  Receiving such an event schedules
    its Composer for update. *)
Theorem emit_inline_then_dispatches_ancestors {X} (env : Environment X)
    (w : World X) (n : N) :
  (∀ fn, Mounted (ui w) n = false → Emit env (Some n) fn w = ([], Done w))
  ∧ (∀ f w1 path,
       Mounted (ui w) n = true →
       callThunk env f w = Done w1 →
       ancestry (ui w1) n = Some path →
       Emit env (Some n) (Some f) w
       = ([EmitCalled f], dispatchAll (tail (composersOn (ui w1) path)) w1)
       ∧ (length (events (eng w1)) + length path ≤ eventBufferSize →
          dispatchAll (tail (composersOn (ui w1) path)) w1
          = Done (withEvents
                    (events (eng w1)
                     ++ ((λ c, Event c false None)
                           <$> filter (λ c, c ∈ mountedNodes (ui w1))
                                 (tail (composersOn (ui w1) path)))) w1)))
  ∧ (∀ path,
       Mounted (ui w) n = true →
       ancestry (ui w) n = Some path →
       Emit env (Some n) None w
       = ([], dispatchAll (tail (composersOn (ui w) path)) w))
  ∧ (∀ (w0 : World X) c,
       handleEvent env (Event c false None) w0
       = ([], scheduleComponentUpdate c w0)).
Proof.
  split_and!.
  - intros fn Hm. by apply Emit_unmounted.
  - intros f w1 path Hm Hf Hpath. split; [by apply Emit_mounted|].
    intros Hroom. apply dispatchAll_room.
    assert (length (tail (composersOn (ui w1) path)) ≤ length path); [|lia].
    unfold composersOn.
    pose proof (length_filter (λ x, x ∈ composerNodes (ui w1)) path).
    destruct (filter _ path); simpl in *; lia.
  - intros path Hm Hpath. by apply Emit_mounted_nil.
  - intros w0 c. unfold handleEvent, execEvent. simpl.
    by destruct (Mounted (ui w0) c).
Qed.

Lemma emit_inline_then_dispatches_ancestors_witness :
  ∃ w',
    Emit quietEnv (Some 3%N) (Some 0%N) chainWorld = ([EmitCalled 0], Done w')
    ∧ events (eng w') = [Event 2 false None; Event 1 false None].
Proof.
  destruct (emit_inline_then_dispatches_ancestors quietEnv chainWorld 3%N)
    as (_ & H & _).
  destruct (H 0%N chainWorld [3; 2; 1]%N) as [H1 H2].
  - vm_compute. reflexivity.
  - reflexivity.
  - vm_compute. reflexivity.
  - eexists. split.
    + rewrite H1, H2; [reflexivity|vm_compute; lia].
    + vm_compute. reflexivity.
Defined.

(** C8.  Message replace: registering the same subscriber and handler
    twice under a topic gives the registry the first registration gave;
    more generally a registration whose key is taken replaces the entry
    under that key.  Afterwards the topic has exactly one entry with that
    key, the one registered last. *)
Theorem handle_is_upsert {X} (w : World X) (msg : string) (s : option N)
    (h : MsgHandler) :
  Handle msg s h (Handle msg s h w) = Handle msg s h w
  ∧ (∀ s' h', msgKey s' h' = msgKey s h →
       Handle msg s h (Handle msg s' h' w) = Handle msg s h w)
  ∧ ∃ handlers,
      handlersOf msg (Handle msg s h (Handle msg s h w)) = Some handlers
      ∧ handlers !! msgKey s h = Some {| src := s; hfunction := h |}
      ∧ filter (λ kh, kh.1 = msgKey s h) (map_to_list handlers)
        = [(msgKey s h, {| src := s; hfunction := h |})]
      ∧ (∀ first, handlersOf msg (Handle msg s h w) = Some first →
           size handlers = size first).
Proof.
  split; [by apply Handle_replaces|]. split.
  { intros s' h' Hkey. by apply Handle_replaces. }
  eexists. split; [apply Handle_handlers|]. split; [apply lookup_insert_eq|].
  split; [apply entries_with_key, lookup_insert_eq|].
  intros first. rewrite Handle_handlers. intros [= <-]. simpl.
  by rewrite insert_insert_eq.
Qed.

Lemma handle_is_upsert_witness :
  Handle "x" (Some 2%N) handlerA (Handle "x" (Some 2%N) handlerA' chainWorld)
  = Handle "x" (Some 2%N) handlerA chainWorld
  ∧ ∃ handlers,
      handlersOf "x"
        (Handle "x" (Some 2%N) handlerA (Handle "x" (Some 2%N) handlerA chainWorld))
      = Some handlers
      ∧ size handlers = 1.
Proof.
  destruct (handle_is_upsert chainWorld "x" (Some 2%N) handlerA)
    as (_ & H & handlers & H1 & _).
  split; [apply H; reflexivity|].
  exists handlers. split; [exact H1|].
  vm_compute in H1. injection H1 as <-. vm_compute. reflexivity.
Defined.

(** C9, amended.  An error that replaceChildAt returns to Mount, or an
    error other than a replace error that update returns to it, makes the
    function Mount dispatches panic with an error tagged with the queue
    depth and capacity, the size of the pending set and the length of the
    batch list at the point of failure; a replace error of update is
    recovered by replacing the child.  An error that updateRoot returns to
    a flush makes the flush panic with that error as it is: the engine
    attaches nothing to it. *)
Theorem structural_failures_panic {X} (env : Environment X) (sorter : Sorter)
    (w : World X) (n : N) :
  (∀ body w' err,
     isMountedOnce (eng w) = false →
     Body (eng w) = Some body →
     replaceChildAt env body 0 n w = Done (w', Some err) →
     mountBody env n w
     = Panicked (PanicTagged "mounting ui element failed" (diagnostics w') err))
  ∧ (∀ body w' err,
       isMountedOnce (eng w) = true →
       Body (eng w) = Some body →
       updateFirstChild env body n w = Done (w', Some err) →
       isErrReplace env err = false →
       mountBody env n w
       = Panicked (PanicTagged "mounting ui element failed" (diagnostics w') err))
  ∧ (∀ body w' err body' w'' err',
       isMountedOnce (eng w) = true →
       Body (eng w) = Some body →
       updateFirstChild env body n w = Done (w', Some err) →
       isErrReplace env err = true →
       Body (eng w') = Some body' →
       replaceChildAt env body' 0 n w' = Done (w'', Some err') →
       mountBody env n w
       = Panicked (PanicTagged "mounting ui element failed" (diagnostics w'') err'))
  ∧ (∀ body w' err body' w'',
       isMountedOnce (eng w) = true →
       Body (eng w) = Some body →
       updateFirstChild env body n w = Done (w', Some err) →
       isErrReplace env err = true →
       Body (eng w') = Some body' →
       replaceChildAt env body' 0 n w' = Done (w'', None) →
       mountBody env n w = Done w'')
  ∧ (∀ (w0 : World X) msg err,
       carriesDiagnostics (PanicTagged msg (diagnostics w0) err))
  ∧ (∀ body,
       Body (eng w) = Some body →
       Mounted (ui w) body = true →
       (length (events (eng w)) < eventBufferSize →
        Mount n w
        = Done (withEvents
                  (events (eng w) ++ [Event body false (Some (FnMount n))]) w))
       ∧ execEvent env (Event body false (Some (FnMount n))) w
         = ([Called (Event body false (Some (FnMount n)))], mountBody env n w))
  ∧ (∀ pre ud post l1 w1 w' err,
       updates (eng w) ≠ ∅ →
       sorter (updateQueue (eng w)) = pre ++ ud :: post →
       updateLoop env pre (withUpdateQueue (sorter (updateQueue (eng w))) w)
       = (l1, Done w1) →
       Mounted (ui w1) (compo ud) = true →
       compo ud ∈ updates (eng w1) →
       updateRoot env (compo ud) w1 = Done (w', Some err) →
       updateComponents env sorter w
       = (l1 ++ [Rendered (compo ud)], Panicked (PanicError err)))
  ∧ (∀ err, ¬ carriesDiagnostics (PanicError err)).
Proof.
  split_and!.
  - intros. by eapply mountBody_first_fails.
  - intros. by eapply mountBody_update_fails.
  - intros. by eapply mountBody_replace_fails.
  - intros body w' err body' w'' Hm Hb Hu He Hb' Hr.
    unfold mountBody, replaceBodyChild. rewrite Hm, Hb, Hu. simpl.
    rewrite He. simpl. by rewrite Hb', Hr.
  - intros. apply diagnostics_carried.
  - intros body Hb Hm. split.
    + intros Hroom. unfold Mount, Dispatch. rewrite Hb.
      by apply enqueue_mounted.
    + unfold execEvent. simpl. by rewrite Hm.
  - intros. by eapply updateComponents_error.
  - apply PanicError_bare.
Qed.

Lemma structural_failures_panic_witness :
  mountBody brokenMountEnv 5%N chainWorld
  = Panicked (PanicTagged "mounting ui element failed"
                [("events-count", 0); ("events-capacity", 4096);
                 ("updates-count", 0); ("updates-queue-len", 0)] 9%N)
  ∧ ∃ w1, scheduleAll [1%N] chainWorld = Done w1
          ∧ updateComponents failingEnv mergeSorter w1
            = ([Rendered 1], Panicked (PanicError 7)).
Proof.
  split.
  - destruct (structural_failures_panic brokenMountEnv mergeSorter
                chainWorld 5%N) as (H & _).
    apply (H 1%N chainWorld 9%N); reflexivity.
  - eexists. split; [vm_compute; reflexivity|].
    eapply (proj1 (proj2 (proj2 (proj2 (proj2 (proj2 (proj2
              (structural_failures_panic failingEnv mergeSorter _ 1%N))))))))
      with (pre := []) (ud := UpdateDescriptor 1 1) (post := []) (l1 := []).
    + intros H. apply (f_equal (λ s : gset N, bool_decide (1%N ∈ s))) in H.
      vm_compute in H. discriminate.
    + vm_compute. reflexivity.
    + vm_compute. reflexivity.
    + vm_compute. reflexivity.
    + by_evaluation.
    + vm_compute. reflexivity.
Defined.

(** C9 as the specification states it fails for re-renders: a flush whose
    re-render returns error [7] panics with that bare error, which carries
    no queue depth, capacity, pending count or batch length. *)
Lemma rerender_panic_has_no_diagnostics :
  ∃ w1,
    scheduleAll [1%N] chainWorld = Done w1
    ∧ updateComponents failingEnv mergeSorter w1
      = ([Rendered 1], Panicked (PanicError 7))
    ∧ ¬ carriesDiagnostics (PanicError 7).
Proof.
  eexists. split; [vm_compute; reflexivity|].
  split; [vm_compute; reflexivity|]. apply PanicError_bare.
Qed.

(* ===================================================================== *)
(** * 8. Further properties of the code *)
(* ===================================================================== *)

(** ** 8.1 The order of a flush *)

(** X1.  Root first: when every batch entry of [c1] has a priority below
    that of every batch entry of [c2], a flush never re-renders [c1] after
    [c2], whatever the sort does with equal priorities and whatever the
    re-renders do. *)
Theorem flush_renders_lower_priority_first {X} (env : Environment X)
    (sorter : Sorter) (w : World X) (c1 c2 : N) (p1 p2 : nat) :
  (∀ ud, ud ∈ updateQueue (eng w) → compo ud = c1 → priority ud ≤ p1) →
  (∀ ud, ud ∈ updateQueue (eng w) → compo ud = c2 → p2 ≤ priority ud) →
  p1 < p2 →
  ∀ before after,
    renders (updateComponents env sorter w).1 = before ++ c2 :: after →
    c1 ∉ after.
Proof.
  intros H1 H2 Hlt before after Hsplit Hin.
  destruct (updateComponents_log env sorter w) as (done & Hsub & E).
  rewrite E in Hsplit.
  apply fmap_app_inv in Hsplit as (d1 & d2' & -> & Hd2 & ->).
  symmetry in Hd2. apply fmap_cons_inv in Hd2 as (x & d2 & Hc2 & -> & ->).
  apply list_elem_of_fmap in Hin as (y & -> & Hy).
  assert (StronglySorted priority_le (d1 ++ x :: d2)) as Hsorted.
  { eapply StronglySorted_sublist; [done|]. apply sortSlice_sorted. }
  apply StronglySorted_app in Hsorted as (_ & _ & Hsorted).
  apply StronglySorted_inv in Hsorted as [_ Hx].
  rewrite Forall_forall in Hx. specialize (Hx y Hy). unfold priority_le in Hx.
  assert (∀ z, z ∈ d1 ++ x :: d2 → z ∈ updateQueue (eng w)) as Hq.
  { intros z Hz. rewrite <- (sortSlice_perm sorter).
    by eapply elem_of_sublist. }
  assert (priority y ≤ p1).
  { apply H1; [|done]. apply Hq. set_solver. }
  assert (p2 ≤ priority x).
  { apply H2; [|done]. apply Hq. set_solver. }
  lia.
Qed.

Lemma flush_renders_lower_priority_first_witness :
  ∃ w1,
    scheduleAll [3; 1]%N chainWorld = Done w1
    ∧ renders (updateComponents quietEnv mergeSorter w1).1 = [1; 3]%N
    ∧ ∀ before after,
        renders (updateComponents quietEnv mergeSorter w1).1
        = before ++ 3%N :: after →
        1%N ∉ after.
Proof.
  eexists. split; [vm_compute; reflexivity|].
  split; [vm_compute; reflexivity|].
  apply (flush_renders_lower_priority_first quietEnv mergeSorter _
           1%N 3%N 1 3).
  - intros ud Hud Hc. simpl in Hud.
    repeat (apply elem_of_cons in Hud as [->|Hud]); simpl in *;
      [discriminate|lia|by apply elem_of_nil in Hud].
  - intros ud Hud Hc. simpl in Hud.
    repeat (apply elem_of_cons in Hud as [->|Hud]); simpl in *;
      [lia|discriminate|by apply elem_of_nil in Hud].
  - lia.
Defined.

(** ** 8.2 Priorities along the parent chain *)

Lemma enclosedBy_ancestry t n c above :
  enclosedBy t n c above → ancestry t c = Some (c :: above).
Proof.
  intros (below & H & _ & _). unfold ancestry in *.
  by eapply climb_suffix.
Qed.

Lemma ancestry_fresh t c above : ancestry t c = Some (c :: above) → c ∉ above.
Proof.
  unfold ancestry. destruct above as [|p rest]; [intros; apply not_elem_of_nil|].
  intros H. destruct (climb_step _ _ _ _ _ H) as (fuel' & _ & Hp & Hrest).
  by eapply climb_fresh.
Qed.

(** X2.  A Composer gets a strictly higher priority than every Composer
    above it on its parent chain, in whichever order the two are
    scheduled: with X1, an enclosing Composer is re-rendered before the
    Composers inside it. *)
Theorem deeper_composer_gets_higher_priority {X} (w : World X)
    (n1 n2 c1 c2 : N) (above1 above2 : list N) :
  Mounted (ui w) n1 = true →
  Mounted (ui w) n2 = true →
  enclosedBy (ui w) n1 c1 above1 →
  enclosedBy (ui w) n2 c2 above2 →
  c1 ∈ above2 →
  c1 ∉ updates (eng w) →
  c2 ∉ updates (eng w) →
  length above1 < length above2
  ∧ scheduleAll [n2; n1] w
    = Done (scheduled c1 (length above1 + 1)
              (scheduled c2 (length above2 + 1) w))
  ∧ scheduleAll [n1; n2] w
    = Done (scheduled c2 (length above2 + 1)
              (scheduled c1 (length above1 + 1) w)).
Proof.
  intros Hm1 Hm2 He1 He2 Hin Hp1 Hp2.
  pose proof (enclosedBy_ancestry _ _ _ _ He1) as Ha1.
  pose proof (enclosedBy_ancestry _ _ _ _ He2) as Ha2.
  assert (c1 ≠ c2) as Hne.
  { intros ->. by apply (ancestry_fresh _ _ _ Ha2). }
  split.
  - apply list_elem_of_split in Hin as (mid & rest & ->).
    unfold ancestry in *.
    pose proof (climb_suffix _ _ _ (c2 :: mid) c1 rest Ha2) as Ha1'.
    pose proof (climb_unique _ _ _ _ _ _ Ha1 Ha1') as [= ->].
    rewrite length_app. simpl. lia.
  - split.
    + rewrite (scheduleAll_cons_new w n2 c2 above2) by done.
      rewrite (scheduleAll_cons_new _ n1 c1 above1); [done..|].
      simpl. set_solver.
    + rewrite (scheduleAll_cons_new w n1 c1 above1) by done.
      rewrite (scheduleAll_cons_new _ n2 c2 above2); [done..|].
      simpl. set_solver.
Qed.

Lemma deeper_composer_gets_higher_priority_witness :
  scheduleAll [3; 1]%N chainWorld
  = Done (scheduled 1%N 1 (scheduled 3%N 3 chainWorld))
  ∧ scheduleAll [1; 3]%N chainWorld
    = Done (scheduled 3%N 3 (scheduled 1%N 1 chainWorld)).
Proof.
  destruct (deeper_composer_gets_higher_priority chainWorld
              1%N 3%N 1%N 3%N [] [2; 1]%N) as (_ & H1 & H2).
  - vm_compute. reflexivity.
  - vm_compute. reflexivity.
  - exists []. split; [vm_compute; reflexivity|]. split; [constructor|].
    by_evaluation.
  - exists []. split; [vm_compute; reflexivity|]. split; [constructor|].
    by_evaluation.
  - by_evaluation.
  - simpl. apply not_elem_of_empty.
  - simpl. apply not_elem_of_empty.
  - split; [exact H1|exact H2].
Defined.

(** ** 8.3 A flush whose re-renders are quiet *)

Lemma updateLoop_quiet_any {X} (env : Environment X)
    (q : list updateDescriptor) (w : World X) :
  rendersQuietly env →
  ∃ w' rs,
    updateLoop env q w = (Rendered <$> rs, Done w')
    ∧ ui w' = ui w
    ∧ updates (eng w') = updates (eng w) ∖ list_to_set rs
    ∧ NoDup rs
    ∧ ∀ c, c ∈ rs ↔ c ∈ compo <$> q ∧ c ∈ mountedNodes (ui w)
                    ∧ c ∈ updates (eng w).
Proof.
  intros Hquiet. revert w. induction q as [|ud q IH]; intros w.
  { exists w, []. simpl. split_and!; [done|done|set_solver|constructor|].
    intros c. rewrite !elem_of_nil. tauto. }
  destruct (decide (compo ud ∈ mountedNodes (ui w)
                    ∧ compo ud ∈ updates (eng w))) as [[Hm Hp]|Hno].
  - destruct (Hquiet (compo ud) w) as (w1 & Hr & Hui1 & Hupd1).
    destruct (IH (componentUpdated (compo ud) w1))
      as (w' & rs & Hloop & Hui & Hupd & Hnd & Hiff).
    simpl in Hui, Hupd, Hiff. rewrite Hui1 in Hui, Hiff.
    rewrite Hupd1 in Hupd, Hiff.
    exists w', (compo ud :: rs). split_and!.
    + simpl. unfold Mounted.
      rewrite (bool_decide_eq_true_2 _ Hm), (bool_decide_eq_true_2 _ Hp), Hr.
      simpl. by rewrite Hloop.
    + done.
    + rewrite Hupd. set_solver.
    + constructor; [|done]. rewrite Hiff. set_solver.
    + intros c. rewrite elem_of_cons, Hiff, fmap_cons, elem_of_cons.
      destruct (decide (c = compo ud)) as [->|Hne]; set_solver.
  - destruct (IH w) as (w' & rs & Hloop & Hui & Hupd & Hnd & Hiff).
    exists w', rs. split_and!; [|done..|].
    + simpl. unfold Mounted.
      destruct (decide (compo ud ∈ mountedNodes (ui w))) as [Hm|Hm].
      * rewrite (bool_decide_eq_true_2 _ Hm). simpl.
        rewrite bool_decide_eq_false_2 by tauto. done.
      * by rewrite (bool_decide_eq_false_2 _ Hm).
    + intros c. rewrite Hiff, fmap_cons, elem_of_cons.
      split; [tauto|]. intros [[->|?] [? ?]]; tauto.
Qed.

(** X3.  When the re-renders return without an error and leave the mounted
    nodes and the pending set alone, a flush re-renders exactly the
    Composers that are named in the batch list, mounted and pending, each
    once, and removes them from the pending set; a flush that starts with
    a pending Composer empties the batch list.  When every pending
    Composer is mounted and has a batch entry, the pending set is empty
    afterwards. *)
Theorem quiet_flush_renders_each_pending_once {X} (env : Environment X)
    (sorter : Sorter) (w : World X) :
  rendersQuietly env →
  ∃ w' rs,
    updateComponents env sorter w = ((Rendered <$> rs) ++ [Flushed], Done w')
    ∧ NoDup rs
    ∧ (∀ c, c ∈ rs ↔ c ∈ compo <$> updateQueue (eng w)
                     ∧ c ∈ mountedNodes (ui w) ∧ c ∈ updates (eng w))
    ∧ updates (eng w') = updates (eng w) ∖ list_to_set rs
    ∧ ui w' = ui w
    ∧ (updates (eng w) ≠ ∅ → updateQueue (eng w') = [])
    ∧ (pendingQueued w → updates (eng w) ⊆ mountedNodes (ui w) →
       updates (eng w') = ∅).
Proof.
  intros Hquiet. unfold updateComponents.
  destruct (decide (size (updates (eng w)) = 0)) as [Hz|Hnz].
  - apply size_empty_inv, leibniz_equiv in Hz.
    exists w, []. simpl. rewrite Hz.
    split_and!; [done|constructor| |set_solver|done|done|done].
    intros c. rewrite elem_of_nil. set_solver.
  - destruct (updateLoop_quiet_any env (sorter (updateQueue (eng w)))
                (withUpdateQueue (sorter (updateQueue (eng w))) w) Hquiet)
      as (w1 & rs & Hloop & Hui & Hupd & Hnd & Hiff).
    simpl in Hui, Hupd, Hiff.
    assert (∀ c, c ∈ rs ↔ c ∈ compo <$> updateQueue (eng w)
                         ∧ c ∈ mountedNodes (ui w) ∧ c ∈ updates (eng w))
      as Hiff'.
    { intros c. rewrite Hiff. by rewrite (sortSlice_perm sorter). }
    exists (withUpdateQueue [] w1), rs. simpl. rewrite Hloop. simpl.
    split_and!; try done.
    intros Hinv Hmounted. rewrite Hupd. apply leibniz_equiv.
    intros c. split; [|set_solver]. intros [Hc Hn]%elem_of_difference.
    destruct Hn. apply elem_of_list_to_set, Hiff'.
    split_and!; [by apply Hinv|by apply Hmounted|done].
Qed.

Lemma quiet_flush_renders_each_pending_once_witness :
  rendersQuietly quietEnv
  ∧ ∃ w' rs,
      updateComponents quietEnv mergeSorter
        (scheduled 2%N 2 (scheduled 1%N 1 (scheduled 3%N 3 chainWorld)))
      = ((Rendered <$> rs) ++ [Flushed], Done w')
      ∧ NoDup rs
      ∧ updates (eng w') = ∅
      ∧ updateQueue (eng w') = [].
Proof.
  assert (rendersQuietly quietEnv) as Hquiet.
  { intros c w. exists w. repeat split. }
  split; [exact Hquiet|].
  destruct (quiet_flush_renders_each_pending_once quietEnv mergeSorter
              (scheduled 2%N 2 (scheduled 1%N 1 (scheduled 3%N 3 chainWorld)))
              Hquiet)
    as (w' & rs & H1 & H2 & _ & _ & _ & H6 & H7).
  exists w', rs. split; [exact H1|]. split; [exact H2|]. split.
  - apply H7.
    + intros c. simpl. set_solver.
    + simpl. set_solver.
  - apply H6. simpl. set_solver.
Defined.

(** ** 8.4 What scheduling changes *)

Lemma scheduleWalk_result fuel t pending n found d c d' :
  scheduleWalk fuel t pending n found d = AtRoot (Some c) d' →
  match found with
  | Some c0 => c = c0
  | None => c ∈ composerNodes t ∧ c ∉ pending
  end.
Proof.
  revert n found d. induction fuel as [|fuel IH]; intros n found d; [done|].
  simpl. destruct found as [c0|].
  - simpl. destruct (parent t n) as [p|]; [|by intros [= <- _]].
    intros H. by apply IH in H.
  - unfold isComposer.
    destruct (decide (n ∈ composerNodes t)) as [Hn|Hn].
    + rewrite (bool_decide_eq_true_2 _ Hn). simpl.
      destruct (decide (n ∈ pending)) as [Hp|Hp].
      * by rewrite (bool_decide_eq_true_2 _ Hp).
      * rewrite (bool_decide_eq_false_2 _ Hp).
        destruct (parent t n) as [p|]; [|by intros [= <- _]].
        intros H. apply IH in H. by subst.
    + rewrite (bool_decide_eq_false_2 _ Hn). simpl.
      destruct (parent t n) as [p|]; [|done]. apply IH.
Qed.

Lemma schedule_cases {X} n (w w' : World X) :
  scheduleComponentUpdate n w = Done w' →
  w' = w
  ∨ ∃ c depth, w' = scheduled c (depth + 1) w
               ∧ c ∈ composerNodes (ui w) ∧ c ∉ updates (eng w).
Proof.
  unfold scheduleComponentUpdate.
  destruct (Mounted (ui w) n); cbn [negb]; [|intros [= <-]; by left].
  destruct (scheduleWalk (treeFuel (ui w)) (ui w) (updates (eng w)) n None 0)
    as [|[c|] depth|] eqn:Hwalk;
    try (intros [= <-]; by left).
  intros [= <-]. right. exists c, depth. split; [done|].
  by apply scheduleWalk_result in Hwalk.
Qed.

Lemma enqueue_frame {X} deferred s fn (w w' : World X) :
  enqueue deferred s fn w = Done w' →
  updates (eng w') = updates (eng w)
  ∧ updateQueue (eng w') = updateQueue (eng w)
  ∧ defers (eng w') = defers (eng w)
  ∧ messages (eng w') = messages (eng w)
  ∧ ui w' = ui w.
Proof.
  unfold enqueue, send. repeat case_match; intros; by simplify_eq.
Qed.

Lemma postLoop_frame {X} order v handlers (w : World X) handlers' w' :
  postLoop order v handlers w = Done (handlers', w') →
  updates (eng w') = updates (eng w)
  ∧ updateQueue (eng w') = updateQueue (eng w)
  ∧ defers (eng w') = defers (eng w)
  ∧ messages (eng w') = messages (eng w)
  ∧ ui w' = ui w.
Proof.
  revert handlers w. induction order as [|[k h] order IH]; intros handlers w.
  { simpl. by intros [= <- <-]. }
  simpl. destruct (src h) as [s|]; [|done].
  destruct (Dispatch (Some s) (Some (FnPost (hfunction h) v)) w)
    as [w1| | |p] eqn:Hd; simpl; try done.
  intros Hloop. apply IH in Hloop as (-> & -> & -> & -> & ->).
  unfold Dispatch in Hd. by apply enqueue_frame in Hd.
Qed.

(** X4.  Only a flush can leave a pending Composer without a batch entry:
    scheduleComponentUpdate, componentUpdated, Dispatch, Defer, Handle and
    Post keep every pending Composer in the batch list.  A call of
    scheduleComponentUpdate changes nothing but the pending set and the
    batch list, adds at most one Composer, which was not pending, and
    removes nothing. *)
Theorem scheduling_keeps_pending_queued {X} (w : World X) :
  pendingQueued w →
  (∀ n w', scheduleComponentUpdate n w = Done w' →
     pendingQueued w'
     ∧ updates (eng w) ⊆ updates (eng w')
     ∧ size (updates (eng w')) ≤ S (size (updates (eng w)))
     ∧ updateQueue (eng w) `prefix_of` updateQueue (eng w')
     ∧ length (updateQueue (eng w')) - length (updateQueue (eng w))
       = size (updates (eng w')) - size (updates (eng w))
     ∧ events (eng w') = events (eng w)
     ∧ defers (eng w') = defers (eng w)
     ∧ messages (eng w') = messages (eng w)
     ∧ ui w' = ui w)
  ∧ (∀ c, pendingQueued (componentUpdated c w))
  ∧ (∀ deferred s fn w', enqueue deferred s fn w = Done w' → pendingQueued w')
  ∧ (∀ msg s h, pendingQueued (Handle msg s h w))
  ∧ (∀ order msg v w', Post order msg v w = Done w' → pendingQueued w').
Proof.
  intros Hinv. split_and!.
  - intros n w' [->|(c & depth & -> & Hc & Hp)]%schedule_cases.
    { split_and!; try done; lia. }
    simpl. split_and!; try done.
    + intros x. simpl. rewrite fmap_app, elem_of_app, elem_of_union.
      intros [->%elem_of_singleton|Hx]; [right; simpl; set_solver|].
      left. by apply Hinv.
    + set_solver.
    + rewrite size_union by set_solver. rewrite size_singleton. lia.
    + by apply prefix_app_r.
    + rewrite length_app, size_union by set_solver.
      rewrite size_singleton. simpl. lia.
  - intros c x. simpl. intros [Hx _]%elem_of_difference. by apply Hinv.
  - intros deferred s fn w' (Hu & Hq & _)%enqueue_frame x.
    rewrite Hu, Hq. apply Hinv.
  - intros msg s h x. simpl. apply Hinv.
  - intros order msg v w'. unfold Post.
    destruct (handlersOf msg w); [|intros [= <-]; apply Hinv].
    destruct (postLoop order v g w) as [[hs w1]| | |p] eqn:E; simpl; try done.
    intros [= <-] x. simpl.
    apply postLoop_frame in E as (-> & -> & _). apply Hinv.
Qed.

Lemma scheduling_keeps_pending_queued_witness :
  pendingQueued (scheduled 3%N 3 chainWorld)
  ∧ ∀ w', scheduleComponentUpdate 2%N (scheduled 3%N 3 chainWorld) = Done w' →
      pendingQueued w'.
Proof.
  assert (pendingQueued (scheduled 3%N 3 chainWorld)) as Hinv.
  { intros c. simpl. set_solver. }
  split; [exact Hinv|].
  destruct (scheduling_keeps_pending_queued _ Hinv) as (H & _).
  intros w' Hw'. exact (proj1 (H _ _ Hw')).
Defined.

(** X5.  scheduleComponentUpdate returns for every node whose parent chain
    ends at a root, and stops short only on a chain that does not end.
    What it schedules is a Composer of the chain that was not pending, with
    a priority between one and the length of the chain. *)
Theorem schedule_returns_on_every_finite_chain {X} (w : World X) (n : N) :
  (∀ fuel path,
     climb fuel (ui w) n = Some path →
     ∃ w', scheduleComponentUpdate n w = Done w'
           ∧ (w' = w
              ∨ ∃ c p, w' = scheduled c p w ∧ c ∈ path
                       ∧ c ∈ composerNodes (ui w)
                       ∧ (c ∉ updates (eng w))
                       ∧ (1 ≤ p ≤ length path)))
  ∧ (scheduleComponentUpdate n w = OutOfFuel → ∀ fuel, climb fuel (ui w) n = None)
  ∧ (∀ p, scheduleComponentUpdate n w ≠ Panicked p)
  ∧ scheduleComponentUpdate n w ≠ Blocked.
Proof.
  split_and!.
  - intros fuel path H%treeFuel_enough.
    destruct (Mounted (ui w) n) eqn:Hm.
    2: { exists w. split; [by apply schedule_unmounted|by left]. }
    destruct (composers_split (ui w) path)
      as [Hpath|(below & c & above & -> & Hbelow & Hc)].
    { exists w. split; [by eapply schedule_no_composer|by left]. }
    rewrite (schedule_enclosing w n c above Hm); [|by exists below].
    destruct (decide (c ∈ updates (eng w))) as [Hp|Hp].
    + rewrite (bool_decide_eq_true_2 _ Hp). exists w. split; [done|by left].
    + rewrite (bool_decide_eq_false_2 _ Hp). eexists. split; [done|].
      right. exists c, (length above + 1). split_and!; try done.
      * set_solver.
      * lia.
      * rewrite length_app. simpl. lia.
  - intros Hout fuel. destruct (climb fuel (ui w) n) as [path|] eqn:H; [|done].
    apply treeFuel_enough in H. destruct (schedule_returns _ w n path H) as [w' E].
    congruence.
  - intros p. unfold scheduleComponentUpdate.
    destruct (Mounted (ui w) n); cbn [negb]; [|done].
    by destruct (scheduleWalk (treeFuel (ui w)) (ui w) (updates (eng w)) n
                   None 0) as [|[c|] depth|].
  - unfold scheduleComponentUpdate.
    destruct (Mounted (ui w) n); cbn [negb]; [|done].
    by destruct (scheduleWalk (treeFuel (ui w)) (ui w) (updates (eng w)) n
                   None 0) as [|[c|] depth|].
Qed.

Lemma schedule_returns_on_every_finite_chain_witness :
  ∃ w',
    scheduleComponentUpdate 3%N chainWorld = Done w'
    ∧ (w' = chainWorld
       ∨ ∃ c p, w' = scheduled c p chainWorld ∧ c ∈ [3; 2; 1]%N
                ∧ c ∈ composerNodes (ui chainWorld)
                ∧ (c ∉ updates (eng chainWorld)) ∧ (1 ≤ p ≤ 3)).
Proof.
  destruct (schedule_returns_on_every_finite_chain chainWorld 3%N) as (H & _).
  apply (H 3 [3; 2; 1]%N). vm_compute. reflexivity.
Defined.

(** ** 8.5 The capacity of the event queue *)

Lemma queueGrows_refl {X} (w : World X) : queueGrows w w.
Proof. by split. Qed.

Lemma queueGrows_trans {X} (w1 w2 w3 : World X) :
  queueGrows w1 w2 → queueGrows w2 w3 → queueGrows w1 w3.
Proof. intros [? ?] [? ?]. split; [by etrans|auto]. Qed.

Lemma enqueue_grows {X} deferred s fn (w w' : World X) :
  enqueue deferred s fn w = Done w' → queueGrows w w'.
Proof.
  unfold enqueue, send. repeat case_match; intros; simplify_eq;
    try apply queueGrows_refl.
  all: split; simpl; [by apply prefix_app_r|]; rewrite length_app; simpl; lia.
Qed.

Lemma postLoop_grows {X} order v handlers (w : World X) handlers' w' :
  postLoop order v handlers w = Done (handlers', w') → queueGrows w w'.
Proof.
  revert handlers w. induction order as [|[k h] order IH]; intros handlers w.
  { simpl. intros [= <- <-]. apply queueGrows_refl. }
  simpl. destruct (src h) as [s|]; [|done].
  destruct (Dispatch (Some s) (Some (FnPost (hfunction h) v)) w)
    as [w1| | |p] eqn:Hd; simpl; try done.
  intros Hloop. eapply queueGrows_trans; [|by eapply IH].
  unfold Dispatch in Hd. by eapply enqueue_grows.
Qed.

Lemma dispatchAll_grows {X} cs (w w' : World X) :
  dispatchAll cs w = Done w' → queueGrows w w'.
Proof.
  revert w. induction cs as [|c cs IH]; intros w; simpl.
  { intros [= <-]. apply queueGrows_refl. }
  destruct (Dispatch (Some c) None w) as [w1| | |p] eqn:Hd; simpl; try done.
  intros Hrest. eapply queueGrows_trans; [|by eapply IH].
  unfold Dispatch in Hd. by eapply enqueue_grows.
Qed.

Lemma emitWalk_grows {X} fuel n k (w w' : World X) :
  emitWalk fuel n k w = Done w' → queueGrows w w'.
Proof.
  revert n k w. induction fuel as [|fuel IH]; intros n k w; [done|]. simpl.
  destruct (isComposer (ui w) n && bool_decide (1 < _)).
  - destruct (Dispatch (Some n) None w) as [w1| | |p] eqn:Hd; simpl; try done.
    unfold Dispatch in Hd. apply enqueue_grows in Hd.
    destruct (parent (ui w1) n) as [p|].
    + intros H. eapply queueGrows_trans; [done|by eapply IH].
    + by intros [= <-].
  - simpl. destruct (parent (ui w) n) as [p|]; [apply IH|].
    intros [= <-]. apply queueGrows_refl.
Qed.

(** X6.  The event queue never exceeds the capacity of the channel, and
    the engine never drops or reorders a queued event when it sends:
    Dispatch, Defer, Mount, Post and the dispatches of Emit only add events
    at the end of the queue, and leave it within [eventBufferSize]. *)
Theorem queue_stays_within_capacity {X} (w : World X) :
  length (events (eng w)) ≤ eventBufferSize →
  (∀ s fn w', Dispatch s fn w = Done w' →
     events (eng w) `prefix_of` events (eng w')
     ∧ length (events (eng w')) ≤ eventBufferSize)
  ∧ (∀ s fn w', Defer s fn w = Done w' →
       events (eng w) `prefix_of` events (eng w')
       ∧ length (events (eng w')) ≤ eventBufferSize)
  ∧ (∀ n w', Mount n w = Done w' →
       events (eng w) `prefix_of` events (eng w')
       ∧ length (events (eng w')) ≤ eventBufferSize)
  ∧ (∀ order msg v w', Post order msg v w = Done w' →
       events (eng w) `prefix_of` events (eng w')
       ∧ length (events (eng w')) ≤ eventBufferSize)
  ∧ (∀ n k w', emitWalk (treeFuel (ui w)) n k w = Done w' →
       events (eng w) `prefix_of` events (eng w')
       ∧ length (events (eng w')) ≤ eventBufferSize).
Proof.
  intros Hcap.
  assert (∀ w' : World X, queueGrows w w' →
            events (eng w) `prefix_of` events (eng w')
            ∧ length (events (eng w')) ≤ eventBufferSize) as Hgrow.
  { intros w' [? ?]. auto. }
  split_and!.
  - intros s fn w' H. by apply Hgrow, (enqueue_grows false s fn).
  - intros s fn w' H. by apply Hgrow, (enqueue_grows true s fn).
  - intros n w' H. apply Hgrow. unfold Mount, Dispatch in H.
    by eapply enqueue_grows.
  - intros order msg v w'. unfold Post.
    destruct (handlersOf msg w); [|intros [= <-]; apply Hgrow, queueGrows_refl].
    destruct (postLoop order v g w) as [[hs w1]| | |p] eqn:E; simpl; try done.
    intros [= <-]. simpl. apply postLoop_grows in E. by apply Hgrow in E.
  - intros n k w' H. by apply Hgrow, (emitWalk_grows (treeFuel (ui w)) n k).
Qed.

Lemma queue_stays_within_capacity_witness :
  ∃ w', Dispatch None (Some (FnUser 7)) chainWorld = Done w'
        ∧ events (eng chainWorld) `prefix_of` events (eng w')
        ∧ length (events (eng w')) ≤ eventBufferSize.
Proof.
  destruct (queue_stays_within_capacity chainWorld) as (H & _).
  - vm_compute. lia.
  - eexists. split; [vm_compute; reflexivity|].
    apply (H None (Some (FnUser 7))). vm_compute. reflexivity.
Defined.

(** ** 8.6 The phases of Consume *)

Lemma updateComponents_shape {X} (env : Environment X) (sorter : Sorter)
    (w : World X) :
  ∃ rs, (updateComponents env sorter w).1
        = (Rendered <$> rs)
          ++ match (updateComponents env sorter w).2 with
             | Done _ => [Flushed]
             | _ => []
             end.
Proof.
  unfold updateComponents. destruct (decide _) as [_|_].
  { by exists []. }
  destruct (updateLoop_log env (sorter (updateQueue (eng w)))
              (withUpdateQueue (sorter (updateQueue (eng w))) w))
    as (done & _ & E).
  exists (compo <$> done).
  destruct (updateLoop env _ _) as [l [a| | |p]]; simpl in *; subst l;
    rewrite <- list_fmap_compose, ?app_nil_r; done.
Qed.

Lemma flushAll_shape {X} (env : Environment X) (sorter : Sorter)
    (w : World X) :
  ∃ rs fl ds,
    (flushAll env sorter w).1
    = (Rendered <$> rs) ++ fl ++ (CalledDeferred <$> ds)
    ∧ (fl = [Flushed] ∨ (fl = [] ∧ ds = [])).
Proof.
  unfold flushAll. destruct (updateComponents_shape env sorter w) as [rs E].
  destruct (updateComponents env sorter w) as [l [a| | |p]]; simpl in *;
    subst l; try (exists rs, [], []; split; [done|by right]).
  destruct (execDeferableEvents_log env a) as (ds & _ & Ed).
  destruct (execDeferableEvents env a) as [l' r']. simpl in *. subst l'.
  exists rs, [Flushed], ds. split; [by rewrite <- !app_assoc|by left].
Qed.

Lemma flushAll_clears {X} (env : Environment X) (sorter : Sorter)
    (w : World X) l w' :
  flushAll env sorter w = (l, Done w') → defers (eng w') = [] ∧ Flushed ∈ l.
Proof.
  unfold flushAll.
  destruct (updateComponents env sorter w) as [l1 [a| | |p]] eqn:E; simpl;
    try done.
  destruct (execDeferableEvents env a) as [l2 r2] eqn:E2.
  intros [= <- ->]. split; [by eapply execDeferableEvents_clears|].
  apply elem_of_app. left.
  by destruct (updateComponents_flushed _ _ _ _ _ E).
Qed.

Lemma handleEvent_shape {X} (env : Environment X) ev (w : World X) :
  (handleEvent env ev w).1 = [] ∨ (handleEvent env ev w).1 = [Called ev].
Proof.
  unfold handleEvent. destruct (deferable ev); [by left|].
  destruct (execEvent_log env ev w) as [E|E];
    destruct (execEvent env ev w) as [l [a| | |p]]; simpl in *; subst l;
    try (by left); try (by right);
    destruct (scheduleComponentUpdate (source ev) a); by (left || right).
Qed.

Lemma batched_cons_called ev log : batched log → batched (Called ev :: log).
Proof.
  intros (es & rs & fl & ds & -> & H). by exists (ev :: es), rs, fl, ds.
Qed.

Lemma batched_handleEvent {X} (env : Environment X) ev (w : World X)
    (k : World X → run (World X)) :
  (∀ w', batched (k w').1) →
  batched (rbind (handleEvent env ev w) k).1.
Proof.
  intros Hk. pose proof (handleEvent_shape env ev w) as Hs.
  destruct (handleEvent env ev w) as [l [a| | |p]]; simpl in *.
  - specialize (Hk a). destruct (k a) as [l' r']. simpl in *.
    destruct Hs as [->| ->]; [done|by apply batched_cons_called].
  - destruct Hs as [->| ->];
      [by exists [], [], [], []; split; [|right]
      |by exists [ev], [], [], []; split; [|right]].
  - destruct Hs as [->| ->];
      [by exists [], [], [], []; split; [|right]
      |by exists [ev], [], [], []; split; [|right]].
  - destruct Hs as [->| ->];
      [by exists [], [], [], []; split; [|right]
      |by exists [ev], [], [], []; split; [|right]].
Qed.

Lemma batched_flushAll {X} (env : Environment X) (sorter : Sorter)
    (w : World X) :
  batched (flushAll env sorter w).1.
Proof.
  destruct (flushAll_shape env sorter w) as (rs & fl & ds & -> & H).
  by exists [], rs, fl, ds.
Qed.

(** X7.  Consume works in batches, whatever the functions it calls do: it
    calls no re-render before it has found the queue empty, and no
    deferred function before the flush has returned; its log is a run of
    event functions, then a run of re-renders, then the deferred
    functions.  When it returns, it has flushed and the deferred buffer is
    empty.  ConsumeNext, when it receives an event, does the same. *)
Theorem consume_works_in_batches {X} (env : Environment X) (sorter : Sorter)
    (w : World X) :
  (∀ fuel,
     batched (Consume env sorter fuel w).1
     ∧ ∀ w', (Consume env sorter fuel w).2 = Done w' →
         defers (eng w') = [] ∧ Flushed ∈ (Consume env sorter fuel w).1)
  ∧ batched (ConsumeNext env sorter w).1
  ∧ (∀ w', events (eng w) ≠ [] →
       (ConsumeNext env sorter w).2 = Done w' →
       defers (eng w') = [] ∧ Flushed ∈ (ConsumeNext env sorter w).1).
Proof.
  split_and!.
  - intros fuel. revert w. induction fuel as [|fuel IH]; intros w; simpl.
    + destruct (events (eng w)) as [|ev rest].
      * split; [apply batched_flushAll|]. intros w' Hw'.
        destruct (flushAll env sorter w) as [l r] eqn:E. simpl in *. subst r.
        by eapply flushAll_clears.
      * split; [by exists [], [], [], []; split; [|right]|done].
    + destruct (events (eng w)) as [|ev rest].
      * split; [apply batched_flushAll|]. intros w' Hw'.
        destruct (flushAll env sorter w) as [l r] eqn:E. simpl in *. subst r.
        by eapply flushAll_clears.
      * split; [apply batched_handleEvent; intros; apply IH|].
        intros w'.
        destruct (handleEvent env ev (withEvents rest w)) as [l [a| | |p]];
          simpl; try done.
        destruct (IH a) as [_ Ha].
        destruct (Consume env sorter fuel a) as [l' r']. simpl in *.
        intros ->. destruct (Ha w' eq_refl) as [? ?]. split; [done|].
        apply elem_of_app. by right.
  - unfold ConsumeNext. destruct (events (eng w)) as [|ev rest].
    + by exists [], [], [], []; split; [|right].
    + apply batched_handleEvent. intros. apply batched_flushAll.
  - intros w' Hne. unfold ConsumeNext.
    destruct (events (eng w)) as [|ev rest]; [done|].
    destruct (handleEvent env ev (withEvents rest w)) as [l [a| | |p]];
      simpl; try done.
    destruct (flushAll env sorter a) as [l' r'] eqn:E. simpl. intros ->.
    destruct (flushAll_clears _ _ _ _ _ E) as [? ?]. split; [done|].
    apply elem_of_app. by right.
Qed.

Lemma consume_works_in_batches_witness :
  ∃ v1 v2 v3,
    Defer None (Some (FnUser 8)) chainWorld = Done v1
    ∧ Dispatch None (Some (FnUser 7)) v1 = Done v2
    ∧ Consume quietEnv mergeSorter 2 v2
      = ([Called (Event 1 false (Some (FnUser 7))); Rendered 1; Flushed;
          CalledDeferred (Event 1 true (Some (FnUser 8)))], Done v3)
    ∧ defers (eng v3) = [].
Proof.
  eexists. eexists. eexists. split; [vm_compute; reflexivity|].
  split; [vm_compute; reflexivity|]. split; [vm_compute; reflexivity|].
  match goal with
  | |- defers (eng ?v) = [] =>
      destruct (consume_works_in_batches quietEnv mergeSorter
                  (withEvents [Event 1 true (Some (FnUser 8));
                               Event 1 false (Some (FnUser 7))] chainWorld))
        as (H & _);
      destruct (H 2) as [_ H2]; apply (H2 v); vm_compute; reflexivity
  end.
Defined.

(** ** 8.7 The order in which events are handled *)

Lemma calledEvents_app l1 l2 :
  calledEvents (l1 ++ l2) = calledEvents l1 ++ calledEvents l2.
Proof. apply omap_app. Qed.

Lemma calledEvents_flushAll {X} (env : Environment X) (sorter : Sorter)
    (w : World X) :
  calledEvents (flushAll env sorter w).1 = [].
Proof.
  destruct (flushAll_shape env sorter w) as (rs & fl & ds & -> & H).
  rewrite !calledEvents_app.
  assert (calledEvents (Rendered <$> rs) = []) as -> by (clear; by induction rs).
  assert (calledEvents (CalledDeferred <$> ds) = []) as -> by (clear; by induction ds).
  by destruct H as [-> | [-> _]].
Qed.

Lemma runnable_mounted t t' ev :
  mountedNodes t' = mountedNodes t → runnable t' ev ↔ runnable t ev.
Proof. unfold runnable. by intros ->. Qed.

Lemma handleEvent_called {X} (env : Environment X) ev (w : World X) :
  functionsAppendEvents (callFunc env) →
  (handleEvent env ev w).1
  = (if decide (runnable (ui w) ev) then [Called ev] else [])
  ∧ ∀ w2, (handleEvent env ev w).2 = Done w2 →
      events (eng w) `prefix_of` events (eng w2)
      ∧ mountedNodes (ui w2) = mountedNodes (ui w).
Proof.
  intros Hcall.
  assert (∀ w1 : World X,
            ∀ w2, (lift (scheduleComponentUpdate (source ev) w1)).2 = Done w2 →
              events (eng w2) = events (eng w1) ∧ ui w2 = ui w1) as Hs.
  { intros w1 w2. simpl. intros H.
    by destruct (schedule_cases _ _ _ H) as [->|(c & d & -> & _)]. }
  unfold handleEvent, execEvent, Mounted.
  destruct (deferable ev) eqn:Hd.
  { rewrite decide_False by (intros [? _]; congruence). split; [done|].
    simpl. by intros w2 [= <-]. }
  destruct (decide (source ev ∈ mountedNodes (ui w))) as [Hm|Hm].
  2: { rewrite (bool_decide_eq_false_2 _ Hm).
       rewrite decide_False by (by intros (_ & ? & _)).
       simpl. split; [done|]. intros w2 H2.
       destruct (Hs w w2 H2) as [-> ->]. done. }
  rewrite (bool_decide_eq_true_2 _ Hm).
  destruct (function ev) as [f|] eqn:Hf.
  2: { rewrite decide_False by (intros (_ & _ & [? ?]); congruence).
       simpl. split; [done|]. intros w2 H2.
       destruct (Hs w w2 H2) as [-> ->]. done. }
  rewrite decide_True by (split_and!; [done|done|by eexists]).
  destruct (callFunc env f (source ev) w) as [w1| | |p] eqn:Hc; simpl;
    try done.
  destruct (Hcall _ _ _ _ Hc) as [Hp Hmn]. split; [done|].
  intros w2 H2. destruct (Hs w1 w2 H2) as [-> ->]. done.
Qed.

Lemma Consume_called {X} (env : Environment X) (sorter : Sorter) fuel
    (w : World X) q extra :
  functionsAppendEvents (callFunc env) →
  events (eng w) = q ++ extra →
  (calledEvents (Consume env sorter fuel w).1
     `prefix_of` filter (runnable (ui w)) q
   ∨ filter (runnable (ui w)) q
       `prefix_of` calledEvents (Consume env sorter fuel w).1)
  ∧ (∀ w', (Consume env sorter fuel w).2 = Done w' →
       filter (runnable (ui w)) q
         `prefix_of` calledEvents (Consume env sorter fuel w).1).
Proof.
  intros Hcall. revert w q extra.
  induction fuel as [|fuel IH]; intros w q extra Hq; simpl.
  - destruct (events (eng w)) as [|ev rest] eqn:E.
    + symmetry in Hq. apply app_eq_nil in Hq as [-> ->].
      rewrite calledEvents_flushAll. by split; [left|].
    + simpl. split; [left; apply prefix_nil|done].
  - destruct (events (eng w)) as [|ev rest] eqn:E.
    { symmetry in Hq. apply app_eq_nil in Hq as [-> ->].
      rewrite calledEvents_flushAll. by split; [left|]. }
    destruct q as [|ev' q'].
    { split; [right|intros]; apply prefix_nil. }
    simpl in Hq. injection Hq as <- Hrest.
    destruct (handleEvent_called env ev (withEvents rest w) Hcall) as [Hl Hw2].
    destruct (handleEvent env ev (withEvents rest w)) as [l r].
    simpl in Hl, Hw2. subst l. rewrite filter_cons.
    destruct r as [w2| | |p]; simpl.
    + destruct (Hw2 w2 eq_refl) as [[k Hk] Hmn].
      destruct (IH w2 q' (extra ++ k)) as [IH1 IH2].
      { by rewrite Hk, Hrest, app_assoc. }
      rewrite (list_filter_iff _ _ q' (λ ev, runnable_mounted _ _ ev Hmn))
        in IH1, IH2.
      destruct (Consume env sorter fuel w2) as [l2 r2]. simpl in *.
      rewrite calledEvents_app.
      destruct (decide (runnable (ui w) ev)); simpl; [|done].
      split.
      * destruct IH1; [left|right]; by apply prefix_cons.
      * intros w' Hw'. by apply prefix_cons, (IH2 w').
    + split; [left|done].
      destruct (decide (runnable (ui w) ev)); simpl;
        [apply prefix_cons|]; apply prefix_nil.
    + split; [left|done].
      destruct (decide (runnable (ui w) ev)); simpl;
        [apply prefix_cons|]; apply prefix_nil.
    + split; [left|done].
      destruct (decide (runnable (ui w) ev)); simpl;
        [apply prefix_cons|]; apply prefix_nil.
Qed.

Lemma quietEnv_appends : functionsAppendEvents (callFunc quietEnv).
Proof.
  intros f s w w'. destruct f; simpl; try (by intros [= <-]).
  unfold mountBody, replaceBodyChild. simpl.
  repeat case_match; simpl; intros; by simplify_eq.
Qed.

(** X8.  Events are handled first in, first out.  When the functions of
    events take nothing out of the queue (they may send further events)
    and mount or dismount nothing, the functions Consume calls start with
    those of the events that were in the queue when it was called, in the
    order of the queue, for the events that are not deferrable, have a
    mounted source and carry a function: at any point Consume has called
    a prefix of them, and when it returns it has called them all before
    any event sent meanwhile. *)
Theorem consume_handles_events_in_queue_order {X} (env : Environment X)
    (sorter : Sorter) (fuel : nat) (w : World X) :
  functionsAppendEvents (callFunc env) →
  (calledEvents (Consume env sorter fuel w).1
     `prefix_of` filter (runnable (ui w)) (events (eng w))
   ∨ filter (runnable (ui w)) (events (eng w))
       `prefix_of` calledEvents (Consume env sorter fuel w).1)
  ∧ (∀ w', (Consume env sorter fuel w).2 = Done w' →
       filter (runnable (ui w)) (events (eng w))
         `prefix_of` calledEvents (Consume env sorter fuel w).1).
Proof.
  intros Hcall. apply (Consume_called env sorter fuel w _ []); [done|].
  by rewrite app_nil_r.
Qed.

Lemma consume_handles_events_in_queue_order_witness :
  ∃ w',
    Consume quietEnv mergeSorter 4
      (withEvents [Event 3 false (Some (FnUser 7));
                   Event 9 false (Some (FnUser 8));
                   Event 2 false None;
                   Event 1 false (Some (FnUser 9))] chainWorld)
    = ([Called (Event 3 false (Some (FnUser 7)));
        Called (Event 1 false (Some (FnUser 9)));
        Rendered 1; Rendered 2; Rendered 3; Flushed], Done w')
    ∧ [Event 3 false (Some (FnUser 7)); Event 1 false (Some (FnUser 9))]
        `prefix_of`
        calledEvents
          (Consume quietEnv mergeSorter 4
             (withEvents [Event 3 false (Some (FnUser 7));
                          Event 9 false (Some (FnUser 8));
                          Event 2 false None;
                          Event 1 false (Some (FnUser 9))] chainWorld)).1.
Proof.
  eexists. split; [vm_compute; reflexivity|].
  destruct (consume_handles_events_in_queue_order quietEnv mergeSorter 4
              (withEvents [Event 3 false (Some (FnUser 7));
                           Event 9 false (Some (FnUser 8));
                           Event 2 false None;
                           Event 1 false (Some (FnUser 9))] chainWorld)
              quietEnv_appends) as [_ H].
  eapply H. vm_compute. reflexivity.
Defined.

(** ** 8.8 The drain of the deferred buffer *)

Lemma deferLoop_returns {X} (env : Environment X) evs (w : World X) :
  functionsReturn (callFunc env) evs →
  Forall (λ ev, is_Some (function ev)) evs →
  ∃ w',
    deferLoop env evs w
    = (CalledDeferred <$> filter (λ ev, source ev ∈ mountedNodes (ui w)) evs,
       Done w')
    ∧ mountedNodes (ui w') = mountedNodes (ui w).
Proof.
  revert w. induction evs as [|ev evs IH]; intros w Hret Hf.
  { by exists w. }
  assert (functionsReturn (callFunc env) evs) as Hret'.
  { intros ev' f' w0 Hin. apply Hret. by right. }
  apply Forall_cons in Hf as [[f Hf] Hfs]. simpl. rewrite filter_cons.
  unfold Mounted.
  destruct (decide (source ev ∈ mountedNodes (ui w))) as [Hm|Hm].
  - rewrite (bool_decide_eq_true_2 _ Hm), Hf.
    destruct (Hret ev f w) as (w1 & -> & Hmn); [by left|done|].
    destruct (IH w1 Hret' Hfs) as (w' & -> & Hmn'). simpl.
    exists w'. rewrite Hmn. split; [done|congruence].
  - rewrite (bool_decide_eq_false_2 _ Hm). by apply IH.
Qed.

(** X9.  When the deferred events all carry a function and the functions
    return without mounting or dismounting a node, the drain returns, has
    called the function of every deferred event whose source is mounted,
    once and in the order in which the events were received, has called
    nothing else, and leaves the buffer empty. *)
Theorem drain_calls_mounted_deferred_in_order {X} (env : Environment X)
    (w : World X) :
  functionsReturn (callFunc env) (defers (eng w)) →
  Forall (λ ev, is_Some (function ev)) (defers (eng w)) →
  ∃ w',
    execDeferableEvents env w
    = (CalledDeferred
         <$> filter (λ ev, source ev ∈ mountedNodes (ui w)) (defers (eng w)),
       Done w')
    ∧ defers (eng w') = []
    ∧ mountedNodes (ui w') = mountedNodes (ui w).
Proof.
  intros Hret Hf. unfold execDeferableEvents.
  destruct (deferLoop_returns env (defers (eng w)) w Hret Hf)
    as (w1 & -> & Hmn).
  exists (withDefers [] w1). simpl. by rewrite app_nil_r.
Qed.

Lemma drain_calls_mounted_deferred_in_order_witness :
  ∃ w',
    execDeferableEvents quietEnv
      (withDefers [Event 2 true (Some (FnUser 7));
                   Event 9 true (Some (FnUser 8));
                   Event 1 true (Some (FnUser 9))] chainWorld)
    = ([CalledDeferred (Event 2 true (Some (FnUser 7)));
        CalledDeferred (Event 1 true (Some (FnUser 9)))], Done w')
    ∧ defers (eng w') = [].
Proof.
  destruct (drain_calls_mounted_deferred_in_order quietEnv
              (withDefers [Event 2 true (Some (FnUser 7));
                           Event 9 true (Some (FnUser 8));
                           Event 1 true (Some (FnUser 9))] chainWorld)
           ) as (w' & H1 & H2 & _).
  - intros ev f w Hin Hf. simpl in Hin.
    repeat (apply elem_of_cons in Hin as [->|Hin]);
      [..|by apply elem_of_nil in Hin]; simpl in Hf; simplify_eq;
      by exists w.
  - by_evaluation.
  - exists w'. split; [|exact H2]. rewrite H1. vm_compute. reflexivity.
Defined.

(** ** 8.9 From an event to the re-render of its Composer *)

(** X10.  An event that is received re-renders the component it comes
    from.  When ConsumeNext receives an event that is not deferrable and
    whose source is still mounted after its function has run, the flush
    that follows re-renders the nearest enclosing Composer of the source,
    provided that Composer is mounted, the re-renders are quiet and every
    pending Composer has a batch entry.  This holds also for an event
    without a function, as Emit sends them. *)
Theorem event_rerenders_enclosing_composer {X} (env : Environment X)
    (sorter : Sorter) (w : World X) ev rest l w1 c above :
  rendersQuietly env →
  events (eng w) = ev :: rest →
  deferable ev = false →
  execEvent env ev (withEvents rest w) = (l, Done w1) →
  Mounted (ui w1) (source ev) = true →
  enclosedBy (ui w1) (source ev) c above →
  c ∈ mountedNodes (ui w1) →
  pendingQueued w1 →
  ∃ rs l' r,
    ConsumeNext env sorter w = (l ++ (Rendered <$> rs) ++ Flushed :: l', r)
    ∧ c ∈ rs ∧ NoDup rs.
Proof.
  intros Hquiet Hev Hd Hexec Hm Henc Hcm Hinv.
  assert (∃ w2, scheduleComponentUpdate (source ev) w1 = Done w2
                ∧ c ∈ updates (eng w2)
                ∧ c ∈ compo <$> updateQueue (eng w2)
                ∧ ui w2 = ui w1) as (w2 & Hs & Hp & Hq & Hui).
  { rewrite (schedule_enclosing _ _ _ _ Hm Henc).
    destruct (decide (c ∈ updates (eng w1))) as [Hc|Hc].
    - rewrite (bool_decide_eq_true_2 _ Hc). exists w1.
      split_and!; [done|done|by apply Hinv|done].
    - rewrite (bool_decide_eq_false_2 _ Hc). eexists. split; [done|].
      simpl. rewrite fmap_app. set_solver. }
  unfold ConsumeNext. rewrite Hev. unfold handleEvent. rewrite Hd, Hexec.
  cbn [rbind lift]. rewrite Hs. unfold flushAll, updateComponents.
  destruct (decide (size (updates (eng w2)) = 0)) as [Hz|Hnz].
  { apply size_empty_inv in Hz. set_solver. }
  destruct (updateLoop_quiet_any env (sorter (updateQueue (eng w2)))
              (withUpdateQueue (sorter (updateQueue (eng w2))) w2) Hquiet)
    as (w3 & rs & Hloop & _ & _ & Hnd & Hiff).
  rewrite Hloop. cbn [rbind].
  destruct (execDeferableEvents env (withUpdateQueue [] w3)) as [l' r].
  exists rs, l', r. split_and!; [|apply Hiff; simpl|done].
  - f_equal. by rewrite app_nil_r, <- !app_assoc.
  - split_and!; [by rewrite (sortSlice_perm sorter)|by rewrite Hui|done].
Qed.

Lemma event_rerenders_enclosing_composer_witness :
  ∃ rs l' r,
    ConsumeNext quietEnv mergeSorter
      (withEvents [Event 3 false (Some (FnUser 7))] chainWorld)
    = ([Called (Event 3 false (Some (FnUser 7)))]
         ++ (Rendered <$> rs) ++ Flushed :: l', r)
    ∧ 3%N ∈ rs ∧ NoDup rs.
Proof.
  apply (event_rerenders_enclosing_composer quietEnv mergeSorter
           (withEvents [Event 3 false (Some (FnUser 7))] chainWorld)
           (Event 3 false (Some (FnUser 7))) []
           [Called (Event 3 false (Some (FnUser 7)))]
           (withEvents [] chainWorld) 3%N [2%N; 1%N]).
  - intros c w. exists w. repeat split.
  - reflexivity.
  - reflexivity.
  - vm_compute. reflexivity.
  - vm_compute. reflexivity.
  - exists []. split_and!; [vm_compute; reflexivity|constructor|by_evaluation].
  - by_evaluation.
  - intros c Hc. simpl in Hc. set_solver.
Defined.

(** ** 8.10 The keys of the registry *)

Lemma dashFree_of_pos n p rest :
  Pos.size_nat p ≤ n →
  dashFree (HexString.Raw.of_pos p rest) = dashFree rest.
Proof.
  revert p rest. induction n as [|n IH]; intros p rest Hn.
  { destruct p; simpl in Hn; lia. }
  do 4 try destruct p as [p|p|]; try reflexivity;
    cbn [HexString.Raw.of_pos]; (rewrite IH; [reflexivity|simpl in Hn; lia]).
Qed.

Lemma dashFree_fmtPointer p : dashFree (fmtPointer p) = true.
Proof.
  destruct p as [|p]; [reflexivity|].
  unfold fmtPointer, HexString.of_N, HexString.of_pos. cbn [dashFree].
  by rewrite (dashFree_of_pos (Pos.size_nat p)).
Qed.

Lemma dashFree_fmtUI s : dashFree (fmtUI s) = true.
Proof. destruct s as [p|]; [apply dashFree_fmtPointer|reflexivity]. Qed.

Lemma dashFree_split s1 s1' s2 s2' :
  dashFree s1 = true → dashFree s1' = true →
  s1 +:+ "-" +:+ s2 = s1' +:+ "-" +:+ s2' → s1 = s1' ∧ s2 = s2'.
Proof.
  assert (∀ t, "" +:+ t = t) as Hnil by done.
  assert (∀ a s t, String a s +:+ t = String a (s +:+ t)) as Hcons by done.
  revert s1'. induction s1 as [|a s1 IH]; intros [|a' s1'] H1 H1';
    rewrite ?Hcons, ?Hnil; simpl in H1, H1'.
  - by intros [= ->].
  - intros [= <- _]. cbn in H1'. discriminate.
  - intros [= -> _]. cbn in H1. discriminate.
  - intros [= -> H]. apply andb_prop in H1 as [_ H1].
    apply andb_prop in H1' as [_ H1'].
    destruct (IH s1' H1 H1' H) as [-> ->]. done.
Qed.

Lemma fmtPointer_inj p q : fmtPointer p = fmtPointer q → p = q.
Proof.
  unfold fmtPointer. intros H. apply (f_equal HexString.to_N) in H.
  by rewrite !HexString.to_N_of_N in H.
Qed.

Lemma fmtUI_inj s s' : fmtUI s = fmtUI s' → s = s'.
Proof.
  destruct s as [p|], s' as [q|]; simpl.
  - intros H%fmtPointer_inj. by subst.
  - unfold fmtPointer. destruct p; simpl; discriminate.
  - unfold fmtPointer. destruct q; simpl; discriminate.
  - done.
Qed.

Lemma msgKey_inj s h s' h' :
  msgKey s h = msgKey s' h' ↔ s = s' ∧ codePtr h = codePtr h'.
Proof.
  unfold msgKey. split; [|by intros [-> ->]].
  intros H. apply dashFree_split in H as [H1 H2]; try apply dashFree_fmtUI.
  by apply fmtUI_inj in H1; apply fmtPointer_inj in H2.
Qed.

(** X11.  The key of a registration tells the subscriber and the code of
    the handler, and nothing else: two registrations have the same key
    exactly when they have the same subscriber and the same handler code
    pointer.  So registrations under one topic that differ in the
    subscriber or in the handler code are both kept, whatever the order in
    which they are made, and a registration leaves the other topics as
    they are. *)
Theorem distinct_registrations_coexist {X} (w : World X) (msg : string)
    (s s' : option N) (h h' : MsgHandler) :
  (msgKey s h = msgKey s' h' ↔ s = s' ∧ codePtr h = codePtr h')
  ∧ ((s, codePtr h) ≠ (s', codePtr h') →
     Handle msg s' h' (Handle msg s h w) = Handle msg s h (Handle msg s' h' w)
     ∧ ∃ handlers,
         handlersOf msg (Handle msg s' h' (Handle msg s h w)) = Some handlers
         ∧ handlers !! msgKey s h = Some {| src := s; hfunction := h |}
         ∧ handlers !! msgKey s' h' = Some {| src := s'; hfunction := h' |}
         ∧ ∀ k, k ≠ msgKey s h → k ≠ msgKey s' h' →
             handlers !! k = default ∅ (handlersOf msg w) !! k)
  ∧ (∀ msg', msg' ≠ msg →
       handlersOf msg' (Handle msg s h w) = handlersOf msg' w).
Proof.
  split; [apply msgKey_inj|]. split; [|intros; by apply Handle_other].
  intros Hne.
  assert (msgKey s h ≠ msgKey s' h') as Hkey.
  { rewrite msgKey_inj. intros [-> Hc]. by rewrite Hc in Hne. }
  split.
  - unfold Handle at 1 3. rewrite !Handle_handlers. simpl.
    unfold Handle, withMessages, onEngine. simpl.
    rewrite !insert_insert_eq. by rewrite (insert_insert_ne _ _ _ _ _ Hkey).
  - eexists. split; [apply Handle_handlers|]. rewrite Handle_handlers. simpl.
    split_and!.
    + rewrite lookup_insert_ne by done. apply lookup_insert_eq.
    + apply lookup_insert_eq.
    + intros k Hk Hk'. by rewrite !lookup_insert_ne.
Qed.

Lemma distinct_registrations_coexist_witness :
  Handle "x" (Some 3%N) handlerA (Handle "x" (Some 2%N) handlerA chainWorld)
  = Handle "x" (Some 2%N) handlerA (Handle "x" (Some 3%N) handlerA chainWorld)
  ∧ ∃ handlers,
      handlersOf "x"
        (Handle "x" (Some 3%N) handlerA (Handle "x" (Some 2%N) handlerA chainWorld))
      = Some handlers
      ∧ size handlers = 2.
Proof.
  destruct (distinct_registrations_coexist chainWorld "x" (Some 2%N) (Some 3%N)
              handlerA handlerA) as (_ & H & _).
  destruct H as (H1 & handlers & H2 & _); [discriminate|].
  split; [exact H1|]. exists handlers. split; [exact H2|].
  vm_compute in H2. injection H2 as <-. vm_compute. reflexivity.
Defined.

(** ** 8.11 One call of a handler for a post *)

Lemma NoDup_omap_inj {A B} (f : A → option B) (l : list A) :
  NoDup l →
  (∀ x y z, x ∈ l → y ∈ l → f x = Some z → f y = Some z → x = y) →
  NoDup (omap f l).
Proof.
  induction 1 as [|x l Hx Hnd IH]; intros Hinj; simpl; [constructor|].
  assert (NoDup (omap f l)) as Hrest.
  { apply IH. intros a b z Ha Hb. apply Hinj; by right. }
  destruct (f x) as [z|] eqn:Hfx; [|done].
  constructor; [|done]. rewrite list_elem_of_omap. intros (y & Hy & Hfy).
  destruct Hx. by rewrite (Hinj x y z); [|left|right|..].
Qed.

Lemma keyed_subseteq (h1 h2 : gmap string msgHandler) :
  h1 ⊆ h2 → keyed h2 → keyed h1.
Proof.
  intros Hsub Hk k e He. apply Hk. by eapply lookup_weaken.
Qed.

Lemma postLoop_subseteq {X} order v handlers (w : World X) handlers' w' :
  postLoop order v handlers w = Done (handlers', w') → handlers' ⊆ handlers.
Proof.
  revert handlers w. induction order as [|[k h] order IH]; intros handlers w.
  { simpl. by intros [= <- _]. }
  simpl. destruct (src h) as [s|]; [|done].
  destruct (Dispatch (Some s) (Some (FnPost (hfunction h) v)) w)
    as [w1| | |p]; simpl; try done.
  intros Hloop%IH. etrans; [done|].
  destruct (Mounted (ui w) s); simpl; [done|apply delete_subseteq].
Qed.

Lemma Handle_keyed {X} msg s h (w : World X) :
  registryKeyed w → registryKeyed (Handle msg s h w).
Proof.
  intros Hk msg' handlers. destruct (decide (msg' = msg)) as [->|Hne].
  - rewrite Handle_handlers. intros [= <-] k e.
    destruct (decide (k = msgKey s h)) as [->|Hkey].
    + rewrite lookup_insert_eq. by intros [= <-].
    + rewrite lookup_insert_ne by done.
      destruct (handlersOf msg w) as [old|] eqn:Hold; simpl; [|done].
      by apply (Hk msg old).
  - rewrite Handle_other by done. apply Hk.
Qed.

Lemma Post_keyed {X} order msg v (w w' : World X) :
  registryKeyed w → Post order msg v w = Done w' → registryKeyed w'.
Proof.
  intros Hk. unfold Post.
  destruct (handlersOf msg w) as [handlers|] eqn:Hh; [|by intros [= <-]].
  destruct (postLoop order v handlers w) as [[h1 w1]| | |p] eqn:Hloop; simpl;
    try done.
  intros [= <-] msg' handlers'. unfold handlersOf. simpl.
  destruct (postLoop_frame _ _ _ _ _ _ Hloop) as (_ & _ & _ & Hm & _).
  destruct (decide (msg' = msg)) as [->|Hne].
  - rewrite lookup_insert_eq. intros [= <-].
    apply (keyed_subseteq _ handlers); [by eapply postLoop_subseteq|].
    by apply (Hk msg).
  - rewrite lookup_insert_ne, Hm by done. apply Hk.
Qed.

Lemma closeMessageHandlers_keyed {X} (w w' : World X) :
  registryKeyed w → closeMessageHandlers w = Done w' → registryKeyed w'.
Proof.
  intros Hk. unfold closeMessageHandlers. case_bool_decide; [done|].
  intros [= <-] msg handlers. unfold handlersOf. simpl.
  rewrite lookup_fmap.
  destruct (messages (eng w) !! msg) as [old|] eqn:Hold; simpl; [|done].
  intros [= <-]. apply (keyed_subseteq _ old); [apply map_filter_subseteq|].
  by apply (Hk msg).
Qed.

Lemma postEvents_NoDup t v order (handlers : gmap string msgHandler) :
  keyed handlers → rangeOrder handlers order → NoDup (postEvents t v order).
Proof.
  intros Hk Horder. unfold postEvents. apply NoDup_omap_inj.
  { unfold rangeOrder in Horder. rewrite Horder. apply NoDup_map_to_list. }
  intros [k e] [k' e'] ev Hin Hin'. unfold rangeOrder in Horder.
  rewrite Horder in Hin, Hin'.
  apply elem_of_map_to_list in Hin, Hin'. simpl.
  unfold postEvent. destruct (subscriberMounted t e); [|done].
  destruct (subscriberMounted t e'); [|done].
  destruct (src e) as [s|] eqn:Hs; [|done].
  destruct (src e') as [s'|] eqn:Hs'; [|done].
  intros [= <-] [= <- Hf].
  assert (e = e') as <-.
  { destruct e, e'. simpl in *. congruence. }
  by rewrite (Hk _ _ Hin), (Hk _ _ Hin').
Qed.

Lemma postLoop_sent {X} order v handlers (w : World X) handlers' w' :
  postLoop order v handlers w = Done (handlers', w') →
  events (eng w') = events (eng w) ++ postEvents (ui w) v order.
Proof.
  revert handlers w. induction order as [|[k h] order IH]; intros handlers w.
  { simpl. intros [= _ <-]. by rewrite app_nil_r. }
  simpl. destruct (src h) as [s|] eqn:Hs; [|done].
  destruct (Dispatch (Some s) (Some (FnPost (hfunction h) v)) w)
    as [w1| | |p] eqn:Hd; simpl; try done.
  intros Hloop%IH. rewrite Hloop. unfold postEvents at 2. simpl.
  unfold subscriberMounted, postEvent. rewrite Hs.
  unfold Dispatch, enqueue, send in Hd.
  destruct (Mounted (ui w) s) eqn:Hm.
  - destruct (decide _); [|done]. injection Hd as <-. simpl.
    by rewrite <- app_assoc.
  - by injection Hd as <-.
Qed.

(** X12.  In a registry filled by Handle every entry is stored under the
    key of its own subscriber and handler; Handle, Post and
    closeMessageHandlers keep it so.  In such a registry a post sends no
    event twice: when Post returns, the events it has added to the queue
    are pairwise different, one for each handler of the topic whose
    subscriber is mounted, in whatever order the entries are visited. *)
Theorem post_sends_one_event_per_handler {X} (w : World X) :
  registryKeyed w →
  (∀ msg s h, registryKeyed (Handle msg s h w))
  ∧ (∀ order msg v w', Post order msg v w = Done w' → registryKeyed w')
  ∧ (∀ w', closeMessageHandlers w = Done w' → registryKeyed w')
  ∧ (∀ msg handlers order v w',
       handlersOf msg w = Some handlers →
       rangeOrder handlers order →
       Post order msg v w = Done w' →
       events (eng w') = events (eng w) ++ postEvents (ui w) v order
       ∧ NoDup (postEvents (ui w) v order)).
Proof.
  intros Hk. split_and!.
  - intros. by apply Handle_keyed.
  - intros. by eapply Post_keyed.
  - intros. by eapply closeMessageHandlers_keyed.
  - intros msg handlers order v w' Hh Horder HP. split.
    + unfold Post in HP. rewrite Hh in HP.
      destruct (postLoop order v handlers w) as [[h1 w1]| | |p] eqn:Hloop;
        simpl in HP; try done.
      injection HP as <-. simpl. by eapply postLoop_sent.
    + eapply postEvents_NoDup; [by apply (Hk msg)|done].
Qed.

Lemma post_sends_one_event_per_handler_witness :
  ∃ w',
    Post (map_to_list busHandlers) "x" 5%N busWorld = Done w'
    ∧ events (eng w')
      = events (eng busWorld)
        ++ postEvents (ui busWorld) 5%N (map_to_list busHandlers)
    ∧ NoDup (postEvents (ui busWorld) 5%N (map_to_list busHandlers))
    ∧ registryKeyed w'.
Proof.
  assert (registryKeyed busWorld) as Hk.
  { apply Handle_keyed, Handle_keyed. intros msg handlers H.
    vm_compute in H. discriminate. }
  destruct (post_sends_one_event_per_handler busWorld Hk)
    as (_ & H2 & _ & H4).
  eexists. split; [vm_compute; reflexivity|].
  match goal with
  | |- events (eng ?v) = _ ∧ _ =>
      assert (Post (map_to_list busHandlers) "x" 5%N busWorld = Done v) as HP
        by (vm_compute; reflexivity)
  end.
  destruct (H4 "x" busHandlers (map_to_list busHandlers) 5%N _
              ltac:(vm_compute; reflexivity) ltac:(unfold rangeOrder; reflexivity) HP)
    as [H5 H6].
  split; [exact H5|]. split; [exact H6|]. exact (H2 _ _ _ _ HP).
Defined.

(** ** 8.12 Cleaning the registry *)

Lemma closeHandlers_spec order t (handlers : gmap string msgHandler) :
  closeHandlers order t handlers
  = if bool_decide (Exists (λ kh : string * msgHandler, src kh.2 = None) order)
    then Panicked NilDereference
    else Done (pruned t order handlers).
Proof.
  revert handlers. induction order as [|[k h] order IH]; intros handlers.
  { rewrite bool_decide_eq_false_2; [done|]. by intros ?%Exists_nil. }
  cbn [closeHandlers]. destruct (src h) as [s|] eqn:Hs.
  - rewrite IH.
    assert (pruned t ((k, h) :: order) handlers
            = pruned t order
                (if negb (Mounted t s) then delete k handlers else handlers))
      as ->.
    { unfold pruned. cbn [foldl]. unfold subscriberMounted at 2. cbn [snd fst].
      rewrite Hs. by destruct (Mounted t s). }
    rewrite (bool_decide_ext
               (Exists (λ kh : string * msgHandler, src kh.2 = None)
                       ((k, h) :: order))
               (Exists (λ kh : string * msgHandler, src kh.2 = None) order));
      [done|].
    rewrite Exists_cons. cbn [snd]. rewrite Hs. naive_solver.
  - rewrite bool_decide_eq_true_2; [done|]. by apply Exists_cons_hd.
Qed.

Lemma foldl_insert_lookup {A} (f : A → A) (l : list (string * A))
    (acc : gmap string A) k :
  NoDup l.*1 →
  foldl (λ m kh, <[kh.1 := f kh.2]> m) acc l !! k
  = match (list_to_map l : gmap string A) !! k with
    | Some a => Some (f a)
    | None => acc !! k
    end.
Proof.
  revert acc. induction l as [|[k0 a0] l IH]; intros acc Hnd; [done|].
  simpl in *. apply NoDup_cons in Hnd as [Hk0 Hnd]. rewrite IH by done.
  destruct (decide (k = k0)) as [->|Hne].
  - rewrite lookup_insert_eq.
    rewrite (not_elem_of_list_to_map_1 _ _ Hk0). by rewrite lookup_insert_eq.
  - by rewrite !lookup_insert_ne.
Qed.

Lemma foldl_insert_fmap {A} (f : A → A) (m : gmap string A)
    (l : list (string * A)) :
  l ≡ₚ map_to_list m →
  foldl (λ m kh, <[kh.1 := f kh.2]> m) m l = f <$> m.
Proof.
  intros Hl. apply map_eq. intros k.
  assert (NoDup l.*1) as Hnd.
  { rewrite Hl. apply NoDup_fst_map_to_list. }
  rewrite foldl_insert_lookup by done.
  rewrite (list_to_map_proper l (map_to_list m)), list_to_map_to_list,
    lookup_fmap by done.
  by destruct (m !! k).
Qed.

Lemma closeTopics_spec topics inner t
    (registry : gmap string (gmap string msgHandler)) :
  (∀ msg handlers, (msg, handlers) ∈ topics →
     rangeOrder handlers (inner msg)) →
  closeTopics topics inner t registry
  = if bool_decide
         (Exists (λ topic : string * gmap string msgHandler,
                    Exists (λ kh : string * msgHandler, src kh.2 = None)
                           (map_to_list topic.2))
                 topics)
    then Panicked NilDereference
    else Done (foldl (λ m kh, <[kh.1 := mountedHandlers t kh.2]> m)
                     registry topics).
Proof.
  revert registry.
  induction topics as [|[msg handlers] topics IH]; intros registry Horder.
  { rewrite bool_decide_eq_false_2; [done|]. by intros ?%Exists_nil. }
  cbn [closeTopics]. rewrite closeHandlers_spec.
  assert (rangeOrder handlers (inner msg)) as Hmsg by (apply Horder; by left).
  assert (Exists (λ kh : string * msgHandler, src kh.2 = None) (inner msg)
          ↔ Exists (λ kh : string * msgHandler, src kh.2 = None)
                   (map_to_list handlers)) as Hperm.
  { unfold rangeOrder in Hmsg. by rewrite Hmsg. }
  destruct (decide (Exists (λ kh : string * msgHandler, src kh.2 = None)
                           (map_to_list handlers))) as [Hnil|Hnil].
  - rewrite bool_decide_eq_true_2 by (by apply Hperm). cbn [bind].
    rewrite bool_decide_eq_true_2; [done|]. by apply Exists_cons_hd.
  - rewrite bool_decide_eq_false_2 by (by rewrite Hperm). cbn [bind].
    rewrite IH by (intros; apply Horder; by right).
    rewrite pruned_rangeOrder by done.
    rewrite (bool_decide_ext
               (Exists (λ topic : string * gmap string msgHandler,
                          Exists (λ kh : string * msgHandler, src kh.2 = None)
                                 (map_to_list topic.2))
                       ((msg, handlers) :: topics))
               (Exists (λ topic : string * gmap string msgHandler,
                          Exists (λ kh : string * msgHandler, src kh.2 = None)
                                 (map_to_list topic.2))
                       topics)); [done|].
    rewrite Exists_cons. cbn [snd]. naive_solver.
Qed.

Lemma closeMessageHandlersLoops_spec {X} topics inner (w : World X) :
  topics ≡ₚ map_to_list (messages (eng w)) →
  (∀ msg handlers, messages (eng w) !! msg = Some handlers →
     rangeOrder handlers (inner msg)) →
  closeMessageHandlersLoops topics inner w = closeMessageHandlers w.
Proof.
  intros Htopics Hinner. unfold closeMessageHandlersLoops, closeMessageHandlers.
  rewrite closeTopics_spec.
  2: { intros msg handlers Hin. apply Hinner.
       rewrite Htopics in Hin. by apply elem_of_map_to_list in Hin. }
  rewrite (bool_decide_ext _
             (Exists (λ topic : string * gmap string msgHandler,
                        Exists (λ kh : string * msgHandler, src kh.2 = None)
                               (map_to_list topic.2))
                     (map_to_list (messages (eng w)))))
    by (by rewrite Htopics).
  case_bool_decide; [done|]. simpl.
  by rewrite (foldl_insert_fmap (mountedHandlers (ui w))).
Qed.

Lemma mountedHandlers_idemp t (handlers : gmap string msgHandler) :
  mountedHandlers t (mountedHandlers t handlers) = mountedHandlers t handlers.
Proof.
  unfold mountedHandlers. apply map_eq. intros k. apply option_eq. intros e.
  rewrite !map_lookup_filter_Some. naive_solver.
Qed.

Lemma closeMessageHandlers_no_nil {X} (w w' : World X) msg handlers k e :
  closeMessageHandlers w = Done w' →
  handlersOf msg w = Some handlers →
  handlers !! k = Some e →
  is_Some (src e).
Proof.
  unfold closeMessageHandlers. case_bool_decide as Hnil; [done|].
  intros _ Hh He. destruct (src e) as [s|] eqn:Hs; [by eexists|].
  destruct Hnil. apply Exists_exists. exists (msg, handlers).
  split; [by apply elem_of_map_to_list|].
  apply Exists_exists. exists (k, e). split; [by apply elem_of_map_to_list|done].
Qed.

(** X13.  closeMessageHandlers gives the same registry whatever the order
    in which its two loops visit the topics and the entries.  When it
    returns, every topic is still there, with exactly its entries whose
    subscriber is mounted: an entry with a mounted subscriber is kept as
    it is, every other entry is gone, and a topic that lost all its
    entries stays in the registry with no entry.  Nothing but the registry
    has changed, and a second cleaning changes nothing. *)
Theorem cleaning_keeps_mounted_subscribers {X} (w : World X)
    (topics : list (string * gmap string msgHandler))
    (inner : string → list (string * msgHandler)) :
  topics ≡ₚ map_to_list (messages (eng w)) →
  (∀ msg handlers, messages (eng w) !! msg = Some handlers →
     rangeOrder handlers (inner msg)) →
  closeMessageHandlersLoops topics inner w = closeMessageHandlers w
  ∧ ∀ w', closeMessageHandlers w = Done w' →
      (∀ msg, handlersOf msg w' = mountedHandlers (ui w) <$> handlersOf msg w)
      ∧ (∀ msg handlers k e,
           handlersOf msg w = Some handlers → handlers !! k = Some e →
           ∃ s handlers',
             src e = Some s
             ∧ handlersOf msg w' = Some handlers'
             ∧ handlers' !! k = if Mounted (ui w) s then Some e else None)
      ∧ dom (messages (eng w')) = dom (messages (eng w))
      ∧ closeMessageHandlers w' = Done w'
      ∧ ui w' = ui w
      ∧ events (eng w') = events (eng w)
      ∧ defers (eng w') = defers (eng w)
      ∧ updates (eng w') = updates (eng w)
      ∧ updateQueue (eng w') = updateQueue (eng w).
Proof.
  intros Htopics Hinner.
  split; [by apply closeMessageHandlersLoops_spec|].
  intros w' Hclose.
  assert (w' = withMessages (mountedHandlers (ui w) <$> messages (eng w)) w)
    as Hw'.
  { unfold closeMessageHandlers in Hclose.
    case_bool_decide; [done|]. by injection Hclose as <-. }
  assert (∀ msg, handlersOf msg w'
                 = mountedHandlers (ui w) <$> handlersOf msg w) as Hall.
  { intros msg. rewrite Hw'. unfold handlersOf. simpl. apply lookup_fmap. }
  split_and!; try (by rewrite Hw').
  - done.
  - intros msg handlers k e Hh He.
    destruct (closeMessageHandlers_no_nil _ _ _ _ _ _ Hclose Hh He)
      as [s Hs].
    exists s, (mountedHandlers (ui w) handlers).
    split; [done|]. split; [by rewrite Hall, Hh|].
    unfold mountedHandlers. destruct (Mounted (ui w) s) eqn:Hm.
    + apply map_lookup_filter_Some_2; [done|]. simpl.
      unfold subscriberMounted. by rewrite Hs.
    + apply map_lookup_filter_None_2. right. intros e' ?. simplify_eq.
      simpl. unfold subscriberMounted. by rewrite Hs, Hm.
  - rewrite Hw'. simpl. apply dom_fmap_L.
  - unfold closeMessageHandlers. rewrite bool_decide_eq_false_2.
    + rewrite Hw'. simpl. f_equal. unfold withMessages, onEngine. simpl.
      do 2 f_equal. rewrite <- map_fmap_compose. apply map_fmap_ext.
      intros msg handlers _. apply mountedHandlers_idemp.
    + rewrite Exists_exists. intros ([msg handlers'] & Hin & Hnil).
      apply elem_of_map_to_list in Hin. apply Exists_exists in Hnil.
      destruct Hnil as ([k e] & Hke & Hsrc). apply elem_of_map_to_list in Hke.
      simpl in *. change (handlersOf msg w' = Some handlers') in Hin.
      rewrite Hall in Hin.
      destruct (handlersOf msg w) as [handlers|] eqn:Hh; [|done].
      injection Hin as <-. unfold mountedHandlers in Hke.
      apply map_lookup_filter_Some in Hke as [Hke _].
      destruct (closeMessageHandlers_no_nil _ _ _ _ _ _ Hclose Hh Hke).
      congruence.
Qed.

Lemma cleaning_keeps_mounted_subscribers_witness :
  ∃ w',
    closeMessageHandlersLoops
      (map_to_list (messages (eng busWorld)))
      (λ msg, map_to_list (default ∅ (handlersOf msg busWorld))) busWorld
    = Done w'
    ∧ handlersOf "x" w'
      = Some {[ msgKey (Some 2%N) handlerA
                := {| src := Some 2%N; hfunction := handlerA |} ]}
    ∧ closeMessageHandlers w' = Done w'.
Proof.
  destruct (cleaning_keeps_mounted_subscribers busWorld
              (map_to_list (messages (eng busWorld)))
              (λ msg, map_to_list (default ∅ (handlersOf msg busWorld))))
    as [H1 H2].
  - reflexivity.
  - intros msg handlers Hh. unfold rangeOrder, handlersOf. by rewrite Hh.
  - assert (closeMessageHandlers busWorld
            = Done (withMessages
                      (mountedHandlers (ui busWorld) <$> messages (eng busWorld))
                      busWorld)) as Hc by (vm_compute; reflexivity).
    eexists. split; [by rewrite H1|].
    destruct (H2 _ Hc) as (H3 & _ & _ & H4 & _).
    split; [|exact H4]. rewrite H3. vm_compute. reflexivity.
Defined.

(** ** 8.13 Which Composers Emit notifies *)

Lemma climb_NoDup fuel t n path : climb fuel t n = Some path → NoDup path.
Proof.
  revert n path. induction fuel as [|fuel IH]; intros n path; [done|].
  simpl. destruct (parent t n) as [p|] eqn:Hp.
  - destruct (climb fuel t p) as [rest|] eqn:Hrest; [|done].
    intros [= <-]. constructor; [by eapply climb_fresh|by eapply IH].
  - intros [= <-]. apply NoDup_singleton.
Qed.

Lemma composersOn_none t (path : list N) :
  Forall (λ x, x ∉ composerNodes t) path → composersOn t path = [].
Proof.
  unfold composersOn. induction 1 as [|x path Hx _ IH]; [done|].
  by rewrite filter_cons, decide_False.
Qed.

Lemma composersOn_enclosed t n c above path :
  ancestry t n = Some path → enclosedBy t n c above →
  tail (composersOn t path) = composersOn t above
  ∧ (c ∉ above) ∧ NoDup (composersOn t above).
Proof.
  intros Hpath Henc. pose proof (enclosedBy_ancestry _ _ _ _ Henc) as Hc.
  destruct Henc as (below & H & Hbelow & Hcomp).
  rewrite Hpath in H. injection H as ->. split_and!.
  - unfold composersOn. rewrite filter_app, filter_cons, decide_True by done.
    fold (composersOn t below). by rewrite (composersOn_none _ _ Hbelow).
  - by eapply ancestry_fresh.
  - apply NoDup_filter. unfold ancestry in Hpath.
    apply climb_NoDup in Hpath. apply NoDup_app in Hpath as (_ & _ & Hnd).
    by apply NoDup_cons in Hnd as [_ ?].
Qed.

Lemma dispatchAll_done {X} cs (w w' : World X) :
  dispatchAll cs w = Done w' →
  events (eng w')
  = events (eng w)
    ++ ((λ c, Event c false None) <$> filter (λ c, c ∈ mountedNodes (ui w)) cs)
  ∧ ui w' = ui w.
Proof.
  revert w. induction cs as [|c cs IH]; intros w; simpl.
  { intros [= <-]. by rewrite app_nil_r. }
  destruct (Dispatch (Some c) None w) as [w1| | |p] eqn:Hd; simpl; try done.
  intros [Hev Hui]%IH. rewrite Hev, Hui, filter_cons.
  unfold Dispatch, enqueue, send, Mounted in Hd.
  destruct (decide (c ∈ mountedNodes (ui w))) as [Hm|Hm].
  - rewrite (bool_decide_eq_true_2 _ Hm) in Hd.
    destruct (decide _); [|done]. injection Hd as <-. simpl.
    by rewrite <- app_assoc.
  - rewrite (bool_decide_eq_false_2 _ Hm) in Hd. by injection Hd as <-.
Qed.

(** X14.  Emit notifies the Composers strictly above the nearest enclosing
    Composer of its source, and nobody else: the events it sends carry no
    function, their sources are the mounted Composers among the ancestors
    of that nearest Composer, nearest first and each once, and the nearest
    Composer itself gets none.  When no Composer lies above it, or no
    Composer encloses the source at all, Emit sends nothing. *)
Theorem emit_notifies_each_outer_composer_once {X} (env : Environment X)
    (w : World X) (n : N) :
  Mounted (ui w) n = true →
  (∀ c above,
     enclosedBy (ui w) n c above →
     Emit env (Some n) None w = ([], dispatchAll (composersOn (ui w) above) w)
     ∧ (c ∉ composersOn (ui w) above)
     ∧ NoDup (composersOn (ui w) above)
     ∧ (∀ w', dispatchAll (composersOn (ui w) above) w = Done w' →
          events (eng w')
          = events (eng w)
            ++ ((λ a, Event a false None)
                  <$> filter (λ a, a ∈ mountedNodes (ui w))
                        (composersOn (ui w) above))
          ∧ ui w' = ui w)
     ∧ (composersOn (ui w) above = [] →
        Emit env (Some n) None w = ([], Done w)))
  ∧ (∀ path,
       ancestry (ui w) n = Some path →
       Forall (λ x, x ∉ composerNodes (ui w)) path →
       Emit env (Some n) None w = ([], Done w))
  ∧ (∀ f w1 c above,
       callThunk env f w = Done w1 →
       enclosedBy (ui w1) n c above →
       Emit env (Some n) (Some f) w
       = ([EmitCalled f], dispatchAll (composersOn (ui w1) above) w1)).
Proof.
  intros Hm. split_and!.
  - intros c above Henc.
    assert (∃ path, ancestry (ui w) n = Some path) as [path Hpath].
    { destruct Henc as (below & H & _). by eexists. }
    destruct (composersOn_enclosed _ _ _ _ _ Hpath Henc) as (Ht & Hc & Hnd).
    assert (Emit env (Some n) None w
            = ([], dispatchAll (composersOn (ui w) above) w)) as HE.
    { by rewrite (Emit_mounted_nil env n w path Hm Hpath), Ht. }
    split_and!; [done| |done|apply dispatchAll_done|].
    + unfold composersOn. rewrite list_elem_of_filter. tauto.
    + intros Hnone. by rewrite HE, Hnone.
  - intros path Hpath Hnone.
    rewrite (Emit_mounted_nil env n w path Hm Hpath).
    by rewrite (composersOn_none _ _ Hnone).
  - intros f w1 c above Hf Henc.
    assert (∃ path, ancestry (ui w1) n = Some path) as [path Hpath].
    { destruct Henc as (below & H & _). by eexists. }
    destruct (composersOn_enclosed _ _ _ _ _ Hpath Henc) as (Ht & _).
    by rewrite (Emit_mounted env n f w w1 path Hm Hf Hpath), Ht.
Qed.

Lemma emit_notifies_each_outer_composer_once_witness :
  Emit quietEnv (Some 3%N) None chainWorld
  = ([], dispatchAll (composersOn chainTree [2%N; 1%N]) chainWorld)
  ∧ (3%N ∉ composersOn chainTree [2%N; 1%N])
  ∧ Emit quietEnv (Some 1%N) None chainWorld = ([], Done chainWorld).
Proof.
  destruct (emit_notifies_each_outer_composer_once quietEnv chainWorld 3%N)
    as (H & _); [vm_compute; reflexivity|].
  destruct (H 3%N [2%N; 1%N]) as (H1 & H2 & _).
  { exists []. split_and!; [vm_compute; reflexivity|constructor|by_evaluation]. }
  split; [exact H1|]. split; [exact H2|].
  destruct (emit_notifies_each_outer_composer_once quietEnv chainWorld 1%N)
    as (H' & _); [vm_compute; reflexivity|].
  destruct (H' 1%N []) as (_ & _ & _ & _ & H5).
  { exists []. split_and!; [vm_compute; reflexivity|constructor|by_evaluation]. }
  by apply H5.
Defined.

(** ** 8.14 The loop of start between two update ticks *)

(** X15.  The loop of start re-renders and drains only on an update tick.
    As long as no update tick is selected, whatever else is (events,
    cleaning ticks, the end of the context), it calls nothing but the
    functions of the events it receives, at most one for each time an
    event is selected: no Composer is re-rendered, no flush ends and no
    deferred function is called. *)
Theorem start_flushes_only_on_update_ticks {X} (env : Environment X)
    (sorter : Sorter) (cases : list selected) (w : World X) :
  UpdateTick ∉ cases →
  ∃ es, (start env sorter cases w).1 = Called <$> es
        ∧ length es ≤ length (filter (λ c, c = EventReceived) cases).
Proof.
  revert w. induction cases as [|case cases IH]; intros w Hno.
  { by exists []. }
  apply not_elem_of_cons in Hno as [Hcase Hno]. rewrite filter_cons.
  destruct case;
    (destruct (decide _) as [Hd|Hd]; [try discriminate Hd|try (by destruct Hd)]);
    cbn -[rbind lift filter]; try done.
  - exists []. simpl. split; [done|lia].
  - destruct (events (eng w)) as [|ev evs].
    { destruct (IH w Hno) as (es & -> & Hlen). exists es.
      split; [done|simpl; lia]. }
    pose proof (handleEvent_shape env ev (withEvents evs w)) as Hs.
    destruct (handleEvent env ev (withEvents evs w)) as [l [a| | |p]];
      simpl in Hs; cbn [rbind].
    + destruct (IH a Hno) as (es & E & Hlen).
      destruct (start env sorter cases a) as [l' r']. simpl in E. subst l'.
      destruct Hs as [->| ->];
        [exists es|exists (ev :: es)]; simpl; split; (done || lia).
    + destruct Hs as [->| ->]; [exists []|exists [ev]]; simpl;
        split; (done || lia).
    + destruct Hs as [->| ->]; [exists []|exists [ev]]; simpl;
        split; (done || lia).
    + destruct Hs as [->| ->]; [exists []|exists [ev]]; simpl;
        split; (done || lia).
  - unfold lift. destruct (closeMessageHandlers w) as [a| | |p]; cbn [rbind];
      try (exists []; simpl; split; [done|lia]).
    destruct (IH a Hno) as (es & E & Hlen).
    destruct (start env sorter cases a) as [l' r']. simpl in E. subst l'.
    exists es. by split.
Qed.

Lemma start_flushes_only_on_update_ticks_witness :
  ∃ es,
    (start quietEnv mergeSorter [EventReceived; CleanTick; EventReceived]
       (withEvents [Event 3 false (Some (FnUser 7));
                    Event 2 true (Some (FnUser 8))] chainWorld)).1
    = Called <$> es
    ∧ length es ≤ 2.
Proof.
  apply (start_flushes_only_on_update_ticks quietEnv mergeSorter
           [EventReceived; CleanTick; EventReceived]).
  by_evaluation.
Defined.
